(** * command-handler: the matching-and-authorization engine of [src/index.ts]

    A shallow embedding of the TypeScript module and the properties of its
    command matcher, task selector, registry and prefix settings.

    Modelling conventions.
    - Text is a [string] of 8-bit characters, read as the UTF-16 code units
      below 256 (U+0000 to U+00FF): the model covers message, prefix and
      command text in that range.  There [toLowerCase] changes the letters
      A-Z and U+00C0 to U+00DE (the sign U+00D7 apart) by adding 32 and
      keeps every other code unit, and [\s] and [trim] agree on TAB, LF,
      VT, FF, CR, SPACE and the no-break space U+00A0.  Text with code units
      from 256 on, where lower-casing can change the length of a string, is
      outside the model.
    - The module-level [settings], [commands] and [tasks] are the fields of
      a [Store] that every operation threads explicitly.  The array held in
      [settings.globalPrefixes] is the field [globalPrefixes]: a [push] onto
      an alias of that array is an update of the field.
    - [async] functions are run to completion: a rejected promise and a
      thrown exception are both [Throw].
    - The closures of a descriptor ([run], [test]) and the member fetch of
      the chat platform are host code.  They are supplied by a [Host] that
      is indexed by the descriptor, and each invocation of a [run] action or
      of the member fetch is recorded as an [Event].  Host code is taken to
      leave the store alone and to change the message only by resolving its
      member in a fetch.
    - The definitions that [fs.readdirSync] and [require] find in a folder
      are the list handed to the registration functions. *)

From Stdlib Require Import Ascii String List Bool Arith NArith Lia Sorted.
From stdpp Require Import gmap strings list fin_maps.
Import ListNotations.

Local Open Scope string_scope.
Local Open Scope list_scope.

(** ** JavaScript strings *)

Module JsString.

(** The code units below 256 that [toLowerCase] changes: A-Z, and U+00C0
    to U+00DE except the multiplication sign U+00D7. *)
Definition isUpper (c : ascii) : bool :=
  let n := N_of_ascii c in
  ((65 <=? n) && (n <=? 90) || (192 <=? n) && (n <=? 222) && negb (n =? 215))%N.

Definition lowerChar (c : ascii) : ascii :=
  if isUpper c then ascii_of_N (N_of_ascii c + 32) else c.

(** [s.toLowerCase()] *)
Fixpoint toLowerCase (s : string) : string :=
  match s with
  | EmptyString => EmptyString
  | String c r => String (lowerChar c) (toLowerCase r)
  end.

(** The class [\s], which is also what [trim] strips: TAB, LF, VT, FF, CR,
    SPACE and the no-break space U+00A0. *)
Definition isWhitespace (c : ascii) : bool :=
  let n := N_of_ascii c in
  ((n =? 9) || (n =? 10) || (n =? 11) || (n =? 12) || (n =? 13) || (n =? 32)
   || (n =? 160))%N.

Definition isSpace (c : ascii) : bool := (N_of_ascii c =? 32)%N.

Fixpoint trimStart (s : string) : string :=
  match s with
  | EmptyString => EmptyString
  | String c r => if isWhitespace c then trimStart r else s
  end.

Fixpoint trimEnd (s : string) : string :=
  match s with
  | EmptyString => EmptyString
  | String c r =>
      match trimEnd r with
      | EmptyString => if isWhitespace c then EmptyString else String c EmptyString
      | r' => String c r'
      end
  end.

(** [s.trim()] *)
Definition trim (s : string) : string := trimEnd (trimStart s).

(** [s.slice(n)] for a non-negative [n]. *)
Fixpoint slice (n : nat) (s : string) : string :=
  match n, s with
  | O, _ => s
  | S n', String _ r => slice n' r
  | S _, EmptyString => EmptyString
  end.

(** [s.startsWith(p)] *)
Definition startsWith (s p : string) : bool := String.prefix p s.

(** [/^\s|^$/.test(s)] *)
Definition boundaryTest (s : string) : bool :=
  match s with
  | EmptyString => true
  | String c _ => isWhitespace c
  end.

(** [s.split(re)] for a regular expression [re] that matches the non-empty
    runs of the characters [sep]: [/ +/] for [sep := isSpace].  [cur] is
    the piece being read and [inRun] tells that the previous character
    belonged to a separator run. *)
Fixpoint splitAux (sep : ascii -> bool) (inRun : bool) (cur : string) (s : string)
  : list string :=
  match s with
  | EmptyString => [cur]
  | String c r =>
      if sep c then
        if inRun then splitAux sep true cur r
        else cur :: splitAux sep true EmptyString r
      else splitAux sep false (cur +:+ String c EmptyString) r
  end.

Definition splitRuns (sep : ascii -> bool) (s : string) : list string :=
  splitAux sep false EmptyString s.

(** [l.includes(x)] on an array of strings *)
Definition includes (l : list string) (x : string) : bool :=
  existsb (String.eqb x) l.

End JsString.
Import JsString.

(** ** Values a definition file or a caller can supply *)

Inductive Prim :=
| JsUndefined
| JsNull
| JsBool (b : bool)
| JsNumber (z : Z)
| JsStr (s : string).

#[global] Instance Prim_eq_dec : EqDecision Prim.
Proof. solve_decision. Defined.

(** An argument that is either one primitive value or an array of them. *)
Inductive Arg :=
| Scalar (p : Prim)
| Arr (l : list Prim).

(** [typeof v === 'string'] *)
Definition asString (v : Prim) : option string :=
  match v with
  | JsStr s => Some s
  | _ => None
  end.

(** ** Errors and results *)

Inductive Error :=
| JsError (message : string)
| TypeError (message : string).

Inductive Res (A : Type) :=
| Ok (a : A)
| Throw (e : Error).
Arguments Ok {A} a.
Arguments Throw {A} e.

Definition bindRes {A B} (r : Res A) (k : A -> Res B) : Res B :=
  match r with
  | Ok a => k a
  | Throw e => Throw e
  end.

Notation "'let?' x ':=' r 'in' k" := (bindRes r (fun x => k))
  (at level 10, x binder, r at level 100, k at level 200).

(** ** Data model *)

(** The interface [Command]; [N] is the type found in the [command] field and
    [A] the type found in [aliases].  A definition as loaded from a file has
    arbitrary values there, a registered command has strings. *)
Record CommandOf (N A : Type) := {
  disabled : option bool;
  command : N;
  aliases : A;
  description : option string;
  usage : option string;
  ownerOnly : option bool;
  adminOnly : option bool;
  modOnly : option bool;
  inGuilds : option bool;
  inDms : option bool;
  allowBots : option bool;
  botsOnly : option bool;
  allowSelf : option bool
}.
Arguments disabled {N A} _.
Arguments command {N A} _.
Arguments aliases {N A} _.
Arguments description {N A} _.
Arguments usage {N A} _.
Arguments ownerOnly {N A} _.
Arguments adminOnly {N A} _.
Arguments modOnly {N A} _.
Arguments inGuilds {N A} _.
Arguments inDms {N A} _.
Arguments allowBots {N A} _.
Arguments botsOnly {N A} _.
Arguments allowSelf {N A} _.

(** A definition file's export: [aliases] is [None] when it is not an array. *)
Definition RawCommand := CommandOf Prim (option (list Prim)).
Definition Command := CommandOf string (list string).

Record FullCommand := {
  fc_disabled : bool;
  fc_command : string;
  fc_aliases : list string;
  fc_description : string;
  fc_usage : string;
  fc_ownerOnly : bool;
  fc_adminOnly : bool;
  fc_modOnly : bool;
  fc_inGuilds : bool;
  fc_inDms : bool;
  fc_allowBots : bool;
  fc_botsOnly : bool;
  fc_allowSelf : bool
}.

(** [x ?? d] *)
Definition orDefault {A} (x : option A) (d : A) : A :=
  match x with
  | Some a => a
  | None => d
  end.
Infix "??" := orDefault (at level 45, left associativity).

Definition defaultCommandValues (c : Command) : FullCommand := {|
  fc_disabled := disabled c ?? false;
  fc_command := command c;
  fc_aliases := aliases c;
  fc_description := description c ?? "";
  fc_usage := usage c ?? "";
  fc_ownerOnly := ownerOnly c ?? false;
  fc_adminOnly := adminOnly c ?? false;
  fc_modOnly := modOnly c ?? false;
  fc_inGuilds := inGuilds c ?? true;
  fc_inDms := inDms c ?? true;
  fc_allowBots := allowBots c ?? false;
  fc_botsOnly := botsOnly c ?? false;
  fc_allowSelf := allowSelf c ?? false
|}.

(** The interface [Task], without its two closures. *)
Record Task := {
  t_disabled : option bool;
  name : string;
  limited : bool;
  t_ownerOnly : option bool;
  t_adminOnly : option bool;
  t_modOnly : option bool;
  t_inGuilds : option bool;
  t_inDms : option bool;
  t_allowBots : option bool;
  t_botsOnly : option bool;
  t_allowSelf : option bool
}.

Record FullTask := {
  ft_disabled : bool;
  ft_name : string;
  ft_limited : bool;
  ft_ownerOnly : bool;
  ft_adminOnly : bool;
  ft_modOnly : bool;
  ft_inGuilds : bool;
  ft_inDms : bool;
  ft_allowBots : bool;
  ft_botsOnly : bool;
  ft_allowSelf : bool
}.

Definition defaultTaskValues (t : Task) : FullTask := {|
  ft_disabled := t_disabled t ?? false;
  ft_name := name t;
  ft_limited := limited t;
  ft_ownerOnly := t_ownerOnly t ?? false;
  ft_adminOnly := t_adminOnly t ?? false;
  ft_modOnly := t_modOnly t ?? false;
  ft_inGuilds := t_inGuilds t ?? true;
  ft_inDms := t_inDms t ?? true;
  ft_allowBots := t_allowBots t ?? false;
  ft_botsOnly := t_botsOnly t ?? false;
  ft_allowSelf := t_allowSelf t ?? false
|}.

Record PermissionChecks := {
  passChecks : bool;
  passAdminCheck : bool;
  passModCheck : bool;
  passBotCheck : bool;
  passChannelTypeCheck : bool;
  passOwnerCheck : bool;
  passSelfCheck : bool
}.

Record CommandContext := {
  argsOffset : nat;
  args : string;
  argv : list string;
  cc_command : string;
  cc_prefix : string;
  cc_commandObj : Command
}.

Record TaskContext := {
  matching : list Task;
  notMatching : list Task
}.

(** What the engine reads of a guild member: the administrator permission
    and the ids in [roles.cache]. *)
Record GuildMember := {
  isAdministrator : bool;
  roleIds : list string
}.

(** What the engine reads of a discord.js [Message].  [guild] is the guild
    id, absent in a DM; [member] is [None] while the member is unresolved. *)
Record Message := {
  content : string;
  authorId : string;
  authorBot : bool;
  guild : option string;
  member : option GuildMember;
  clientUserId : string
}.

(** [string[] | true] *)
Inductive ModRoles :=
| AllRoles
| RoleList (ids : list string).

(** [string | boolean] *)
Inductive OwnerId :=
| OwnerIs (id : string)
| OwnerFlag (b : bool).

Record Settings := {
  ownerId : OwnerId;
  globalPrefixes : list string;
  guildPrefixes : gmap string (list string);
  getModRoles : string -> Res ModRoles
}.

(** The three module-level bindings. *)
Record Store := {
  settings : Settings;
  commands : list Command;
  tasks : list Task
}.

(** The module's initial state. *)
Definition initialSettings : Settings := {|
  ownerId := OwnerFlag false;
  globalPrefixes := [""];
  guildPrefixes := ∅;
  getModRoles := fun _ => Ok (RoleList [])
|}.

Definition initialStore : Store := {|
  settings := initialSettings;
  commands := [];
  tasks := []
|}.

(** ** Host code and its observable invocations *)

Record Host := {
  (** [message.guild.members.fetch(message.author)] *)
  fetchMember : string -> string -> Res GuildMember;
  (** [commandObj.run(message, commandContext)] *)
  runCommand : Command -> Message -> CommandContext -> Res unit;
  (** [taskObj.test(message)] *)
  testTask : Task -> Message -> Res bool;
  (** [taskObj.run(message, tasksContext)] *)
  runTask : Task -> Message -> TaskContext -> Res unit
}.

Inductive Event :=
| MemberFetched (guildId authorId : string)
| CommandRun (c : Command) (m : Message) (ctx : CommandContext)
| TaskRun (t : Task) (m : Message) (ctx : TaskContext).

(** ** Computations over the store *)

Definition M (A : Type) : Type := Store -> Res A * Store * list Event.

Definition ret {A} (a : A) : M A := fun st => (Ok a, st, []).

Definition throw {A} (e : Error) : M A := fun st => (Throw e, st, []).

Definition bind {A B} (m : M A) (k : A -> M B) : M B :=
  fun st =>
    match m st with
    | (Ok a, st1, ev1) =>
        match k a st1 with
        | (r, st2, ev2) => (r, st2, ev1 ++ ev2)
        end
    | (Throw e, st1, ev1) => (Throw e, st1, ev1)
    end.

Notation "'let*' x ':=' m 'in' k" := (bind m (fun x => k))
  (at level 10, x binder, m at level 100, k at level 200).

Definition gets {A} (f : Store -> A) : M A := fun st => (Ok (f st), st, []).

Definition modify (f : Store -> Store) : M unit := fun st => (Ok tt, f st, []).

Definition emit (e : Event) : M unit := fun st => (Ok tt, st, [e]).

Definition liftRes {A} (r : Res A) : M A := fun st => (r, st, []).

Definition result {A} (x : Res A * Store * list Event) : Res A := fst (fst x).
Definition store {A} (x : Res A * Store * list Event) : Store := snd (fst x).
Definition trace {A} (x : Res A * Store * list Event) : list Event := snd x.

(** ** Permission evaluator *)

(** [message.member as GuildMember], read through [.permissions] or
    [.roles]: a [TypeError] when the member is [null]. *)
Definition derefMember (message : Message) : Res GuildMember :=
  match member message with
  | Some m => Ok m
  | None => Throw (TypeError "Cannot read properties of null")
  end.

(** [message.guild ? await settings.getModRoles(message.guild.id) : []] *)
Definition modRolesFor (s : Settings) (message : Message) : Res ModRoles :=
  match guild message with
  | Some g => getModRoles s g
  | None => Ok (RoleList [])
  end.

Definition adminCheck (adminOnly : bool) (message : Message) : Res bool :=
  if negb adminOnly then Ok true
  else
    match guild message with
    | None => Ok false
    | Some _ => let? m := derefMember message in Ok (isAdministrator m)
    end.

Definition modCheck (modOnly : bool) (modRoles : ModRoles) (message : Message) : Res bool :=
  if negb modOnly then Ok true
  else
    match guild message with
    | None => Ok false
    | Some _ =>
        let? m := derefMember message in
        Ok (isAdministrator m ||
            match modRoles with
            | AllRoles => true
            | RoleList ids => existsb (fun e => includes ids e) (roleIds m)
            end)
    end.

Definition botCheck (allowBots botsOnly : bool) (message : Message) : bool :=
  if authorBot message
  then allowBots || botsOnly || String.eqb (authorId message) (clientUserId message)
  else negb botsOnly.

Definition channelTypeCheck (inGuilds inDms : bool) (message : Message) : bool :=
  match guild message with
  | Some _ => inGuilds
  | None => inDms
  end.

Definition ownerCheck (s : Settings) (ownerOnly : bool) (message : Message) : bool :=
  negb ownerOnly ||
  match ownerId s with
  | OwnerFlag b => b
  | OwnerIs id => String.eqb (authorId message) id
  end.

Definition selfCheck (allowSelf : bool) (message : Message) : bool :=
  negb (String.eqb (authorId message) (clientUserId message)) || allowSelf.

Definition mkChecks (admin moderator bot channelType owner self : bool)
  : PermissionChecks := {|
  passChecks := admin && moderator && bot && channelType && owner && self;
  passAdminCheck := admin;
  passModCheck := moderator;
  passBotCheck := bot;
  passChannelTypeCheck := channelType;
  passOwnerCheck := owner;
  passSelfCheck := self
|}.

Definition checkCommandPermissions (s : Settings) (commandObj : Command) (message : Message)
  : Res PermissionChecks :=
  let? modRoles := modRolesFor s message in
  let fullCommandObj := defaultCommandValues commandObj in
  let? passAdminCheck := adminCheck (fc_adminOnly fullCommandObj) message in
  let? passModCheck := modCheck (fc_modOnly fullCommandObj) modRoles message in
  let passBotCheck :=
    botCheck (fc_allowBots fullCommandObj) (fc_botsOnly fullCommandObj) message in
  let passChannelTypeCheck :=
    channelTypeCheck (fc_inGuilds fullCommandObj) (fc_inDms fullCommandObj) message in
  let passOwnerCheck := ownerCheck s (fc_ownerOnly fullCommandObj) message in
  let passSelfCheck := selfCheck (fc_allowSelf fullCommandObj) message in
  Ok (mkChecks passAdminCheck passModCheck passBotCheck passChannelTypeCheck
        passOwnerCheck passSelfCheck).

Definition checkTaskPermissions (s : Settings) (taskObj : Task) (message : Message)
  : Res PermissionChecks :=
  let? modRoles := modRolesFor s message in
  match guild message, member message with
  | Some _, None => Throw (JsError "Should be unreachable")
  | _, _ =>
      let fullTaskObj := defaultTaskValues taskObj in
      let? passAdminCheck := adminCheck (ft_adminOnly fullTaskObj) message in
      let? passModCheck := modCheck (ft_modOnly fullTaskObj) modRoles message in
      let passBotCheck :=
        botCheck (ft_allowBots fullTaskObj) (ft_botsOnly fullTaskObj) message in
      let passChannelTypeCheck :=
        channelTypeCheck (ft_inGuilds fullTaskObj) (ft_inDms fullTaskObj) message in
      let passOwnerCheck := ownerCheck s (ft_ownerOnly fullTaskObj) message in
      let passSelfCheck := selfCheck (ft_allowSelf fullTaskObj) message in
      Ok (mkChecks passAdminCheck passModCheck passBotCheck passChannelTypeCheck
            passOwnerCheck passSelfCheck)
  end.

(** ** Command matcher *)

Inductive CommandMatch :=
| CommandMatchNoMatch
| CommandMatchMatch (command : string) (checks : PermissionChecks) (commandObj : Command).

(** The condition of the innermost [if] of [checkCommand]. *)
Definition matchesVariation (prefix commandVariation text : string) : bool :=
  startsWith (toLowerCase text) (prefix +:+ commandVariation) &&
  boundaryTest (slice (String.length (prefix +:+ commandVariation)) (toLowerCase text)).

(** [[commandObj.command, ...commandObj.aliases]] *)
Definition variations (commandObj : Command) : list string :=
  command commandObj :: aliases commandObj.

(** The three nested [for] loops, each stopping at the first hit. *)
Fixpoint findVariation (prefix text : string) (commandVariations : list string)
  : option string :=
  match commandVariations with
  | [] => None
  | v :: rest =>
      if matchesVariation prefix v text then Some v
      else findVariation prefix text rest
  end.

Fixpoint findCommand (prefix text : string) (cmds : list Command)
  : option (Command * string) :=
  match cmds with
  | [] => None
  | commandObj :: rest =>
      match findVariation prefix text (variations commandObj) with
      | Some v => Some (commandObj, v)
      | None => findCommand prefix text rest
      end
  end.

Fixpoint findPrefix (text : string) (cmds : list Command) (validPrefixes : list string)
  : option (string * Command * string) :=
  match validPrefixes with
  | [] => None
  | prefix :: rest =>
      match findCommand prefix text cmds with
      | Some (commandObj, v) => Some (prefix, commandObj, v)
      | None => findPrefix text cmds rest
      end
  end.

Definition withMember (message : Message) (m : GuildMember) : Message := {|
  content := content message;
  authorId := authorId message;
  authorBot := authorBot message;
  guild := guild message;
  member := Some m;
  clientUserId := clientUserId message
|}.

(** [if (message.guild && !message.member) await message.guild.members.fetch(message.author)];
    once fetched, [message.member] reads the cached member. *)
Definition resolveMember (h : Host) (message : Message) : M Message :=
  match guild message, member message with
  | Some g, None =>
      let* _ := emit (MemberFetched g (authorId message)) in
      let* m := liftRes (fetchMember h g (authorId message)) in
      ret (withMember message m)
  | _, _ => ret message
  end.

Definition commandContext (prefix commandVariation : string) (commandObj : Command)
  (message : Message) : CommandContext :=
  let argsOffset := String.length commandVariation + String.length prefix in
  let args := trim (slice argsOffset (content message)) in
  {| argsOffset := argsOffset;
     args := args;
     argv := if String.eqb args "" then [] else splitRuns isSpace args;
     cc_command := commandVariation;
     cc_prefix := prefix;
     cc_commandObj := commandObj |}.

(** The body of the innermost [if] of [checkCommand]. *)
Definition runMatched (h : Host) (message : Message) (prefix : string)
  (commandObj : Command) (commandVariation : string) : M CommandMatch :=
  let* message := resolveMember h message in
  let* s := gets settings in
  let* checks := liftRes (checkCommandPermissions s commandObj message) in
  let* _ :=
    if passChecks checks then
      let ctx := commandContext prefix commandVariation commandObj message in
      let* _ := emit (CommandRun commandObj message ctx) in
      liftRes (runCommand h commandObj message ctx)
    else ret tt in
  ret (CommandMatchMatch commandVariation checks commandObj).

(** [validPrefixes.push(...guildPrefixes)], where [validPrefixes] is the very
    array held in [settings.globalPrefixes]. *)
Definition pushGlobalPrefixes (ps : list string) (st : Store) : Store := {|
  settings := {|
    ownerId := ownerId (settings st);
    globalPrefixes := globalPrefixes (settings st) ++ ps;
    guildPrefixes := guildPrefixes (settings st);
    getModRoles := getModRoles (settings st) |};
  commands := commands st;
  tasks := tasks st
|}.

Definition checkCommand (h : Host) (message : Message) : M CommandMatch :=
  let* _ :=
    match guild message with
    | Some g =>
        let* found := gets (fun st => guildPrefixes (settings st) !! g) in
        match found with
        | Some ps => modify (pushGlobalPrefixes ps)
        | None => ret tt
        end
    | None => ret tt
    end in
  let* validPrefixes := gets (fun st => globalPrefixes (settings st)) in
  let* cmds := gets commands in
  match findPrefix (content message) cmds validPrefixes with
  | Some (prefix, commandObj, commandVariation) =>
      runMatched h message prefix commandObj commandVariation
  | None => ret CommandMatchNoMatch
  end.

(** ** Task selector *)

Record TaskMatch := {
  tm_match : bool;
  tm_matching : list Task;
  tm_notMatching : list Task
}.

(** [try { testResult = await taskObj.test(message) } catch { testResult = false }] *)
Definition testResultOf (h : Host) (taskObj : Task) (message : Message) : bool :=
  match testTask h taskObj message with
  | Ok b => b
  | Throw _ => false
  end.

(** The first loop of [checkTasks]; [limitedSelected] and [ctx] are its two
    mutable variables. *)
Fixpoint selectTasks (h : Host) (message : Message) (excludeLimited : bool)
  (ts : list Task) (limitedSelected : bool) (ctx : TaskContext) : M TaskContext :=
  match ts with
  | [] => ret ctx
  | taskObj :: rest =>
      let testResult := testResultOf h taskObj message in
      let* selected :=
        if testResult then
          let* s := gets settings in
          let* checks := liftRes (checkTaskPermissions s taskObj message) in
          ret (passChecks checks &&
               (negb (limited taskObj) || (negb limitedSelected && negb excludeLimited)))
        else ret false in
      if selected then
        selectTasks h message excludeLimited rest (limited taskObj)
          {| matching := matching ctx ++ [taskObj]; notMatching := notMatching ctx |}
      else
        selectTasks h message excludeLimited rest limitedSelected
          {| matching := matching ctx; notMatching := notMatching ctx ++ [taskObj] |}
  end.

(** The second loop of [checkTasks]. *)
Fixpoint runTasks (h : Host) (message : Message) (ctx : TaskContext) (ts : list Task)
  : M unit :=
  match ts with
  | [] => ret tt
  | taskObj :: rest =>
      let* _ := emit (TaskRun taskObj message ctx) in
      let* _ := liftRes (runTask h taskObj message ctx) in
      runTasks h message ctx rest
  end.

Definition checkTasks (h : Host) (message : Message) (excludeLimited : bool) : M TaskMatch :=
  let* ts := gets tasks in
  let* tasksContext :=
    selectTasks h message excludeLimited ts false {| matching := []; notMatching := [] |} in
  let* _ := runTasks h message tasksContext (matching tasksContext) in
  ret {| tm_match := negb (Nat.eqb (length (matching tasksContext)) 0);
         tm_matching := matching tasksContext;
         tm_notMatching := notMatching tasksContext |}.

(** ** Settings: getters and setters of the prefixes *)

(** [commands.slice()] *)
Definition getCommands (st : Store) : list Command := commands st.

(** [settings.globalPrefixes.slice()] *)
Definition getGlobalPrefixes (st : Store) : list string := globalPrefixes (settings st).

Definition getGuildPrefixes (guildId : string) (st : Store) : list string :=
  match guildPrefixes (settings st) !! guildId with
  | Some ps => ps
  | None => []
  end.

(** [new Set(l)] followed by the spread [[...set]]: a set keeps its elements
    in insertion order and ignores a value it already holds. *)
Definition setAdd (s : list Prim) (x : Prim) : list Prim :=
  if bool_decide (x ∈ s) then s else s ++ [x].

Definition newSet (l : list Prim) : list Prim := fold_left setAdd l [].

(** [for (const prefix of l) if (typeof prefix !== 'string') throw ...] *)
Fixpoint requireStrings (l : list Prim) : Res (list string) :=
  match l with
  | [] => Ok []
  | p :: rest =>
      match asString p with
      | None => Throw (JsError "All prefixes must be strings")
      | Some s => let? ss := requireStrings rest in Ok (s :: ss)
      end
  end.

(** [prefixes == null] *)
Definition isNullish (prefixes : Arg) : bool :=
  match prefixes with
  | Scalar JsUndefined | Scalar JsNull => true
  | _ => false
  end.

(** [Array.isArray(prefixes) ? prefixes : [prefixes]] *)
Definition toPrefixList (prefixes : Arg) : list Prim :=
  match prefixes with
  | Arr l => l
  | Scalar p => [p]
  end.

Definition withSettings (s : Settings) (st : Store) : Store :=
  {| settings := s; commands := commands st; tasks := tasks st |}.

Definition withGlobalPrefixes (ps : list string) (st : Store) : Store :=
  withSettings
    {| ownerId := ownerId (settings st);
       globalPrefixes := ps;
       guildPrefixes := guildPrefixes (settings st);
       getModRoles := getModRoles (settings st) |} st.

Definition withGuildPrefixes (gp : gmap string (list string)) (st : Store) : Store :=
  withSettings
    {| ownerId := ownerId (settings st);
       globalPrefixes := globalPrefixes (settings st);
       guildPrefixes := gp;
       getModRoles := getModRoles (settings st) |} st.

Definition setGlobalPrefixes (prefixes : Arg) : M (list string) :=
  if isNullish prefixes then
    let* _ := modify (withGlobalPrefixes [""]) in
    ret [""]
  else
    let prefixList := toPrefixList prefixes in
    let prefixList :=
      if Nat.eqb (length prefixList) 0 then prefixList ++ [JsStr ""] else prefixList in
    let uniquePrefixList := newSet prefixList in
    let* checked := liftRes (requireStrings uniquePrefixList) in
    let* _ := modify (withGlobalPrefixes checked) in
    ret checked.

Definition setGuildPrefixes (guildId : string) (prefixes : Arg) : M (list string) :=
  let prefixList := toPrefixList prefixes in
  if isNullish prefixes || Nat.eqb (length prefixList) 0 then
    let* _ := modify (fun st => withGuildPrefixes (delete guildId (guildPrefixes (settings st))) st) in
    ret []
  else
    let uniquePrefixList := newSet prefixList in
    let* checked := liftRes (requireStrings uniquePrefixList) in
    let* _ :=
      modify (fun st =>
                withGuildPrefixes (<[guildId := checked]> (guildPrefixes (settings st))) st) in
    ret checked.

(** ** Registry *)

(** [l.sort(cmp)]: the sort of an array is stable, so it is the insertion
    sort that puts an element behind exactly the elements that [cmp] orders
    before it. *)
Fixpoint sortInsert {A} (cmp : A -> A -> Z) (x : A) (l : list A) : list A :=
  match l with
  | [] => [x]
  | y :: rest =>
      if (0 <? cmp x y)%Z then y :: sortInsert cmp x rest
      else x :: y :: rest
  end.

Fixpoint jsSort {A} (cmp : A -> A -> Z) (l : list A) : list A :=
  match l with
  | [] => []
  | x :: rest => sortInsert cmp x (jsSort cmp rest)
  end.

Definition compareCommands (a b : Command) : Z :=
  if Nat.ltb (String.length (command b)) (String.length (command a)) then (-1)%Z
  else if Nat.ltb (String.length (command a)) (String.length (command b)) then 1%Z
  else 0%Z.

Definition compareTasks (a b : Task) : Z :=
  if String.ltb (name a) (name b) then (-1)%Z
  else if String.ltb (name b) (name a) then 1%Z
  else 0%Z.

Record RegistrationInfo := {
  registered : nat;
  ri_disabled : nat
}.

Definition pushCommand (c : Command) (st : Store) : Store :=
  {| settings := settings st; commands := commands st ++ [c]; tasks := tasks st |}.

Definition pushTask (t : Task) (st : Store) : Store :=
  {| settings := settings st; commands := commands st; tasks := tasks st ++ [t] |}.

(** The object of a definition file once [command] and [aliases] have been
    overwritten with their normalised values. *)
Definition normalised (commandObj : RawCommand) (nm : string) (als : list string)
  : Command := {|
  disabled := disabled commandObj;
  command := nm;
  aliases := als;
  description := description commandObj;
  usage := usage commandObj;
  ownerOnly := ownerOnly commandObj;
  adminOnly := adminOnly commandObj;
  modOnly := modOnly commandObj;
  inGuilds := inGuilds commandObj;
  inDms := inDms commandObj;
  allowBots := allowBots commandObj;
  botsOnly := botsOnly commandObj;
  allowSelf := allowSelf commandObj
|}.

(** [aliases.some((e) => typeof e !== 'string')], then
    [aliases.map((e) => e.trim().toLowerCase())] *)
Fixpoint normaliseAliases (l : list Prim) : Res (list string) :=
  match l with
  | [] => Ok []
  | p :: rest =>
      match asString p with
      | None => Throw (JsError "Command aliases must be strings")
      | Some s => let? ss := normaliseAliases rest in Ok (toLowerCase (trim s) :: ss)
      end
  end.

(** The [for] loop over [commandVariations] that looks for a duplicate. *)
Fixpoint rejectDuplicates (commandStrings : list string) (nm : string)
  (commandVariations : list string) : Res unit :=
  match commandVariations with
  | [] => Ok tt
  | v :: rest =>
      if includes commandStrings v then
        Throw (JsError ("Duplicate command: " +:+ v +:+
                        (if negb (String.eqb v nm) then " (alias of " +:+ nm +:+ ")" else "")))
      else rejectDuplicates commandStrings nm rest
  end.

(** [disabled === true] *)
Definition isTrue (b : option bool) : bool := b ?? false.

(** The loop of [registerCommandsFolder] over the definitions found in the
    folder; [commandStrings], [disabledCount] and [registeredCount] are its
    local variables, and it pushes onto the living list as it goes. *)
Fixpoint registerCommandFiles (commandFiles : list RawCommand)
  (commandStrings : list string) (disabledCount registeredCount : nat) : M RegistrationInfo :=
  match commandFiles with
  | [] => ret {| registered := registeredCount; ri_disabled := disabledCount |}
  | commandObj :: rest =>
      match asString (command commandObj) with
      | None => throw (JsError "Command must be a string")
      | Some s =>
          let nm := toLowerCase (trim s) in
          if String.eqb nm "" || isTrue (disabled commandObj) then
            registerCommandFiles rest commandStrings (S disabledCount) registeredCount
          else
            let* als :=
              match aliases commandObj with
              | Some l => liftRes (normaliseAliases l)
              | None => ret []
              end in
            let commandVariations := nm :: als in
            let* _ := liftRes (rejectDuplicates commandStrings nm commandVariations) in
            let* _ := modify (pushCommand (normalised commandObj nm als)) in
            registerCommandFiles rest (commandStrings ++ commandVariations)
              disabledCount (S registeredCount)
      end
  end.

Definition sortCommands (st : Store) : Store :=
  {| settings := settings st;
     commands := jsSort compareCommands (commands st);
     tasks := tasks st |}.

Definition registerCommandsFolder (commandFiles : list RawCommand) : M RegistrationInfo :=
  let* commandStrings := gets (fun st => map command (commands st)) in
  let* info := registerCommandFiles commandFiles commandStrings 0 0 in
  let* _ := modify sortCommands in
  ret info.

Fixpoint registerTaskFiles (taskFiles : list Task) (tasknames : list string)
  (disabledCount registeredCount : nat) : M RegistrationInfo :=
  match taskFiles with
  | [] => ret {| registered := registeredCount; ri_disabled := disabledCount |}
  | taskObj :: rest =>
      if isTrue (t_disabled taskObj) then
        registerTaskFiles rest tasknames (S disabledCount) registeredCount
      else if includes tasknames (name taskObj) then
        throw (JsError ("Duplicate task: " +:+ name taskObj))
      else
        let* _ := modify (pushTask taskObj) in
        registerTaskFiles rest (tasknames ++ [name taskObj]) disabledCount (S registeredCount)
  end.

Definition sortTasks (st : Store) : Store :=
  {| settings := settings st;
     commands := commands st;
     tasks := jsSort compareTasks (tasks st) |}.

Definition registerTasksFolder (taskFiles : list Task) : M RegistrationInfo :=
  let* tasknames := gets (fun st => map name (tasks st)) in
  let* info := registerTaskFiles taskFiles tasknames 0 0 in
  let* _ := modify sortTasks in
  ret info.

(** ** Settings: owner and moderator roles *)

Definition withOwnerId (o : OwnerId) (st : Store) : Store :=
  withSettings
    {| ownerId := o;
       globalPrefixes := globalPrefixes (settings st);
       guildPrefixes := guildPrefixes (settings st);
       getModRoles := getModRoles (settings st) |} st.

Definition withModRoleGetter (f : string -> Res ModRoles) (st : Store) : Store :=
  withSettings
    {| ownerId := ownerId (settings st);
       globalPrefixes := globalPrefixes (settings st);
       guildPrefixes := guildPrefixes (settings st);
       getModRoles := f |} st.

Definition setOwnerId (ownerId : Prim) : M unit :=
  match ownerId with
  | JsStr s =>
      if String.eqb s "" then throw (JsError "ownerId cannot be an empty string")
      else modify (withOwnerId (OwnerIs s))
  | JsBool b => modify (withOwnerId (OwnerFlag b))
  | _ => throw (JsError "ownerId must be either a string or a boolean")
  end.

(** What a caller can hand to [setModRoleGetter]: a function, or a value
    whose [typeof] is not ['function']. *)
Inductive GetterArg :=
| Callable (f : string -> Res ModRoles)
| NotCallable (p : Prim).

Definition setModRoleGetter (modRoleGetter : GetterArg) : M unit :=
  match modRoleGetter with
  | Callable f => modify (withModRoleGetter f)
  | NotCallable _ => throw (JsError "modRoleGetter must be a function")
  end.

(** ** Vocabulary of the statements *)

(** The store as [checkCommand] leaves it: the prefixes of the message's
    guild, when it has some, have been pushed onto the global prefixes. *)
Definition pushedStore (message : Message) (st : Store) : Store :=
  match guild message with
  | Some g =>
      match guildPrefixes (settings st) !! g with
      | Some ps => pushGlobalPrefixes ps st
      | None => st
      end
  | None => st
  end.

(** The message as [checkCommandPermissions] sees it, given the member that a
    fetch delivers. *)
Definition resolvedMessage (message : Message) (fetched : GuildMember) : Message :=
  match guild message, member message with
  | Some _, None => withMember message fetched
  | _, _ => message
  end.

Definition needsFetch (message : Message) : bool :=
  match guild message, member message with
  | Some _, None => true
  | _, _ => false
  end.

Definition fetchEvents (message : Message) : list Event :=
  match guild message, member message with
  | Some g, None => [MemberFetched g (authorId message)]
  | _, _ => []
  end.

Definition runEvents (checks : PermissionChecks) (prefix v : string) (commandObj : Command)
  (message : Message) : list Event :=
  if passChecks checks
  then [CommandRun commandObj message (commandContext prefix v commandObj message)]
  else [].

Definition conjunctionOfSix (checks : PermissionChecks) : bool :=
  passAdminCheck checks && passModCheck checks && passBotCheck checks &&
  passChannelTypeCheck checks && passOwnerCheck checks && passSelfCheck checks.

Definition noMember : GuildMember := {| isAdministrator := false; roleIds := [] |}.

(** What [checkTaskPermissions] throws on a guild message whose member is
    unresolved: the rejection of the moderator-role lookup if it rejects, its
    own error otherwise. *)
Definition unresolvedError (s : Settings) (g : string) : Error :=
  match getModRoles s g with
  | Ok _ => JsError "Should be unreachable"
  | Throw e => e
  end.

#[global] Instance Task_eq_dec : EqDecision Task.
Proof. solve_decision. Defined.

(** [s] neither is empty nor ends with a character of [sep]; vacuous for the
    empty string. *)
Fixpoint endsClean (sep : ascii -> bool) (s : string) : bool :=
  match s with
  | EmptyString => true
  | String c r =>
      match r with
      | EmptyString => negb (sep c)
      | String _ _ => endsClean sep r
      end
  end.

Definition sepFree (sep : ascii -> bool) (s : string) : Prop :=
  Forall (fun c => sep c = false) (list_ascii_of_string s).

(** A non-empty run of separator characters. *)
Definition isRun (sep : ascii -> bool) (g : string) : Prop :=
  g <> "" /\ Forall (fun c => sep c = true) (list_ascii_of_string g).

(** [p1 g1 p2 g2 ... pn]: the pieces with the gaps between them. *)
Fixpoint weave (pieces gaps : list string) : string :=
  match pieces, gaps with
  | p :: ps, g :: gs => p +:+ g +:+ weave ps gs
  | p :: _, [] => p
  | [], _ => ""
  end.

(** "[pieces] is [s] split on runs of [sep]": [s] reads as the pieces, each
    non-empty and free of separators, with a run of separators between any
    two neighbours. *)
Definition SplitsOnRuns (sep : ascii -> bool) (s : string) (pieces : list string) : Prop :=
  exists gaps,
    length pieces = S (length gaps) /\
    Forall (isRun sep) gaps /\
    Forall (fun p => p <> "" /\ sepFree sep p) pieces /\
    weave pieces gaps = s.

(** The order of the registry: no command comes before one with a longer
    primary name. *)
Definition longerFirst (a b : Command) : Prop :=
  String.length (command b) <= String.length (command a).

(** "Duplicates collapsed, order preserved from first occurrence": the
    head stays, and it is struck from what follows. *)
Fixpoint dedupFirst {A} `{EqDecision A} (l : list A) : list A :=
  match l with
  | [] => []
  | x :: rest => x :: filter (fun y => y <> x) (dedupFirst rest)
  end.

(** The command that a definition contributes to the living list when the
    loop of [registerCommandsFolder] passes it. *)
Definition acceptedCommand (commandObj : RawCommand) : option Command :=
  match asString (command commandObj) with
  | None => None
  | Some s =>
      let nm := toLowerCase (trim s) in
      if String.eqb nm "" || isTrue (disabled commandObj) then None
      else
        match aliases commandObj with
        | Some l =>
            match normaliseAliases l with
            | Ok als => Some (normalised commandObj nm als)
            | Throw _ => None
            end
        | None => Some (normalised commandObj nm [])
        end
  end.

Definition acceptedTask (taskObj : Task) : option Task :=
  if isTrue (t_disabled taskObj) then None else Some taskObj.

(** [s] contains a letter that [toLowerCase] changes. *)
Definition hasUpper (s : string) : bool :=
  existsb isUpper (list_ascii_of_string s).

(** *** Definitions that fail validation

    What the loop of [registerCommandsFolder] rejects in a definition:
    a name that is not a string; and, in a definition that is not skipped
    (empty name, or marked disabled), an alias that is not a string, or a
    name or alias that is among the strings [seen] so far. *)
Definition isNonString (p : Prim) : bool :=
  match asString p with
  | Some _ => false
  | None => true
  end.

Definition hasNonStringAlias (commandObj : RawCommand) : bool :=
  match aliases commandObj with
  | Some l => existsb isNonString l
  | None => false
  end.

Definition aliasStrings (commandObj : RawCommand) : list string :=
  match aliases commandObj with
  | Some l => map (fun s => toLowerCase (trim s)) (omap asString l)
  | None => []
  end.

Definition failsValidation (seen : list string) (commandObj : RawCommand) : bool :=
  match asString (command commandObj) with
  | None => true
  | Some s =>
      negb (String.eqb (toLowerCase (trim s)) "" || isTrue (disabled commandObj)) &&
      (hasNonStringAlias commandObj ||
       existsb (includes seen) (toLowerCase (trim s) :: aliasStrings commandObj))
  end.

(** What the loop of [registerTasksFolder] rejects: a task that is not
    marked disabled and whose name is among the names [seen] so far. *)
Definition failsTaskValidation (seen : list string) (taskObj : Task) : bool :=
  negb (isTrue (t_disabled taskObj)) && includes seen (name taskObj).

(** The strings the duplicate check of a registration call knows once it has
    passed the definitions [pre] of its batch: the primary names of the
    entries registered before the call, and the names and aliases (for
    tasks, the names) of what [pre] has contributed. *)
Definition seenStrings (st : Store) (pre : list RawCommand) : list string :=
  map command (commands st) ++ flat_map variations (omap acceptedCommand pre).

Definition seenNames (st : Store) (pre : list Task) : list string :=
  map name (tasks st) ++ map name (omap acceptedTask pre).

(** [bad] is the first definition of a batch that fails validation: it
    follows the definitions [pre], each of which passes given the
    definitions before it, and it fails given [pre]. *)
Definition passesBefore {A} (fails : list A -> A -> bool) (pre : list A) : Prop :=
  forall pre1 x post1, pre = pre1 ++ x :: post1 -> fails pre1 x = false.

Definition firstOffender {A} (fails : list A -> A -> bool) (pre : list A) (bad : A)
  : Prop :=
  passesBefore fails pre /\ fails pre bad = true.

(** The store with [cs] appended to the living command list, and with [ts]
    appended to the living task list. *)
Definition withAppendedCommands (cs : list Command) (st : Store) : Store :=
  {| settings := settings st; commands := commands st ++ cs; tasks := tasks st |}.

Definition withAppendedTasks (ts : list Task) (st : Store) : Store :=
  {| settings := settings st; commands := commands st; tasks := tasks st ++ ts |}.

(** ** Sentences of the specification, as worded *)

(** The sentence on [argv] as worded: "args split on runs of whitespace, or
    the empty array when args is the empty string". *)
Definition argvSplitsOnWhitespace : Prop :=
  forall h message st c m ctx,
    In (CommandRun c m ctx) (trace (checkCommand h message st)) ->
    argv ctx = if String.eqb (args ctx) "" then [] else splitRuns isWhitespace (args ctx).

(** The ordering property as worded: on a registry produced by a
    registration, a message that invokes [B] under some valid prefix is
    matched to [B], whatever shorter [A] has a name that [B]'s name starts
    with. *)
Definition longerNameAlwaysWins : Prop :=
  forall h files st0 info ev st message A B p v checks c,
    registerCommandsFolder files st0 = (Ok info, st, ev) ->
    In A (commands st) -> In B (commands st) ->
    command A <> command B ->
    String.prefix (command A) (command B) = true ->
    In p (getGlobalPrefixes (pushedStore message st)) ->
    matchesVariation p (command B) (content message) = true ->
    result (checkCommand h message st) = Ok (CommandMatchMatch v checks c) ->
    c = B.

(** The round trip of the global prefixes as worded, for every list of
    strings. *)
Definition globalPrefixesRoundTrip : Prop :=
  forall (l : list string) (st : Store),
    getGlobalPrefixes (store (setGlobalPrefixes (Arr (map JsStr l)) st)) = dedupFirst l.

(** All-or-nothing registration as worded: a call that raises leaves the
    living list as it was. *)
Definition commandsAllOrNothing : Prop :=
  forall files st e st' ev,
    registerCommandsFolder files st = (Throw e, st', ev) -> commands st' = commands st.

Definition tasksAllOrNothing : Prop :=
  forall files st e st' ev,
    registerTasksFolder files st = (Throw e, st', ev) -> tasks st' = tasks st.

(** ** Sample configurations *)

Definition plainCommand (nm : string) (als : list string) : Command := {|
  disabled := None; command := nm; aliases := als; description := None; usage := None;
  ownerOnly := None; adminOnly := None; modOnly := None; inGuilds := None; inDms := None;
  allowBots := None; botsOnly := None; allowSelf := None
|}.

(** A definition file that exports [{ command, aliases, run }]. *)
Definition commandFile (nm : string) (als : list string) : RawCommand := {|
  disabled := None; command := JsStr nm; aliases := Some (map JsStr als);
  description := None; usage := None;
  ownerOnly := None; adminOnly := None; modOnly := None; inGuilds := None; inDms := None;
  allowBots := None; botsOnly := None; allowSelf := None
|}.

Definition plainTask (nm : string) (lim : bool) : Task := {|
  t_disabled := None; name := nm; limited := lim;
  t_ownerOnly := None; t_adminOnly := None; t_modOnly := None; t_inGuilds := None;
  t_inDms := None; t_allowBots := None; t_botsOnly := None; t_allowSelf := None
|}.

(** A host whose fetch delivers a member without roles, whose tests all
    return [true] and whose run actions all complete. *)
Definition obligingHost : Host := {|
  fetchMember := fun _ _ => Ok noMember;
  runCommand := fun _ _ _ => Ok tt;
  testTask := fun _ _ => Ok true;
  runTask := fun _ _ _ => Ok tt
|}.

Definition directMessage (text : string) : Message := {|
  content := text; authorId := "user"; authorBot := false;
  guild := None; member := None; clientUserId := "bot"
|}.

(** A guild message whose member has not been resolved yet. *)
Definition guildMessage (g text : string) : Message := {|
  content := text; authorId := "user"; authorBot := false;
  guild := Some g; member := None; clientUserId := "bot"
|}.

(** The store after [setGlobalPrefixes(prefixes)], [setGuildPrefixes("g", guildPs)]
    and one successful [registerCommandsFolder] on the initial store. *)
Definition configured (prefixes guildPs : list string) (files : list RawCommand) : Store :=
  store (registerCommandsFolder files
    (store (setGuildPrefixes "g" (Arr (map JsStr guildPs))
      (store (setGlobalPrefixes (Arr (map JsStr prefixes)) initialStore))))).

Definition tab : string := String (ascii_of_N 9) EmptyString.

(** Three tasks in sorted order: limited, not limited, limited. *)
Definition threeTasks : Store :=
  store (registerTasksFolder
           [plainTask "c-limited" true; plainTask "a-limited" true; plainTask "b-open" false]
           initialStore).

(** ** Vocabulary of the further properties *)

(** The list that [setGlobalPrefixes] deduplicates: the argument as a list,
    or the single empty prefix when the argument is nullish or empty. *)
Definition effectivePrefixes (prefixes : Arg) : list Prim :=
  if isNullish prefixes then [JsStr ""]
  else
    match toPrefixList prefixes with
    | [] => [JsStr ""]
    | l => l
    end.

(** No guild is mapped to an empty list of prefixes. *)
Definition guildEntriesNonEmpty (st : Store) : Prop :=
  forall g ps, guildPrefixes (settings st) !! g = Some ps -> ps <> [].

(** A task and a command carry the same authorization flags. *)
Definition sameFlags (t : Task) (c : Command) : Prop :=
  t_ownerOnly t = ownerOnly c /\ t_adminOnly t = adminOnly c /\
  t_modOnly t = modOnly c /\ t_inGuilds t = inGuilds c /\ t_inDms t = inDms c /\
  t_allowBots t = allowBots c /\ t_botsOnly t = botsOnly c /\
  t_allowSelf t = allowSelf c.

(** The prefix settings are well formed: there is at least one global
    prefix, and no guild is mapped to an empty list. *)
Definition prefixesWellFormed (st : Store) : Prop :=
  getGlobalPrefixes st <> [] /\ guildEntriesNonEmpty st.

(** The member holds one of the moderator roles. *)
Definition holdsModRole (roles : ModRoles) (mem : GuildMember) : bool :=
  match roles with
  | AllRoles => true
  | RoleList ids => existsb (fun e => includes ids e) (roleIds mem)
  end.

(** The checks for a descriptor with the given flags on a message that is a
    DM or whose member is at hand; [guildChecks] are the admin and the
    moderator check. *)
Definition checksWith (s : Settings) (guildChecks : bool * bool)
  (ownerOnly' inGuilds' inDms' allowBots' botsOnly' allowSelf' : bool) (message : Message)
  : PermissionChecks :=
  mkChecks (fst guildChecks) (snd guildChecks)
    (botCheck allowBots' botsOnly' message)
    (channelTypeCheck inGuilds' inDms' message)
    (ownerCheck s ownerOnly' message)
    (selfCheck allowSelf' message).

(** A command that may be triggered by the client itself, and a direct
    message written by the client. *)
Definition selfCommand : Command := {|
  disabled := None; command := "echo"; aliases := []; description := None; usage := None;
  ownerOnly := None; adminOnly := None; modOnly := None; inGuilds := None; inDms := None;
  allowBots := None; botsOnly := None; allowSelf := Some true
|}.

Definition ownMessage (text : string) : Message := {|
  content := text; authorId := "bot"; authorBot := true;
  guild := None; member := None; clientUserId := "bot"
|}.

(** A host like [obligingHost] whose run actions all reject. *)
Definition rejectingHost : Host := {|
  fetchMember := fun _ _ => Ok noMember;
  runCommand := fun _ _ _ => Throw (JsError "run failed");
  testTask := fun _ _ => Ok true;
  runTask := fun _ _ _ => Throw (JsError "run failed")
|}.

(** No limited task directly follows a limited task. *)
Fixpoint noAdjacentLimited (l : list Task) : Prop :=
  match l with
  | a :: rest =>
      match rest with
      | b :: _ => (limited a = true -> limited b = false) /\ noAdjacentLimited rest
      | [] => True
      end
  | [] => True
  end.

(** Whether the last task of a list is limited; [false] for the empty list. *)
Fixpoint lastLimited (l : list Task) : bool :=
  match l with
  | [] => false
  | a :: rest =>
      match rest with
      | [] => limited a
      | _ :: _ => lastLimited rest
      end
  end.

(** The task's test returns [true] and its permission checks pass. *)
Definition eligible (h : Host) (s : Settings) (message : Message) (t : Task) : Prop :=
  testResultOf h t message = true /\
  exists checks, checkTaskPermissions s t message = Ok checks /\ passChecks checks = true.

(** The run events of the tasks [ts], in order. *)
Definition taskRuns (message : Message) (ctx : TaskContext) (ts : list Task) : list Event :=
  map (fun t => TaskRun t message ctx) ts.

(** The order of the task registry: ascending names. *)
Definition nameOrder (a b : Task) : Prop := String.leb (name a) (name b) = true.

(** A name as normalisation leaves it: not empty, no whitespace at either
    end, and left as it is by [toLowerCase]. *)
Definition normalName (nm : string) : Prop :=
  boundaryTest nm = false /\ endsClean isWhitespace nm = true /\ toLowerCase nm = nm.

(** [s] is ASCII text: every code unit of it is below 128. *)
Definition asciiText (s : string) : bool :=
  forallb (fun c => (N_of_ascii c <? 128)%N) (list_ascii_of_string s).

(** The commands of equal name length [n], in the order of the list. *)
Definition ofNameLength (n : nat) (l : list Command) : list Command :=
  filter (fun c : Command => String.length (command c) = n) l.

(** A registered command whose primary name is in normal form and whose
    aliases are empty or in normal form. *)
Definition normalCommand (c : Command) : Prop :=
  normalName (command c) /\
  Forall (fun a => a = "" \/ normalName a) (aliases c).

(** * Properties *)

(** ** The command matcher, step by step *)

Lemma pushedStore_commands message st : commands (pushedStore message st) = commands st.
Proof.
  unfold pushedStore. destruct (guild message) as [g|]; [|reflexivity].
  destruct (guildPrefixes (settings st) !! g); reflexivity.
Qed.

Lemma pushedStore_getModRoles message st :
  getModRoles (settings (pushedStore message st)) = getModRoles (settings st).
Proof.
  unfold pushedStore. destruct (guild message) as [g|]; [|reflexivity].
  destruct (guildPrefixes (settings st) !! g); reflexivity.
Qed.

Lemma checkCommand_unfold h message st :
  checkCommand h message st =
  match findPrefix (content message) (commands st)
          (globalPrefixes (settings (pushedStore message st))) with
  | Some (prefix, commandObj, v) =>
      runMatched h message prefix commandObj v (pushedStore message st)
  | None => (Ok CommandMatchNoMatch, pushedStore message st, [])
  end.
Proof.
  unfold checkCommand, pushedStore, bind, gets, modify, ret.
  destruct (guild message) as [g|]; simpl.
  - destruct (guildPrefixes (settings st) !! g) as [ps|]; simpl.
    + destruct (findPrefix _ _ _) as [[[p c] v]|]; [|reflexivity].
      destruct (runMatched h message p c v _) as [[r s] ev]; reflexivity.
    + destruct (findPrefix _ _ _) as [[[p c] v]|]; [|reflexivity].
      destruct (runMatched h message p c v _) as [[r s] ev]; reflexivity.
  - destruct (findPrefix _ _ _) as [[[p c] v]|]; [|reflexivity].
    destruct (runMatched h message p c v _) as [[r s] ev]; reflexivity.
Qed.

(** Every way the matched branch can go: the member is at hand, fetched, or
    the fetch rejects; the permission evaluation completes or raises; the
    checks pass or not; the run action completes or rejects. *)
Ltac matched_branch_cases h message :=
  unfold runMatched, resolveMember, bind, gets, liftRes, emit, ret;
  let g := fresh "g" in
  destruct (guild message) as [g|], (member message) as [?|]; simpl;
  try destruct (fetchMember h g (authorId message)); simpl;
  try (destruct (checkCommandPermissions _ _ _) as [?checks|]; simpl;
       [match goal with
        | c : PermissionChecks |- _ => destruct (passChecks c)
        end; simpl;
        try destruct (runCommand h _ _ _) as [[]|]; simpl|]).

Lemma runMatched_store h message prefix commandObj v st :
  store (runMatched h message prefix commandObj v st) = st.
Proof. unfold store. matched_branch_cases h message; reflexivity. Qed.

(** When the member is at hand or the fetch delivers it, and the permission
    evaluation completes, the trace and the result of the matched branch are
    determined by the checks and by the outcome of the [run] action. *)
Lemma runMatched_resolved h message prefix commandObj v st fetched checks :
  (needsFetch message = true ->
   forall g, guild message = Some g -> fetchMember h g (authorId message) = Ok fetched) ->
  checkCommandPermissions (settings st) commandObj (resolvedMessage message fetched)
    = Ok checks ->
  let message' := resolvedMessage message fetched in
  trace (runMatched h message prefix commandObj v st)
    = fetchEvents message ++ runEvents checks prefix v commandObj message' /\
  result (runMatched h message prefix commandObj v st)
    = if passChecks checks
      then match runCommand h commandObj message'
                   (commandContext prefix v commandObj message') with
           | Ok _ => Ok (CommandMatchMatch v checks commandObj)
           | Throw e => Throw e
           end
      else Ok (CommandMatchMatch v checks commandObj).
Proof.
  intros Hfetch Hchecks message'. subst message'.
  unfold runMatched, resolveMember, resolvedMessage, needsFetch, fetchEvents, runEvents,
    bind, gets, liftRes, emit, ret, trace, result in *.
  destruct (guild message) as [g|] eqn:Hg, (member message) as [m|] eqn:Hm; simpl in *;
    try rewrite (Hfetch eq_refl g eq_refl); simpl;
    rewrite Hchecks; simpl;
    destruct (passChecks checks); simpl;
    try destruct (runCommand h _ _ _) as [[]|]; simpl; auto.
Qed.

(** ** The permission evaluator completes and reports a conjunction *)

Lemma adminCheck_total flag message :
  (guild message <> None -> member message <> None) ->
  exists b, adminCheck flag message = Ok b.
Proof.
  intros Hm. unfold adminCheck, derefMember.
  destruct (negb flag); [eauto|].
  destruct (guild message); [|eauto].
  destruct (member message); [simpl; eauto|].
  exfalso. apply Hm; congruence.
Qed.

Lemma modCheck_total flag roles message :
  (guild message <> None -> member message <> None) ->
  exists b, modCheck flag roles message = Ok b.
Proof.
  intros Hm. unfold modCheck, derefMember.
  destruct (negb flag); [eauto|].
  destruct (guild message); [|eauto].
  destruct (member message); [simpl; eauto|].
  exfalso. apply Hm; congruence.
Qed.

Lemma checkCommandPermissions_total s commandObj message :
  (forall g, guild message = Some g -> exists r, getModRoles s g = Ok r) ->
  (guild message <> None -> member message <> None) ->
  exists checks, checkCommandPermissions s commandObj message = Ok checks.
Proof.
  intros Hroles Hm. unfold checkCommandPermissions, modRolesFor.
  assert (exists r, match guild message with
                    | Some g => getModRoles s g
                    | None => Ok (RoleList [])
                    end = Ok r) as [r ->].
  { destruct (guild message) as [g|]; eauto. }
  cbn [bindRes].
  destruct (adminCheck_total (fc_adminOnly (defaultCommandValues commandObj)) message Hm)
    as [a ->].
  cbn [bindRes].
  destruct (modCheck_total (fc_modOnly (defaultCommandValues commandObj)) r message Hm)
    as [b ->].
  cbn [bindRes]. eauto.
Qed.

Lemma checkCommandPermissions_conjunction s commandObj message checks :
  checkCommandPermissions s commandObj message = Ok checks ->
  passChecks checks = conjunctionOfSix checks.
Proof.
  unfold checkCommandPermissions. intros H.
  destruct (modRolesFor s message); simpl in H; [|discriminate].
  destruct (adminCheck _ message); simpl in H; [|discriminate].
  destruct (modCheck _ _ message); simpl in H; [|discriminate].
  injection H as <-. reflexivity.
Qed.

Lemma checkTaskPermissions_conjunction s taskObj message checks :
  checkTaskPermissions s taskObj message = Ok checks ->
  passChecks checks = conjunctionOfSix checks.
Proof.
  unfold checkTaskPermissions. intros H.
  destruct (modRolesFor s message); simpl in H; [|discriminate].
  destruct (guild message), (member message); try discriminate;
    (destruct (adminCheck _ message); simpl in H; [|discriminate];
     destruct (modCheck _ _ message); simpl in H; [|discriminate];
     injection H as <-; reflexivity).
Qed.

Lemma resolvedMessage_member message fetched :
  guild (resolvedMessage message fetched) <> None ->
  member (resolvedMessage message fetched) <> None.
Proof.
  unfold resolvedMessage.
  destruct (guild message) eqn:Hg; destruct (member message) eqn:Hm; simpl; congruence.
Qed.

Lemma resolvedMessage_guild message fetched :
  guild (resolvedMessage message fetched) = guild message.
Proof.
  unfold resolvedMessage.
  destruct (guild message) eqn:Hg; destruct (member message); simpl; congruence.
Qed.

Lemma resolvedMessage_content message fetched :
  content (resolvedMessage message fetched) = content message.
Proof.
  unfold resolvedMessage. destruct (guild message), (member message); reflexivity.
Qed.

(** Under a host whose member fetch and moderator-role lookup complete for
    this message, the matched branch reaches the permission checks. *)
Lemma matched_branch_reaches_checks h message st commandObj :
  (forall g, guild message = Some g -> member message = None ->
             exists m, fetchMember h g (authorId message) = Ok m) ->
  (forall g, guild message = Some g -> exists r, getModRoles (settings st) g = Ok r) ->
  exists fetched checks,
    (needsFetch message = true ->
     forall g, guild message = Some g -> fetchMember h g (authorId message) = Ok fetched) /\
    checkCommandPermissions (settings (pushedStore message st)) commandObj
      (resolvedMessage message fetched) = Ok checks.
Proof.
  intros Hfetch Hroles.
  assert (exists fetched,
             needsFetch message = true ->
             forall g, guild message = Some g ->
                       fetchMember h g (authorId message) = Ok fetched) as [fetched Hf].
  { unfold needsFetch.
    destruct (guild message) as [g|] eqn:Hg; [|exists noMember; discriminate].
    destruct (member message) eqn:Hm; [exists noMember; discriminate|].
    destruct (Hfetch g eq_refl eq_refl) as [m Hmf].
    exists m. intros _ g' [= <-]. exact Hmf. }
  destruct (checkCommandPermissions_total (settings (pushedStore message st)) commandObj
              (resolvedMessage message fetched)) as [checks Hc].
  - intros g Hg. rewrite resolvedMessage_guild in Hg.
    rewrite pushedStore_getModRoles. eauto.
  - apply resolvedMessage_member.
  - eauto.
Qed.

(** C3.  On a message for which the search finds a prefix and variation,
    [checkCommand] invokes the command's run action exactly when the computed
    [passChecks] is true, [passChecks] being the conjunction of the six
    checks evaluated on the message with its member resolved; only that
    command is run; and whenever the run action, if invoked, completes, the
    call returns a match carrying the matched variation, the checks record
    and the command.  When the search finds nothing the call returns the bare
    no-match result and runs nothing.  The host's member fetch and
    moderator-role lookup are assumed to complete for the message. *)
Theorem checkCommand_runs_iff_checks_pass (h : Host) (message : Message) (st : Store) :
  (forall g, guild message = Some g -> member message = None ->
             exists m, fetchMember h g (authorId message) = Ok m) ->
  (forall g, guild message = Some g -> exists r, getModRoles (settings st) g = Ok r) ->
  match findPrefix (content message) (commands st)
          (getGlobalPrefixes (pushedStore message st)) with
  | None =>
      checkCommand h message st = (Ok CommandMatchNoMatch, pushedStore message st, [])
  | Some (prefix, commandObj, v) =>
      exists fetched checks,
        (needsFetch message = true ->
         forall g, guild message = Some g ->
                   fetchMember h g (authorId message) = Ok fetched) /\
        checkCommandPermissions (settings (pushedStore message st)) commandObj
          (resolvedMessage message fetched) = Ok checks /\
        passChecks checks = conjunctionOfSix checks /\
        ((exists m ctx, In (CommandRun commandObj m ctx) (trace (checkCommand h message st)))
         <-> passChecks checks = true) /\
        (forall c m ctx, In (CommandRun c m ctx) (trace (checkCommand h message st)) ->
                         c = commandObj /\ m = resolvedMessage message fetched) /\
        ((passChecks checks = true ->
          runCommand h commandObj (resolvedMessage message fetched)
            (commandContext prefix v commandObj (resolvedMessage message fetched))
            = Ok tt) ->
         result (checkCommand h message st) = Ok (CommandMatchMatch v checks commandObj))
  end.
Proof.
  intros Hfetch Hroles. rewrite checkCommand_unfold. unfold getGlobalPrefixes.
  destruct (findPrefix _ _ _) as [[[prefix commandObj] v]|]; [|reflexivity].
  destruct (matched_branch_reaches_checks h message st commandObj Hfetch Hroles)
    as (fetched & checks & Hf & Hc).
  destruct (runMatched_resolved h message prefix commandObj v _ fetched checks Hf Hc)
    as [Htrace Hresult].
  exists fetched, checks.
  split; [exact Hf|].
  split; [exact Hc|]. split; [exact (checkCommandPermissions_conjunction _ _ _ _ Hc)|].
  rewrite Htrace, Hresult. unfold runEvents, fetchEvents.
  repeat split.
  - intros (m & ctx & Hin). apply in_app_or in Hin as [Hin|Hin].
    + destruct (guild message), (member message); simpl in Hin;
        intuition discriminate.
    + destruct (passChecks checks); [reflexivity|destruct Hin].
  - intros ->. eexists _, _. apply in_or_app. right. left. reflexivity.
  - apply in_app_or in H as [Hin|Hin].
    + destruct (guild message), (member message); simpl in Hin; intuition discriminate.
    + destruct (passChecks checks); simpl in Hin; [|destruct Hin].
      destruct Hin as [[= <- _ _]|[]]. reflexivity.
  - apply in_app_or in H as [Hin|Hin].
    + destruct (guild message), (member message); simpl in Hin; intuition discriminate.
    + destruct (passChecks checks); simpl in Hin; [|destruct Hin].
      destruct Hin as [[= _ <- _]|[]]. reflexivity.
  - intros Hrun. destruct (passChecks checks); [|reflexivity].
    rewrite (Hrun eq_refl). reflexivity.
Qed.

Lemma checkCommand_runs_iff_checks_pass_witness :
  exists checks,
    passChecks checks = true /\
    result (checkCommand obligingHost (guildMessage "g" "!Ping now")
              (configured ["!"] [] [commandFile "ping" []]))
    = Ok (CommandMatchMatch "ping" checks (plainCommand "ping" [])).
Proof.
  pose (message := guildMessage "g" "!Ping now").
  pose (st := configured ["!"] [] [commandFile "ping" []]).
  assert (forall g, guild message = Some g -> member message = None ->
                    exists m, fetchMember obligingHost g (authorId message) = Ok m) as Hfetch.
  { intros g _ _. exists noMember. reflexivity. }
  assert (forall g, guild message = Some g ->
                    exists r, getModRoles (settings st) g = Ok r) as Hroles.
  { intros g _. exists (RoleList []). reflexivity. }
  pose proof (checkCommand_runs_iff_checks_pass obligingHost message st Hfetch Hroles) as H.
  assert (findPrefix (content message) (commands st)
            (getGlobalPrefixes (pushedStore message st))
          = Some ("!", plainCommand "ping" [], "ping")) as Hfind by (vm_compute; reflexivity).
  rewrite Hfind in H.
  destruct H as (fetched & checks & _ & _ & _ & Hiff & _ & Hres).
  exists checks. split.
  - apply Hiff. eexists _, _. vm_compute. right. left. reflexivity.
  - apply Hres. intros _. reflexivity.
Defined.

Lemma checkCommand_store h message st :
  store (checkCommand h message st) = pushedStore message st.
Proof.
  rewrite checkCommand_unfold.
  destruct (findPrefix _ _ _) as [[[p c] v]|]; [|reflexivity].
  apply runMatched_store.
Qed.

Lemma pushedStore_guildPrefixes message st :
  guildPrefixes (settings (pushedStore message st)) = guildPrefixes (settings st).
Proof.
  unfold pushedStore. destruct (guild message) as [g|]; [|reflexivity].
  destruct (guildPrefixes (settings st) !! g); reflexivity.
Qed.

Lemma pushedStore_global message st g ps :
  guild message = Some g ->
  guildPrefixes (settings st) !! g = Some ps ->
  getGlobalPrefixes (pushedStore message st) = getGlobalPrefixes st ++ ps.
Proof.
  intros Hg Hps. unfold pushedStore. rewrite Hg, Hps. reflexivity.
Qed.

(** C8.  A call of [checkCommand] on a message of a guild that has prefixes
    of its own leaves the global prefixes extended by that guild's prefixes,
    whatever the outcome of the call; the guild's entry is untouched, so a
    second call on a message of the same guild extends them once more. *)
Theorem checkCommand_grows_global_prefixes (h : Host) (message : Message) (st : Store)
  (g : string) (ps : list string) :
  guild message = Some g ->
  guildPrefixes (settings st) !! g = Some ps ->
  getGlobalPrefixes (store (checkCommand h message st)) = getGlobalPrefixes st ++ ps /\
  getGuildPrefixes g (store (checkCommand h message st)) = ps /\
  forall h' message',
    guild message' = Some g ->
    getGlobalPrefixes (store (checkCommand h' message' (store (checkCommand h message st))))
    = getGlobalPrefixes st ++ ps ++ ps.
Proof.
  intros Hg Hps. rewrite checkCommand_store.
  split; [exact (pushedStore_global message st g ps Hg Hps)|].
  split.
  - unfold getGuildPrefixes. rewrite pushedStore_guildPrefixes, Hps. reflexivity.
  - intros h' message' Hg'. rewrite checkCommand_store.
    rewrite (pushedStore_global message' _ g ps Hg').
    + rewrite (pushedStore_global message st g ps Hg Hps). symmetry. apply app_assoc.
    + rewrite pushedStore_guildPrefixes. exact Hps.
Qed.

Lemma checkCommand_grows_global_prefixes_witness :
  getGlobalPrefixes
    (store (checkCommand obligingHost (guildMessage "g" "hello")
              (configured ["!"] ["?"; "$"] [])))
  = ["!"; "?"; "$"].
Proof.
  apply (checkCommand_grows_global_prefixes obligingHost (guildMessage "g" "hello")
           (configured ["!"] ["?"; "$"] []) "g" ["?"; "$"]);
    vm_compute; reflexivity.
Defined.

(** ** Appending strings *)

Lemma append_cons (c : ascii) (r s : string) : String c r +:+ s = String c (r +:+ s).
Proof. reflexivity. Qed.

Lemma append_nil (s : string) : "" +:+ s = s.
Proof. reflexivity. Qed.

Lemma append_empty_r (s : string) : s +:+ "" = s.
Proof.
  induction s as [|c r IH]; [reflexivity|]. rewrite append_cons. f_equal. exact IH.
Qed.

Lemma append_cons_assoc (cur : string) (c : ascii) (r : string) :
  (cur +:+ String c "") +:+ r = cur +:+ String c r.
Proof.
  induction cur as [|d cur IH]; [reflexivity|].
  rewrite !append_cons. f_equal. exact IH.
Qed.

Lemma append_snoc_nonempty (cur : string) (c : ascii) : cur +:+ String c "" <> "".
Proof. destruct cur; discriminate. Qed.

(** ** Splitting on runs of a separator *)

Section SplitRuns.
Variable sep : ascii -> bool.

Lemma sepFree_snoc (cur : string) (c : ascii) :
  sepFree sep cur -> sep c = false -> sepFree sep (cur +:+ String c "").
Proof.
  unfold sepFree. induction cur as [|d cur IH]; intros Hcur Hc.
  - rewrite append_nil. simpl. constructor; [exact Hc|constructor].
  - rewrite append_cons. simpl in *. inversion Hcur; subst. constructor; auto.
Qed.

Lemma endsClean_tail (c : ascii) (r : string) :
  endsClean sep (String c r) = true -> endsClean sep r = true.
Proof. destruct r; simpl; auto. Qed.

Lemma endsClean_sep_head (c : ascii) (r : string) :
  endsClean sep (String c r) = true -> sep c = true -> r <> "".
Proof. destruct r; simpl; intros H Hc; [|discriminate]. rewrite Hc in H. discriminate. Qed.

(** What the splitter yields when it is reading a piece, and what it
    yields when it is inside a run of separators. *)
Lemma splitAux_spec (s : string) :
  (forall cur, cur <> "" -> sepFree sep cur -> endsClean sep s = true ->
               SplitsOnRuns sep (cur +:+ s) (splitAux sep false cur s)) /\
  (s <> "" -> endsClean sep s = true ->
   exists lead rest,
     Forall (fun c => sep c = true) (list_ascii_of_string lead) /\
     s = lead +:+ rest /\
     SplitsOnRuns sep rest (splitAux sep true "" s)).
Proof.
  induction s as [|c r [IHa IHb]].
  - split.
    + intros cur Hne Hfree _. exists []. simpl.
      repeat split; auto. symmetry. apply append_empty_r.
    + intros Hne. congruence.
  - split.
    + intros cur Hne Hfree Hclean. simpl. destruct (sep c) eqn:Hc.
      * destruct (IHb (endsClean_sep_head c r Hclean Hc) (endsClean_tail c r Hclean))
          as (lead & rest & Hlead & Hr & gaps & Hlen & Hgaps & Hpieces & Hweave).
        exists (String c lead :: gaps). simpl. repeat split.
        -- by rewrite Hlen.
        -- constructor; [|exact Hgaps]. split; [discriminate|].
           simpl. constructor; auto.
        -- constructor; auto.
        -- destruct (splitAux sep true "" r) as [|p ps] eqn:Hsplit; [discriminate|].
           rewrite Hweave, Hr. rewrite append_cons. reflexivity.
      * destruct (IHa (cur +:+ String c "") (append_snoc_nonempty cur c)
                    (sepFree_snoc cur c Hfree Hc) (endsClean_tail c r Hclean))
          as (gaps & Hlen & Hgaps & Hpieces & Hweave).
        exists gaps. repeat split; auto.
        rewrite Hweave. apply append_cons_assoc.
    + intros _ Hclean. simpl. destruct (sep c) eqn:Hc.
      * destruct (IHb (endsClean_sep_head c r Hclean Hc) (endsClean_tail c r Hclean))
          as (lead & rest & Hlead & Hr & Hsplit).
        exists (String c lead), rest. repeat split; auto.
        -- simpl. constructor; auto.
        -- rewrite append_cons. by rewrite <- Hr.
      * exists "", (String c r). repeat split; [constructor|].
        apply (IHa (String c "")).
        -- discriminate.
        -- unfold sepFree. simpl. constructor; auto.
        -- exact (endsClean_tail c r Hclean).
Qed.

(** A non-empty string that neither starts nor ends with a separator is
    split into its maximal separator-free blocks. *)
Lemma splitRuns_spec (c : ascii) (r : string) :
  sep c = false -> endsClean sep (String c r) = true ->
  SplitsOnRuns sep (String c r) (splitRuns sep (String c r)).
Proof.
  intros Hc Hclean. unfold splitRuns. simpl. rewrite Hc.
  apply (proj1 (splitAux_spec r) (String c "")).
  - discriminate.
  - unfold sepFree. simpl. constructor; auto.
  - exact (endsClean_tail c r Hclean).
Qed.

End SplitRuns.

(** ** [trim] leaves no whitespace at either end *)

Lemma isSpace_isWhitespace c : isSpace c = true -> isWhitespace c = true.
Proof.
  unfold isSpace, isWhitespace. intros H. simpl. rewrite H.
  by rewrite !orb_true_r.
Qed.

Lemma trimStart_head s :
  trimStart s = "" \/ exists c r, trimStart s = String c r /\ isWhitespace c = false.
Proof.
  induction s as [|c r IH]; simpl; [by left|].
  destruct (isWhitespace c) eqn:Hc; [exact IH|]. right. eauto.
Qed.

Lemma trimEnd_clean s : endsClean isWhitespace (trimEnd s) = true.
Proof.
  induction s as [|c r IH]; simpl; [reflexivity|].
  destruct (trimEnd r) as [|d r'] eqn:Hr.
  - destruct (isWhitespace c) eqn:Hc; simpl; [reflexivity|]. by rewrite Hc.
  - simpl. simpl in IH. exact IH.
Qed.

Lemma trimEnd_head c r :
  isWhitespace c = false -> exists r', trimEnd (String c r) = String c r'.
Proof.
  intros Hc. simpl. destruct (trimEnd r); [rewrite Hc|]; eauto.
Qed.

Lemma endsClean_weaken (sep sep' : ascii -> bool) s :
  (forall c, sep' c = true -> sep c = true) ->
  endsClean sep s = true -> endsClean sep' s = true.
Proof.
  intros Hsub. induction s as [|c r IH]; simpl; [reflexivity|].
  destruct r; [|exact IH].
  destruct (sep' c) eqn:Hc; [|reflexivity].
  rewrite (Hsub c Hc). auto.
Qed.

Lemma trim_split_spaces s :
  trim s <> "" -> SplitsOnRuns isSpace (trim s) (splitRuns isSpace (trim s)).
Proof.
  unfold trim. intros Hne.
  destruct (trimStart_head s) as [He|(c & r & Hs & Hc)].
  - rewrite He in Hne. simpl in Hne. congruence.
  - pose proof (trimEnd_clean (trimStart s)) as Hclean.
    rewrite Hs in *. destruct (trimEnd_head c r Hc) as [r' Hr'].
    rewrite Hr' in *. apply splitRuns_spec.
    + destruct (isSpace c) eqn:Hsp; [|reflexivity].
      rewrite (isSpace_isWhitespace c Hsp) in Hc. discriminate.
    + exact (endsClean_weaken isWhitespace isSpace _ isSpace_isWhitespace Hclean).
Qed.

(** ** The invocation context *)

Lemma runMatched_run_event h message prefix commandObj v st c m ctx :
  In (CommandRun c m ctx) (trace (runMatched h message prefix commandObj v st)) ->
  c = commandObj /\ ctx = commandContext prefix v commandObj m /\
  content m = content message.
Proof.
  unfold trace. matched_branch_cases h message; intros Hin;
    repeat match goal with
           | H : _ \/ _ |- _ => destruct H
           | H : False |- _ => destruct H
           | H : MemberFetched _ _ = CommandRun _ _ _ |- _ => discriminate H
           | H : CommandRun _ _ _ = CommandRun _ _ _ |- _ =>
               injection H as <- <- <-; auto
           end.
Qed.

(** C6 (as amended).  The context that [checkCommand] hands to a run action
    belongs to the prefix and variation that the search found: [argsOffset] is
    the variation's length plus the prefix's length, [args] is the message
    text from that offset, trimmed, and [argv] is empty for empty [args] and
    otherwise [args] split on runs of the space character. *)
Theorem run_context_fields (h : Host) (message : Message) (st : Store)
  (c : Command) (m : Message) (ctx : CommandContext) :
  In (CommandRun c m ctx) (trace (checkCommand h message st)) ->
  findPrefix (content message) (commands st) (getGlobalPrefixes (pushedStore message st))
    = Some (cc_prefix ctx, c, cc_command ctx) /\
  cc_commandObj ctx = c /\
  argsOffset ctx = String.length (cc_command ctx) + String.length (cc_prefix ctx) /\
  args ctx = trim (slice (argsOffset ctx) (content message)) /\
  (args ctx = "" -> argv ctx = []) /\
  (args ctx <> "" ->
   argv ctx = splitRuns isSpace (args ctx) /\ SplitsOnRuns isSpace (args ctx) (argv ctx)).
Proof.
  rewrite checkCommand_unfold. unfold getGlobalPrefixes.
  destruct (findPrefix _ _ _) as [[[prefix commandObj] v]|]; [|intros []].
  intros Hin. apply runMatched_run_event in Hin as (-> & -> & Hcontent).
  unfold commandContext. simpl. rewrite Hcontent.
  repeat split.
  - intros ->. reflexivity.
  - destruct (String.eqb_spec (trim (slice (String.length v + String.length prefix)
                                       (content message))) ""); congruence.
  - destruct (String.eqb_spec (trim (slice (String.length v + String.length prefix)
                                       (content message))) ""); [congruence|].
    apply trim_split_spaces. assumption.
Qed.

Lemma run_context_fields_witness :
  let message := directMessage "!Say  hello   world " in
  let ctx := commandContext "!" "say" (plainCommand "say" []) message in
  In (CommandRun (plainCommand "say" []) message ctx)
     (trace (checkCommand obligingHost message (configured ["!"] [] [commandFile "say" []])))
  /\ argsOffset ctx = 4
  /\ SplitsOnRuns isSpace "hello   world" ["hello"; "world"].
Proof.
  intros message ctx.
  assert (In (CommandRun (plainCommand "say" []) message ctx)
             (trace (checkCommand obligingHost message
                       (configured ["!"] [] [commandFile "say" []])))) as Hin.
  { vm_compute. left. reflexivity. }
  split; [exact Hin|].
  destruct (run_context_fields _ _ _ _ _ _ Hin) as (_ & _ & Hoffset & _ & _ & Hsplit).
  split; [exact Hoffset|].
  refine (proj2 (Hsplit _)). vm_compute. discriminate.
Defined.

(** The sentence on [argv] fails as worded: a TAB inside [args] does not
    separate two arguments. *)
Lemma argv_keeps_other_whitespace : ~ argvSplitsOnWhitespace.
Proof.
  intros Hclaim.
  specialize (Hclaim obligingHost (directMessage ("!say a" +:+ tab +:+ "b"))
                (configured ["!"] [] [commandFile "say" []]) (plainCommand "say" [])
                (directMessage ("!say a" +:+ tab +:+ "b"))
                (commandContext "!" "say" (plainCommand "say" [])
                   (directMessage ("!say a" +:+ tab +:+ "b")))
                ltac:(vm_compute; left; reflexivity)).
  vm_compute in Hclaim. discriminate Hclaim.
Qed.

(** ** The search order of the matcher *)

Lemma findVariation_some prefix text vs v :
  findVariation prefix text vs = Some v ->
  In v vs /\ matchesVariation prefix v text = true.
Proof.
  induction vs as [|w rest IH]; simpl; [discriminate|].
  destruct (matchesVariation prefix w text) eqn:Hw.
  - intros [= <-]. auto.
  - intros H. destruct (IH H). auto.
Qed.

Lemma findVariation_none prefix text vs :
  (forall v, In v vs -> matchesVariation prefix v text = false) ->
  findVariation prefix text vs = None.
Proof.
  induction vs as [|w rest IH]; simpl; intros H; [reflexivity|].
  rewrite (H w (or_introl eq_refl)). apply IH. auto.
Qed.

Lemma findCommand_some prefix text cmds c v :
  findCommand prefix text cmds = Some (c, v) ->
  In c cmds /\ In v (variations c) /\ matchesVariation prefix v text = true.
Proof.
  induction cmds as [|d rest IH]; cbn [findCommand]; [discriminate|].
  destruct (findVariation prefix text (variations d)) as [w|] eqn:Hd.
  - intros [= <- <-]. apply findVariation_some in Hd as [Hin Hm].
    split; [left; reflexivity|]. split; assumption.
  - intros H. destruct (IH H) as (? & ? & ?).
    split; [right; assumption|]. split; assumption.
Qed.

Lemma findCommand_none prefix text cmds :
  (forall c v, In c cmds -> In v (variations c) ->
               matchesVariation prefix v text = false) ->
  findCommand prefix text cmds = None.
Proof.
  induction cmds as [|d rest IH]; cbn [findCommand]; intros H; [reflexivity|].
  rewrite findVariation_none; [|intros v Hv; apply (H d v); [left; reflexivity|exact Hv]].
  apply IH. intros c v Hc Hv. apply (H c v); [right; exact Hc|exact Hv].
Qed.

Lemma findCommand_app prefix text l1 l2 :
  findCommand prefix text (l1 ++ l2) =
  match findCommand prefix text l1 with
  | Some r => Some r
  | None => findCommand prefix text l2
  end.
Proof.
  induction l1 as [|d rest IH]; [reflexivity|].
  rewrite <- app_comm_cons. cbn [findCommand].
  destruct (findVariation prefix text (variations d)); [reflexivity|exact IH].
Qed.

Lemma findCommand_primary prefix text B rest :
  matchesVariation prefix (command B) text = true ->
  findCommand prefix text (B :: rest) = Some (B, command B).
Proof.
  intros H. cbn [findCommand variations findVariation]. rewrite H. reflexivity.
Qed.

Lemma findPrefix_skip text cmds ps1 ps2 :
  (forall p c v, In p ps1 -> In c cmds -> In v (variations c) ->
                 matchesVariation p v text = false) ->
  findPrefix text cmds (ps1 ++ ps2) = findPrefix text cmds ps2.
Proof.
  induction ps1 as [|q rest IH]; intros H; [reflexivity|].
  rewrite <- app_comm_cons. cbn [findPrefix].
  rewrite findCommand_none; [|intros c v Hc Hv; apply (H q c v); [left; reflexivity|auto..]].
  apply IH. intros p c v Hp. apply (H p c v). right. exact Hp.
Qed.

Lemma prefix_length a b :
  String.prefix a b = true -> String.length a <= String.length b.
Proof.
  revert a. induction b as [|d b IH]; intros [|c a]; simpl; try lia; try discriminate.
  destruct (ascii_dec c d); [|discriminate]. intros H. apply IH in H. lia.
Qed.

Lemma prefix_same_length a b :
  String.prefix a b = true -> String.length a = String.length b -> a = b.
Proof.
  revert a. induction b as [|d b IH]; intros [|c a]; simpl; try discriminate; auto.
  destruct (ascii_dec c d) as [->|]; [|discriminate].
  intros H [= Hl]. f_equal. auto.
Qed.

Lemma proper_prefix_shorter a b :
  a <> b -> String.prefix a b = true -> String.length a < String.length b.
Proof.
  intros Hne Hp. pose proof (prefix_length a b Hp).
  destruct (Nat.eq_dec (String.length a) (String.length b)) as [Heq|]; [|lia].
  destruct Hne. exact (prefix_same_length a b Hp Heq).
Qed.

(** ** The registry is kept in descending order of name length *)

Lemma sortInsert_In {A} (cmp : A -> A -> Z) x l z :
  In z (sortInsert cmp x l) -> z = x \/ In z l.
Proof.
  induction l as [|y rest IH]; simpl.
  - intros [<-|[]]. auto.
  - destruct (0 <? cmp x y)%Z; simpl.
    + intros [<-|H]; auto. destruct (IH H); auto.
    + intros [<-|[<-|H]]; auto.
Qed.

Lemma sortInsert_sorted x l :
  StronglySorted longerFirst l -> StronglySorted longerFirst (sortInsert compareCommands x l).
Proof.
  induction 1 as [|y rest Hsorted IH Hy]; simpl.
  - constructor; constructor.
  - unfold compareCommands at 1.
    destruct (Nat.ltb_spec (String.length (command y)) (String.length (command x))).
    + simpl. constructor; [constructor; assumption|].
      constructor; [unfold longerFirst; lia|].
      eapply Forall_impl; [exact Hy|]. unfold longerFirst. simpl. intros; lia.
    + destruct (Nat.ltb_spec (String.length (command x)) (String.length (command y))); simpl.
      * constructor; [exact IH|].
        apply List.Forall_forall. intros z Hz. apply sortInsert_In in Hz as [->|Hz].
        -- unfold longerFirst. lia.
        -- rewrite List.Forall_forall in Hy. auto.
      * constructor; [constructor; assumption|].
        constructor; [unfold longerFirst; lia|].
        eapply Forall_impl; [exact Hy|]. unfold longerFirst. simpl. intros; lia.
Qed.

Lemma sortCommands_sorted l : StronglySorted longerFirst (jsSort compareCommands l).
Proof.
  induction l as [|x rest IH]; simpl; [constructor|]. by apply sortInsert_sorted.
Qed.

Lemma registerCommandsFolder_sorted files st0 info st ev :
  registerCommandsFolder files st0 = (Ok info, st, ev) ->
  StronglySorted longerFirst (commands st).
Proof.
  unfold registerCommandsFolder, bind, gets, modify, ret. simpl.
  destruct (registerCommandFiles files _ 0 0 st0) as [[[info'|e] st1] ev1]; simpl;
    [|discriminate].
  intros [= _ <- _]. apply sortCommands_sorted.
Qed.

Lemma sorted_before l1 B l2 :
  StronglySorted longerFirst (l1 ++ B :: l2) ->
  forall c, In c l1 -> String.length (command B) <= String.length (command c).
Proof.
  induction l1 as [|d rest IH]; simpl; intros Hs c Hc; [destruct Hc|].
  inversion Hs as [|? ? Hrest Hd]; subst.
  destruct Hc as [<-|Hc]; [|auto].
  rewrite List.Forall_forall in Hd. apply (Hd B). apply in_or_app. right. left. reflexivity.
Qed.

Lemma runMatched_result h message prefix commandObj v st r :
  result (runMatched h message prefix commandObj v st) = Ok r ->
  exists checks, r = CommandMatchMatch v checks commandObj.
Proof.
  unfold result. matched_branch_cases h message;
    intros [= <-] || discriminate 1; eauto.
Qed.

Lemma checkCommand_result_match h message st v checks c :
  result (checkCommand h message st) = Ok (CommandMatchMatch v checks c) ->
  exists p,
    findPrefix (content message) (commands st) (getGlobalPrefixes (pushedStore message st))
    = Some (p, c, v).
Proof.
  rewrite checkCommand_unfold. unfold getGlobalPrefixes.
  destruct (findPrefix _ _ _) as [[[p c'] v']|]; [|discriminate].
  intros H. apply runMatched_result in H as [checks' [= -> _ ->]]. eauto.
Qed.

(** C5 (as amended).  On a registry produced by a registration, let [A]'s
    primary name be a proper beginning of [B]'s, and let the message invoke
    [B] under the valid prefix [p], no valid prefix tried before [p] matching
    any command.  Then the search stops under [p] at [B] or at a command
    sorted before [B], whose name is at least as long as [B]'s; a match
    returned by [checkCommand] is therefore never [A], and it is [B] with its
    primary name when no command sorted before [B] matches under [p].  The
    registry is in descending order of name length after the registration. *)
Theorem longer_name_wins_within_prefix (h : Host) (files : list RawCommand)
  (st0 st : Store) (info : RegistrationInfo) (ev : list Event) (message : Message)
  (A B : Command) (ps1 ps2 : list string) (p : string) :
  registerCommandsFolder files st0 = (Ok info, st, ev) ->
  In A (commands st) -> In B (commands st) ->
  command A <> command B ->
  String.prefix (command A) (command B) = true ->
  getGlobalPrefixes (pushedStore message st) = ps1 ++ p :: ps2 ->
  matchesVariation p (command B) (content message) = true ->
  (forall p' c v, In p' ps1 -> In c (commands st) -> In v (variations c) ->
                  matchesVariation p' v (content message) = false) ->
  StronglySorted longerFirst (commands st) /\
  (exists c v,
      findPrefix (content message) (commands st) (ps1 ++ p :: ps2) = Some (p, c, v) /\
      String.length (command B) <= String.length (command c)) /\
  (forall v checks c,
      result (checkCommand h message st) = Ok (CommandMatchMatch v checks c) ->
      c <> A /\
      ((forall l1 l2 c' v',
           commands st = l1 ++ B :: l2 -> In c' l1 -> In v' (variations c') ->
           matchesVariation p v' (content message) = false) ->
       c = B /\ v = command B)).
Proof.
  intros Hreg HA HB Hne Hpre Hvalid HmB Hearlier.
  pose proof (registerCommandsFolder_sorted _ _ _ _ _ Hreg) as Hsorted.
  pose proof (proper_prefix_shorter _ _ Hne Hpre) as Hshort.
  destruct (in_split B (commands st) HB) as (l1 & l2 & Hsplit).
  assert (findPrefix (content message) (commands st) (ps1 ++ p :: ps2) =
          match findCommand p (content message) l1 with
          | Some (c, v) => Some (p, c, v)
          | None => Some (p, B, command B)
          end) as Hfind.
  { rewrite (findPrefix_skip _ _ ps1 (p :: ps2) Hearlier). cbn [findPrefix].
    rewrite Hsplit at 1. rewrite findCommand_app.
    destruct (findCommand p (content message) l1) as [[c v]|]; [reflexivity|].
    rewrite (findCommand_primary _ _ _ _ HmB). reflexivity. }
  assert (forall c v, findPrefix (content message) (commands st) (ps1 ++ p :: ps2)
                      = Some (p, c, v) ->
                      String.length (command B) <= String.length (command c)) as Hlong.
  { intros c v. rewrite Hfind.
    destruct (findCommand p (content message) l1) as [[c' v']|] eqn:Hl1.
    - intros [= <- <-]. apply findCommand_some in Hl1 as (Hin & _).
      rewrite Hsplit in Hsorted. exact (sorted_before l1 B l2 Hsorted c' Hin).
    - intros [= <- <-]. lia. }
  split; [exact Hsorted|]. split.
  - rewrite Hfind.
    destruct (findCommand p (content message) l1) as [[c v]|] eqn:Hl1.
    + exists c, v. split; [reflexivity|]. apply (Hlong c v).
      rewrite Hfind. rewrite ?Hl1. reflexivity.
    + exists B, (command B). split; [reflexivity|lia].
  - intros v checks c Hres.
    apply checkCommand_result_match in Hres as [p' Hres]. rewrite Hvalid in Hres.
    assert (p' = p) as ->.
    { rewrite Hfind in Hres.
      destruct (findCommand p (content message) l1) as [[c' v']|]; congruence. }
    split.
    + intros ->. pose proof (Hlong A v Hres). lia.
    + intros Hnone. rewrite Hfind in Hres.
      rewrite findCommand_none in Hres; [injection Hres as <- <-; auto|].
      intros c' v' Hc' Hv'. exact (Hnone l1 l2 c' v' Hsplit Hc' Hv').
Qed.

Lemma longer_name_wins_within_prefix_witness :
  exists c v,
    findPrefix (content (directMessage "!Ban List 42"))
      (commands (configured ["?"; "!"] []
                   [commandFile "ban" ["b"]; commandFile "ban list" []]))
      (["?"] ++ "!" :: [])
    = Some ("!", c, v) /\
    String.length (command (plainCommand "ban list" [])) <= String.length (command c).
Proof.
  refine (proj1 (proj2
    (longer_name_wins_within_prefix obligingHost
       [commandFile "ban" ["b"]; commandFile "ban list" []]
       (store (setGuildPrefixes "g" (Arr (map JsStr []))
          (store (setGlobalPrefixes (Arr (map JsStr ["?"; "!"])) initialStore))))
       (configured ["?"; "!"] [] [commandFile "ban" ["b"]; commandFile "ban list" []])
       {| registered := 2; ri_disabled := 0 |} []
       (directMessage "!Ban List 42")
       (plainCommand "ban" ["b"]) (plainCommand "ban list" []) ["?"] [] "!"
       _ _ _ _ _ _ _ _))).
  - vm_compute. reflexivity.
  - vm_compute. right. left. reflexivity.
  - vm_compute. left. reflexivity.
  - vm_compute. discriminate.
  - vm_compute. reflexivity.
  - vm_compute. reflexivity.
  - vm_compute. reflexivity.
  - intros p' c' v' Hp' Hc' Hv'.
    vm_compute in Hp', Hc', Hv'.
    destruct Hp' as [<-|[]].
    destruct Hc' as [<-|[<-|[]]];
      (repeat match goal with
              | H : _ \/ _ |- _ => destruct H as [<-|H]
              | H : False |- _ => destruct H
              end);
      vm_compute; reflexivity.
Defined.

(** The ordering property fails as worded: with the default global prefix
    [""] and the guild prefix ["bot "], the guild message ["bot bot help"]
    invokes ["bot help"] under the second prefix and is matched to ["bot"]
    under the first. *)
Lemma shorter_name_wins_under_earlier_prefix : ~ longerNameAlwaysWins.
Proof.
  intros Hclaim.
  assert (plainCommand "bot" [] = plainCommand "bot help" []) as Habs.
  { refine (Hclaim obligingHost
              [commandFile "bot" []; commandFile "bot help" []]
              (store (setGuildPrefixes "g" (Arr (map JsStr ["bot "]))
                 (store (setGlobalPrefixes (Arr (map JsStr [""])) initialStore))))
              {| registered := 2; ri_disabled := 0 |} []
              (configured [""] ["bot "] [commandFile "bot" []; commandFile "bot help" []])
              (guildMessage "g" "bot bot help")
              (plainCommand "bot" []) (plainCommand "bot help" []) "bot " "bot"
              (mkChecks true true true true true true) (plainCommand "bot" [])
              _ _ _ _ _ _ _ _).
    - vm_compute. reflexivity.
    - vm_compute. right. left. reflexivity.
    - vm_compute. left. reflexivity.
    - vm_compute. discriminate.
    - vm_compute. reflexivity.
    - vm_compute. right. left. reflexivity.
    - vm_compute. reflexivity.
    - vm_compute. reflexivity. }
  discriminate Habs.
Qed.

(** ** The task selector *)

Lemma selectTasks_silent h message excludeLimited ts limitedSelected ctx st :
  store (selectTasks h message excludeLimited ts limitedSelected ctx st) = st /\
  trace (selectTasks h message excludeLimited ts limitedSelected ctx st) = [].
Proof.
  revert limitedSelected ctx.
  induction ts as [|taskObj rest IH]; intros limitedSelected ctx; [split; reflexivity|].
  cbn [selectTasks]. unfold bind, gets, liftRes, ret, store, trace in *.
  destruct (testResultOf h taskObj message); simpl.
  - destruct (checkTaskPermissions (settings st) taskObj message) as [checks|e]; simpl;
      [|split; reflexivity].
    destruct (passChecks checks &&
              (negb (limited taskObj) || negb limitedSelected && negb excludeLimited)).
    + specialize (IH (limited taskObj)
                    {| matching := matching ctx ++ [taskObj];
                       notMatching := notMatching ctx |}).
      destruct (selectTasks _ _ _ rest _ _ st) as [[r s] ev]. simpl in *.
      destruct IH as [-> ->]. split; reflexivity.
    + specialize (IH limitedSelected
                    {| matching := matching ctx;
                       notMatching := notMatching ctx ++ [taskObj] |}).
      destruct (selectTasks _ _ _ rest _ _ st) as [[r s] ev]. simpl in *.
      destruct IH as [-> ->]. split; reflexivity.
  - specialize (IH limitedSelected
                  {| matching := matching ctx;
                     notMatching := notMatching ctx ++ [taskObj] |}).
    destruct (selectTasks _ _ _ rest _ _ st) as [[r s] ev]. simpl in *.
    destruct IH as [-> ->]. split; reflexivity.
Qed.

Lemma bind_ext {A B} (m : M A) (k k' : A -> M B) st :
  (forall a st', k a st' = k' a st') -> bind m k st = bind m k' st.
Proof.
  intros Hk. unfold bind. destruct (m st) as [[[a|e] s1] ev1]; [|reflexivity].
  rewrite Hk. reflexivity.
Qed.

(** The selector reads the host only through the caught test results. *)
Lemma selectTasks_ext h h' message excludeLimited ts limitedSelected ctx st :
  (forall t, testResultOf h t message = testResultOf h' t message) ->
  selectTasks h message excludeLimited ts limitedSelected ctx st =
  selectTasks h' message excludeLimited ts limitedSelected ctx st.
Proof.
  intros Hsame. revert limitedSelected ctx st.
  induction ts as [|taskObj rest IH]; intros limitedSelected ctx st; [reflexivity|].
  cbn [selectTasks]. rewrite <- (Hsame taskObj).
  apply bind_ext. intros [] st'; apply IH.
Qed.

Lemma runTasks_ext h h' message ctx ts st :
  runTask h' = runTask h ->
  runTasks h message ctx ts st = runTasks h' message ctx ts st.
Proof.
  intros Hrun. revert st. induction ts as [|taskObj rest IH]; intros st; [reflexivity|].
  cbn [runTasks]. unfold bind, emit, liftRes. rewrite Hrun.
  destruct (runTask h taskObj message ctx) as [[]|e]; [|reflexivity].
  rewrite IH. reflexivity.
Qed.

Lemma runTasks_silent h message ctx ts st :
  store (runTasks h message ctx ts st) = st.
Proof.
  induction ts as [|taskObj rest IH]; [reflexivity|].
  cbn [runTasks]. unfold bind, emit, liftRes, store in *.
  destruct (runTask h taskObj message ctx) as [[]|e]; [|reflexivity].
  destruct (runTasks h message ctx rest st) as [[r s] ev]. exact IH.
Qed.

Lemma runTasks_events h message ctx ts st ev :
  In ev (trace (runTasks h message ctx ts st)) ->
  exists t, In t ts /\ ev = TaskRun t message ctx.
Proof.
  induction ts as [|taskObj rest IH]; [intros []|].
  cbn [runTasks]. unfold bind, emit, liftRes, trace in *.
  destruct (runTask h taskObj message ctx) as [[]|e]; simpl.
  - destruct (runTasks h message ctx rest st) as [[r s] ev']. simpl in *.
    intros [<-|Hin].
    + exists taskObj. split; [left|]; reflexivity.
    + destruct (IH Hin) as (t & Ht & ->). exists t. split; [right; exact Ht|reflexivity].
  - intros [<-|[]]. exists taskObj. split; [left|]; reflexivity.
Qed.

(** Where the selector puts a task. *)
Lemma selectTasks_partition h message excludeLimited ts limitedSelected ctx st ctx' st' ev :
  selectTasks h message excludeLimited ts limitedSelected ctx st = (Ok ctx', st', ev) ->
  (forall t, In t (matching ctx') ->
             In t (matching ctx) \/ (In t ts /\ testResultOf h t message = true)) /\
  (forall t, In t (notMatching ctx) -> In t (notMatching ctx')) /\
  (forall t, In t ts -> testResultOf h t message = false -> In t (notMatching ctx')).
Proof.
  revert limitedSelected ctx.
  induction ts as [|taskObj rest IH]; intros limitedSelected ctx.
  - cbn [selectTasks]. unfold ret. intros [= <- _ _].
    split; [auto|]. split; [auto|]. intros t [].
  - cbn [selectTasks]. unfold bind, gets, liftRes, ret.
    destruct (testResultOf h taskObj message) eqn:Htest; simpl.
    + destruct (checkTaskPermissions (settings st) taskObj message) as [checks|e]; simpl;
        [|discriminate].
      destruct (passChecks checks &&
                (negb (limited taskObj) || negb limitedSelected && negb excludeLimited)).
      * destruct (selectTasks _ _ _ rest _ _ st) as [[r s] ev'] eqn:Hrest.
        intros [= -> -> <-]. destruct (IH _ _ Hrest) as (Hm & Hn & Hf). simpl in *.
        split; [|split].
        -- intros t Ht. destruct (Hm t Ht) as [Hin|[Hin Htrue]]; [|auto].
           apply in_app_or in Hin as [Hin|[<-|[]]]; auto.
        -- auto.
        -- intros t [<-|Hin] Hfalse; [congruence|auto].
      * destruct (selectTasks _ _ _ rest _ _ st) as [[r s] ev'] eqn:Hrest.
        intros [= -> -> <-]. destruct (IH _ _ Hrest) as (Hm & Hn & Hf). simpl in *.
        split; [|split].
        -- intros t Ht. destruct (Hm t Ht) as [Hin|[Hin Htrue]]; auto.
        -- intros t Ht. apply Hn. apply in_or_app. auto.
        -- intros t [<-|Hin] Hfalse; [congruence|auto].
    + destruct (selectTasks _ _ _ rest _ _ st) as [[r s] ev'] eqn:Hrest.
      intros [= -> -> <-]. destruct (IH _ _ Hrest) as (Hm & Hn & Hf). simpl in *.
      split; [|split].
      * intros t Ht. destruct (Hm t Ht) as [Hin|[Hin Htrue]]; auto.
      * intros t Ht. apply Hn. apply in_or_app. auto.
      * intros t [<-|Hin] Hfalse; [|auto].
        apply Hn. apply in_or_app. right. left. reflexivity.
Qed.

Lemma checkTasks_unfold h message excludeLimited st :
  checkTasks h message excludeLimited st =
  match selectTasks h message excludeLimited (tasks st) false
          {| matching := []; notMatching := [] |} st with
  | (Ok ctx, _, _) =>
      match runTasks h message ctx (matching ctx) st with
      | (Ok _, _, ev) =>
          (Ok {| tm_match := negb (Nat.eqb (length (matching ctx)) 0);
                 tm_matching := matching ctx;
                 tm_notMatching := notMatching ctx |}, st, ev)
      | (Throw e, _, ev) => (Throw e, st, ev)
      end
  | (Throw e, _, _) => (Throw e, st, [])
  end.
Proof.
  unfold checkTasks, bind, gets, ret. simpl.
  pose proof (selectTasks_silent h message excludeLimited (tasks st) false
                {| matching := []; notMatching := [] |} st) as [Hs Ht].
  destruct (selectTasks _ _ _ _ _ _ st) as [[[ctx|e] s1] ev1]; unfold store, trace in *;
    simpl in *; subst; [|reflexivity].
  pose proof (runTasks_silent h message ctx (matching ctx) st) as Hr.
  destruct (runTasks _ _ _ _ st) as [[[[]|e] s2] ev2]; unfold store in Hr; simpl in *; subst.
  - rewrite app_nil_r. reflexivity.
  - reflexivity.
Qed.

(** C7.  A test predicate that raises has the effect of one that returns
    [false]: [checkTasks] behaves, in its result, its store and its trace, as
    under a host that differs only in letting that test return [false]; the
    task is reported in [notMatching] and not in [matching], and its run
    action is not invoked. *)
Theorem raising_test_counts_as_false (h h' : Host) (message : Message)
  (excludeLimited : bool) (st : Store) (t : Task) (e : Error) :
  testTask h t message = Throw e ->
  testTask h' t message = Ok false ->
  (forall t', t' <> t -> testTask h' t' message = testTask h t' message) ->
  runTask h' = runTask h ->
  checkTasks h message excludeLimited st = checkTasks h' message excludeLimited st /\
  (forall r, result (checkTasks h message excludeLimited st) = Ok r ->
             (In t (tasks st) -> In t (tm_notMatching r)) /\ ~ In t (tm_matching r)) /\
  (forall m ctx, ~ In (TaskRun t m ctx) (trace (checkTasks h message excludeLimited st))).
Proof.
  intros Hraise Hfalse Hothers Hrun.
  assert (forall t', testResultOf h t' message = testResultOf h' t' message) as Hsame.
  { intros t'. unfold testResultOf. destruct (decide (t' = t)) as [->|Hne].
    - rewrite Hraise, Hfalse. reflexivity.
    - rewrite (Hothers t' Hne). reflexivity. }
  assert (testResultOf h t message = false) as Ht.
  { unfold testResultOf. rewrite Hraise. reflexivity. }
  split; [|split].
  - rewrite !checkTasks_unfold.
    rewrite (selectTasks_ext h h' message excludeLimited _ _ _ st Hsame).
    destruct (selectTasks h' _ _ _ _ _ st) as [[[ctx|e'] s1] ev1]; [|reflexivity].
    rewrite (runTasks_ext h h' message ctx _ st Hrun). reflexivity.
  - intros r. rewrite checkTasks_unfold.
    destruct (selectTasks h _ _ _ _ _ st) as [[[ctx|e'] s1] ev1] eqn:Hsel; [|discriminate].
    destruct (selectTasks_partition _ _ _ _ _ _ _ _ _ _ Hsel) as (Hm & _ & Hn).
    destruct (runTasks h message ctx (matching ctx) st) as [[[[]|e'] s2] ev2];
      [|discriminate].
    intros [= <-]. simpl. split.
    + intros Hin. exact (Hn t Hin Ht).
    + intros Hin. destruct (Hm t Hin) as [[]|[_ Htrue]]. congruence.
  - intros m ctx'. rewrite checkTasks_unfold.
    destruct (selectTasks h _ _ _ _ _ st) as [[[ctx|e'] s1] ev1] eqn:Hsel; [|intros []].
    destruct (selectTasks_partition _ _ _ _ _ _ _ _ _ _ Hsel) as (Hm & _ & _).
    assert (In (TaskRun t m ctx') (trace (runTasks h message ctx (matching ctx) st)) ->
            False) as Hno.
    { intros Hin. apply runTasks_events in Hin as (t' & Hin & [= <- _ _]).
      destruct (Hm t Hin) as [[]|[_ Htrue]]. congruence. }
    unfold trace in Hno.
    destruct (runTasks h message ctx (matching ctx) st) as [[[[]|e'] s2] ev2]; exact Hno.
Qed.

Lemma raising_test_counts_as_false_witness :
  let raising :=
    {| fetchMember := fetchMember obligingHost;
       runCommand := runCommand obligingHost;
       testTask := fun t _ => if bool_decide (t = plainTask "b-open" false)
                              then Throw (JsError "boom") else Ok true;
       runTask := runTask obligingHost |} in
  let refusing :=
    {| fetchMember := fetchMember obligingHost;
       runCommand := runCommand obligingHost;
       testTask := fun t _ => if bool_decide (t = plainTask "b-open" false)
                              then Ok false else Ok true;
       runTask := runTask obligingHost |} in
  checkTasks raising (directMessage "hi") false threeTasks
  = checkTasks refusing (directMessage "hi") false threeTasks.
Proof.
  intros raising refusing.
  refine (proj1 (raising_test_counts_as_false raising refusing (directMessage "hi") false
                   threeTasks (plainTask "b-open" false) (JsError "boom") _ _ _ _)).
  - vm_compute. reflexivity.
  - vm_compute. reflexivity.
  - intros t' Hne. simpl. rewrite !(bool_decide_eq_false_2 _ Hne). reflexivity.
  - reflexivity.
Defined.

(** ** Tasks on a guild message whose member is unresolved *)

Lemma checkTaskPermissions_unresolved s taskObj message g :
  guild message = Some g -> member message = None ->
  checkTaskPermissions s taskObj message = Throw (unresolvedError s g).
Proof.
  intros Hg Hm. unfold checkTaskPermissions, modRolesFor, unresolvedError.
  rewrite Hg, Hm. destruct (getModRoles s g); reflexivity.
Qed.

Lemma selectTasks_unresolved h message excludeLimited ts limitedSelected ctx st g t :
  guild message = Some g -> member message = None ->
  In t ts -> testResultOf h t message = true ->
  selectTasks h message excludeLimited ts limitedSelected ctx st
  = (Throw (unresolvedError (settings st) g), st, []).
Proof.
  intros Hg Hm. revert limitedSelected ctx.
  induction ts as [|taskObj rest IH]; intros limitedSelected ctx Hin Htrue; [destruct Hin|].
  cbn [selectTasks]. unfold bind, gets, liftRes, ret.
  destruct (testResultOf h taskObj message) eqn:Htest; simpl.
  - rewrite (checkTaskPermissions_unresolved _ taskObj message g Hg Hm). reflexivity.
  - destruct Hin as [<-|Hin]; [congruence|].
    rewrite (IH _ _ Hin Htrue). reflexivity.
Qed.

Lemma runMatched_fetches_first h message prefix commandObj v st g :
  guild message = Some g -> member message = None ->
  exists rest,
    trace (runMatched h message prefix commandObj v st)
    = MemberFetched g (authorId message) :: rest.
Proof.
  intros Hg Hm. unfold runMatched, resolveMember. rewrite Hg, Hm.
  unfold bind, gets, liftRes, emit, ret, trace. simpl.
  destruct (fetchMember h g (authorId message)); simpl; [|eauto].
  destruct (checkCommandPermissions _ _ _) as [checks|]; simpl; [|eauto].
  destruct (passChecks checks); simpl; [|eauto].
  destruct (runCommand h _ _ _) as [[]|]; simpl; eauto.
Qed.

Lemma checkTasks_never_fetches h message excludeLimited st g a :
  ~ In (MemberFetched g a) (trace (checkTasks h message excludeLimited st)).
Proof.
  rewrite checkTasks_unfold.
  destruct (selectTasks h _ _ _ _ _ st) as [[[ctx|e'] s1] ev1]; [|intros []].
  assert (In (MemberFetched g a) (trace (runTasks h message ctx (matching ctx) st)) ->
          False) as Hno.
  { intros Hin. apply runTasks_events in Hin as (t' & _ & [=]). }
  unfold trace in Hno.
  destruct (runTasks h message ctx (matching ctx) st) as [[[[]|e'] s2] ev2]; exact Hno.
Qed.

(** C10.  [checkTasks] never fetches the member.  On a guild message whose
    member is unresolved, as soon as one registered task's test returns
    [true] the call rejects without invoking any run action and without
    touching the store; the error is "Should be unreachable" whenever the
    moderator-role lookup completes.  [checkCommand], on the same message,
    starts the matched branch by fetching the member. *)
Theorem checkTasks_rejects_on_unresolved_member (h : Host) (message : Message)
  (excludeLimited : bool) (st : Store) (g : string) (t : Task) :
  guild message = Some g -> member message = None ->
  In t (tasks st) -> testTask h t message = Ok true ->
  checkTasks h message excludeLimited st
    = (Throw (unresolvedError (settings st) g), st, []) /\
  (forall r, getModRoles (settings st) g = Ok r ->
             unresolvedError (settings st) g = JsError "Should be unreachable") /\
  (forall h0 m0 x0 st0 g0 a0,
      ~ In (MemberFetched g0 a0) (trace (checkTasks h0 m0 x0 st0))) /\
  (forall prefix commandObj v,
      findPrefix (content message) (commands st)
        (getGlobalPrefixes (pushedStore message st)) = Some (prefix, commandObj, v) ->
      exists rest,
        trace (checkCommand h message st) = MemberFetched g (authorId message) :: rest).
Proof.
  intros Hg Hm Hin Htest.
  assert (testResultOf h t message = true) as Htrue.
  { unfold testResultOf. rewrite Htest. reflexivity. }
  split; [|split; [|split]].
  - rewrite checkTasks_unfold.
    rewrite (selectTasks_unresolved h message excludeLimited _ _ _ st g t Hg Hm Hin Htrue).
    reflexivity.
  - intros r Hr. unfold unresolvedError. rewrite Hr. reflexivity.
  - intros h0 m0 x0 st0 g0 a0. apply checkTasks_never_fetches.
  - intros prefix commandObj v Hfind. rewrite checkCommand_unfold.
    unfold getGlobalPrefixes in Hfind. rewrite Hfind.
    apply runMatched_fetches_first; assumption.
Qed.

Lemma checkTasks_rejects_on_unresolved_member_witness :
  checkTasks obligingHost (guildMessage "g" "hi") false threeTasks
  = (Throw (JsError "Should be unreachable"), threeTasks, []).
Proof.
  refine (proj1 (checkTasks_rejects_on_unresolved_member obligingHost
                   (guildMessage "g" "hi") false threeTasks "g"
                   (plainTask "b-open" false) _ _ _ _)).
  - reflexivity.
  - reflexivity.
  - vm_compute. right. left. reflexivity.
  - reflexivity.
Defined.

(** ** Limited tasks *)

(** With [excludeLimited], every task selected is one that is not limited. *)
Lemma selectTasks_excludes_limited h message ts limitedSelected ctx st ctx' st' ev :
  selectTasks h message true ts limitedSelected ctx st = (Ok ctx', st', ev) ->
  forall t, In t (matching ctx') -> In t (matching ctx) \/ limited t = false.
Proof.
  revert limitedSelected ctx.
  induction ts as [|taskObj rest IH]; intros limitedSelected ctx.
  - cbn [selectTasks]. unfold ret. intros [= <- _ _]. auto.
  - cbn [selectTasks]. unfold bind, gets, liftRes, ret.
    destruct (testResultOf h taskObj message); simpl.
    + destruct (checkTaskPermissions (settings st) taskObj message) as [checks|e]; simpl;
        [|discriminate].
      rewrite andb_false_r, orb_false_r.
      destruct (passChecks checks && negb (limited taskObj)) eqn:Hsel.
      * destruct (selectTasks _ _ _ rest _ _ st) as [[r s] ev'] eqn:Hrest.
        intros [= -> -> <-] t Ht. destruct (IH _ _ Hrest t Ht) as [Hin|Hl]; [|auto].
        simpl in Hin. apply in_app_or in Hin as [Hin|[<-|[]]]; [auto|].
        right. apply andb_prop in Hsel as [_ Hl]. by apply negb_true_iff.
      * destruct (selectTasks _ _ _ rest _ _ st) as [[r s] ev'] eqn:Hrest.
        intros [= -> -> <-] t Ht. exact (IH _ _ Hrest t Ht).
    + destruct (selectTasks _ _ _ rest _ _ st) as [[r s] ev'] eqn:Hrest.
      intros [= -> -> <-] t Ht. exact (IH _ _ Hrest t Ht).
Qed.

Lemma checkTasks_excludes_limited h message st r :
  result (checkTasks h message true st) = Ok r ->
  forall t, In t (tm_matching r) -> limited t = false.
Proof.
  rewrite checkTasks_unfold.
  destruct (selectTasks h _ _ _ _ _ st) as [[[ctx|e'] s1] ev1] eqn:Hsel; [|discriminate].
  destruct (runTasks h message ctx (matching ctx) st) as [[[[]|e'] s2] ev2];
    [|discriminate].
  intros [= <-] t Ht. simpl in Ht.
  destruct (selectTasks_excludes_limited _ _ _ _ _ _ _ _ _ Hsel t Ht) as [[]|]. assumption.
Qed.

(** C1, evaluated.  The registered tasks, in sorted order, are a limited
    task, a task that is not limited and a second limited task; every test
    and permission check passes and [excludeLimited] is false.  Selecting
    the middle task resets [limitedSelected], so both limited tasks are
    placed in [matching] and both are run. *)
Theorem second_limited_task_selected :
  let first := plainTask "a-limited" true in
  let middle := plainTask "b-open" false in
  let second := plainTask "c-limited" true in
  let ctx := {| matching := [first; middle; second]; notMatching := [] |} in
  tasks threeTasks = [first; middle; second] /\
  checkTasks obligingHost (directMessage "hi") false threeTasks
  = (Ok {| tm_match := true;
           tm_matching := [first; middle; second];
           tm_notMatching := [] |},
     threeTasks,
     [TaskRun first (directMessage "hi") ctx;
      TaskRun middle (directMessage "hi") ctx;
      TaskRun second (directMessage "hi") ctx]).
Proof. split; vm_compute; reflexivity. Qed.

(** ** Prefix setters and getters *)

Lemma newSet_acc (l acc : list Prim) :
  fold_left setAdd l acc = acc ++ filter (fun y => y ∉ acc) (dedupFirst l).
Proof.
  revert acc. induction l as [|x rest IH]; intros acc.
  - simpl. by rewrite filter_nil, app_nil_r.
  - cbn [fold_left dedupFirst]. rewrite IH. unfold setAdd.
    destruct (bool_decide_reflect (x ∈ acc)) as [Hin|Hnin].
    + rewrite filter_cons_False by (intros Hx; exact (Hx Hin)).
      f_equal. rewrite list_filter_filter_l; [reflexivity|].
      intros y Hy ->. exact (Hy Hin).
    + rewrite filter_cons_True by exact Hnin.
      rewrite <- app_assoc. cbn [app]. do 2 f_equal.
      rewrite list_filter_filter. apply list_filter_iff.
      intros y. rewrite elem_of_app, list_elem_of_singleton. tauto.
Qed.

Lemma newSet_dedupFirst (l : list Prim) : newSet l = dedupFirst l.
Proof.
  unfold newSet. rewrite newSet_acc. cbn [app].
  induction (dedupFirst l) as [|x rest IH]; [reflexivity|].
  rewrite filter_cons_True by apply not_elem_of_nil. by rewrite IH.
Qed.

Lemma filter_ne_JsStr (x : string) (l : list string) :
  filter (fun y => y <> JsStr x) (map JsStr l) = map JsStr (filter (fun y => y <> x) l).
Proof.
  induction l as [|y rest IH]; [reflexivity|]. cbn [map].
  destruct (decide (y = x)) as [->|Hne].
  - rewrite !filter_cons_False by (intros H; apply H; reflexivity). exact IH.
  - rewrite !filter_cons_True by congruence. cbn [map]. by rewrite IH.
Qed.

Lemma dedupFirst_JsStr (l : list string) :
  dedupFirst (map JsStr l) = map JsStr (dedupFirst l).
Proof.
  induction l as [|x rest IH]; [reflexivity|].
  cbn [map dedupFirst]. rewrite IH, filter_ne_JsStr. reflexivity.
Qed.

Lemma requireStrings_JsStr (l : list string) : requireStrings (map JsStr l) = Ok l.
Proof.
  induction l as [|x rest IH]; [reflexivity|].
  cbn [map requireStrings asString]. rewrite IH. reflexivity.
Qed.

Lemma dedupFirst_elem {A} `{EqDecision A} (l : list A) (x : A) :
  x ∈ dedupFirst l <-> x ∈ l.
Proof.
  induction l as [|y rest IH]; [reflexivity|].
  cbn [dedupFirst]. rewrite !elem_of_cons, list_elem_of_filter, IH.
  destruct (decide (x = y)); tauto.
Qed.

Lemma dedupFirst_NoDup {A} `{EqDecision A} (l : list A) : NoDup (dedupFirst l).
Proof.
  induction l as [|y rest IH]; [constructor|].
  cbn [dedupFirst]. apply NoDup_cons. split.
  - rewrite list_elem_of_filter. intros [Hne _]. by apply Hne.
  - by apply NoDup_filter.
Qed.

Lemma setGlobalPrefixes_strings (l : list string) (st : Store) :
  l <> [] ->
  setGlobalPrefixes (Arr (map JsStr l)) st
  = (Ok (dedupFirst l), withGlobalPrefixes (dedupFirst l) st, []).
Proof.
  intros Hne. unfold setGlobalPrefixes. cbn [isNullish toPrefixList].
  destruct l as [|x rest]; [congruence|].
  cbn [map length Nat.eqb].
  change (JsStr x :: map JsStr rest) with (map JsStr (x :: rest)).
  rewrite newSet_dedupFirst, dedupFirst_JsStr.
  unfold bind, liftRes, modify, ret. rewrite requireStrings_JsStr. reflexivity.
Qed.

(** C9 (as amended).  For every non-empty list of strings,
    [setGlobalPrefixes] followed by [getGlobalPrefixes] returns the list with
    duplicates collapsed and the order of first occurrence kept; for the
    empty list it returns the single empty prefix.  For every guild id,
    [setGuildPrefixes] with the empty list followed by [getGuildPrefixes]
    returns the empty list, and the guild has no entry left. *)
Theorem prefix_setters_round_trip (st : Store) (l : list string) (g : string) :
  l <> [] ->
  (result (setGlobalPrefixes (Arr (map JsStr l)) st) = Ok (dedupFirst l) /\
   getGlobalPrefixes (store (setGlobalPrefixes (Arr (map JsStr l)) st)) = dedupFirst l /\
   NoDup (dedupFirst l) /\
   (forall x, In x (dedupFirst l) <-> In x l)) /\
  getGlobalPrefixes (store (setGlobalPrefixes (Arr []) st)) = [""] /\
  (result (setGuildPrefixes g (Arr []) st) = Ok [] /\
   getGuildPrefixes g (store (setGuildPrefixes g (Arr []) st)) = [] /\
   guildPrefixes (settings (store (setGuildPrefixes g (Arr []) st))) !! g = None).
Proof.
  intros Hne. split; [|split].
  - rewrite (setGlobalPrefixes_strings l st Hne).
    split; [reflexivity|]. split; [reflexivity|].
    split; [apply dedupFirst_NoDup|].
    intros x. rewrite <- !list_elem_of_In. apply dedupFirst_elem.
  - reflexivity.
  - unfold setGuildPrefixes, getGuildPrefixes, bind, modify, ret, result, store.
    cbn. rewrite lookup_delete_eq. auto.
Qed.

Lemma prefix_setters_round_trip_witness :
  getGlobalPrefixes
    (store (setGlobalPrefixes (Arr (map JsStr ["!"; "?"; "!"; "$"; "?"])) initialStore))
  = ["!"; "?"; "$"].
Proof.
  refine (proj1 (proj2 (proj1
    (prefix_setters_round_trip initialStore ["!"; "?"; "!"; "$"; "?"] "g" _)))).
  discriminate.
Defined.

(** The round trip fails as worded at the empty list, which is stored as
    the single empty prefix. *)
Lemma empty_prefix_list_is_replaced : ~ globalPrefixesRoundTrip.
Proof.
  intros Hclaim. specialize (Hclaim [] initialStore).
  vm_compute in Hclaim. discriminate Hclaim.
Qed.

(** ** Registration that raises *)

Lemma omap_cons {A B} (f : A -> option B) (x : A) (l : list A) :
  omap f (x :: l) = match f x with
                    | Some y => y :: omap f l
                    | None => omap f l
                    end.
Proof. reflexivity. Qed.

(** A definition that fails validation makes the loop raise there, with
    the store as it is; one that passes is skipped or appended, and the loop
    goes on. *)
Lemma normaliseAliases_spec l :
  normaliseAliases l
  = if existsb isNonString l then Throw (JsError "Command aliases must be strings")
    else Ok (map (fun s => toLowerCase (trim s)) (omap asString l)).
Proof.
  induction l as [|p rest IH]; [reflexivity|].
  cbn [normaliseAliases existsb]. unfold isNonString at 1.
  destruct (asString p) as [s|] eqn:Hp; [|reflexivity].
  rewrite omap_cons, Hp, IH. cbn [orb].
  destruct (existsb isNonString rest); reflexivity.
Qed.

Lemma rejectDuplicates_spec cs nm vs :
  if existsb (includes cs) vs then exists e, rejectDuplicates cs nm vs = Throw e
  else rejectDuplicates cs nm vs = Ok tt.
Proof.
  induction vs as [|v rest IH]; [reflexivity|].
  cbn [rejectDuplicates existsb].
  destruct (includes cs v); cbn [orb]; [eauto|exact IH].
Qed.

Lemma bind_ret {A B} (a : A) (k : A -> M B) st : (let* x := ret a in k x) st = k a st.
Proof. unfold bind, ret. destruct (k a st) as [[r0 s0] ev0]. reflexivity. Qed.

Lemma bind_liftRes_Ok {A B} (a : A) (k : A -> M B) st :
  (let* x := liftRes (Ok a) in k x) st = k a st.
Proof. unfold bind, liftRes. destruct (k a st) as [[r0 s0] ev0]. reflexivity. Qed.

Lemma bind_liftRes_Throw {A B} (e : Error) (k : A -> M B) st :
  (let* x := liftRes (Throw e) in k x) st = (Throw e, st, []).
Proof. reflexivity. Qed.

Lemma bind_modify {B} (f : Store -> Store) (k : unit -> M B) st :
  (let* x := modify f in k x) st = k tt (f st).
Proof. unfold bind, modify. destruct (k tt (f st)) as [[r0 s0] ev0]. reflexivity. Qed.

Lemma registerCommandFiles_step x rest cs d r st :
  if failsValidation cs x then
    exists e, registerCommandFiles (x :: rest) cs d r st = (Throw e, st, [])
  else
    registerCommandFiles (x :: rest) cs d r st
    = match acceptedCommand x with
      | Some c => registerCommandFiles rest (cs ++ variations c) d (S r) (pushCommand c st)
      | None => registerCommandFiles rest cs (S d) r st
      end.
Proof.
  cbn [registerCommandFiles]. unfold failsValidation, acceptedCommand.
  destruct (asString (command x)) as [s|]; [|unfold throw; eauto].
  cbn zeta.
  destruct (String.eqb (toLowerCase (trim s)) "" || isTrue (disabled x));
    cbn [negb andb]; [reflexivity|].
  assert (forall als,
             if existsb (includes cs) (toLowerCase (trim s) :: als) then
               exists e,
                 (let* _ := liftRes (rejectDuplicates cs (toLowerCase (trim s))
                                       (toLowerCase (trim s) :: als)) in
                  let* _ := modify (pushCommand
                                      (normalised x (toLowerCase (trim s)) als)) in
                  registerCommandFiles rest (cs ++ toLowerCase (trim s) :: als) d (S r)) st
                 = (Throw e, st, [])
             else
               (let* _ := liftRes (rejectDuplicates cs (toLowerCase (trim s))
                                     (toLowerCase (trim s) :: als)) in
                let* _ := modify (pushCommand
                                    (normalised x (toLowerCase (trim s)) als)) in
                registerCommandFiles rest (cs ++ toLowerCase (trim s) :: als) d (S r)) st
               = registerCommandFiles rest
                   (cs ++ variations (normalised x (toLowerCase (trim s)) als)) d (S r)
                   (pushCommand (normalised x (toLowerCase (trim s)) als) st)) as Hpush.
  { intros als.
    pose proof (rejectDuplicates_spec cs (toLowerCase (trim s))
                  (toLowerCase (trim s) :: als)) as Hdup.
    destruct (existsb (includes cs) (toLowerCase (trim s) :: als)).
    - destruct Hdup as [e ->]. exists e. apply bind_liftRes_Throw.
    - rewrite Hdup, bind_liftRes_Ok, bind_modify. reflexivity. }
  unfold hasNonStringAlias, aliasStrings.
  destruct (aliases x) as [l|].
  - rewrite normaliseAliases_spec.
    destruct (existsb isNonString l); cbn [orb].
    + eexists. apply bind_liftRes_Throw.
    + rewrite bind_liftRes_Ok. apply Hpush.
  - cbn [orb]. rewrite bind_ret. apply (Hpush []).
Qed.

Lemma registerTaskFiles_step x rest ns d r st :
  if failsTaskValidation ns x then
    exists e, registerTaskFiles (x :: rest) ns d r st = (Throw e, st, [])
  else
    registerTaskFiles (x :: rest) ns d r st
    = match acceptedTask x with
      | Some t => registerTaskFiles rest (ns ++ [name t]) d (S r) (pushTask t st)
      | None => registerTaskFiles rest ns (S d) r st
      end.
Proof.
  cbn [registerTaskFiles]. unfold failsTaskValidation, acceptedTask.
  destruct (isTrue (t_disabled x)); cbn [negb andb]; [reflexivity|].
  destruct (includes ns (name x)); [unfold throw; eauto|].
  unfold bind, modify.
  destruct (registerTaskFiles rest _ _ _ _) as [[r0 s0] ev0]. reflexivity.
Qed.

Lemma passesBefore_nil {A} (fails : list A -> A -> bool) : passesBefore fails [].
Proof. intros [|y pre1] x post1 H; discriminate H. Qed.

Lemma passesBefore_cons {A} (fails : list A -> A -> bool) x pre :
  passesBefore fails (x :: pre) <->
  fails [] x = false /\ passesBefore (fun l => fails (x :: l)) pre.
Proof.
  split.
  - intros H. split; [exact (H [] x pre eq_refl)|].
    intros pre1 y post1 ->. exact (H (x :: pre1) y post1 eq_refl).
  - intros [Hx Hpre] [|z pre1] y post1 [= <- Heq]; [exact Hx|].
    subst pre. exact (Hpre pre1 y post1 eq_refl).
Qed.

Lemma passesBefore_ext {A} (f g : list A -> A -> bool) pre :
  (forall l x, f l x = g l x) -> passesBefore f pre -> passesBefore g pre.
Proof. intros Hfg H pre1 x post1 Heq. rewrite <- Hfg. exact (H pre1 x post1 Heq). Qed.

(** The loop raises at the first definition that fails validation, after
    appending what the definitions before it contribute. *)
Lemma registerCommandFiles_offender pre :
  forall cs d r st bad post,
    firstOffender
      (fun l => failsValidation (cs ++ flat_map variations (omap acceptedCommand l)))
      pre bad ->
    exists e,
      registerCommandFiles (pre ++ bad :: post) cs d r st
      = (Throw e, withAppendedCommands (omap acceptedCommand pre) st, []).
Proof.
  induction pre as [|x pre IH]; intros cs d r st bad post [Hpre Hbad].
  - cbn in Hbad. rewrite app_nil_r in Hbad.
    pose proof (registerCommandFiles_step bad post cs d r st) as Hstep.
    rewrite Hbad in Hstep. destruct Hstep as [e Hstep]. exists e.
    cbn [app]. rewrite Hstep. unfold withAppendedCommands. cbn.
    rewrite app_nil_r. by destruct st.
  - apply passesBefore_cons in Hpre as [Hx Hpre]. cbn in Hx. rewrite app_nil_r in Hx.
    pose proof (registerCommandFiles_step x (pre ++ bad :: post) cs d r st) as Hstep.
    rewrite Hx in Hstep. cbn [app]. rewrite Hstep.
    rewrite omap_cons in Hbad. rewrite omap_cons.
    assert (forall l, omap acceptedCommand (x :: l)
                      = match acceptedCommand x with
                        | Some y => y :: omap acceptedCommand l
                        | None => omap acceptedCommand l
                        end) as Hcons by (intros; apply omap_cons).
    destruct (acceptedCommand x) as [c|].
    + destruct (IH (cs ++ variations c) d (S r) (pushCommand c st) bad post) as [e He].
      { split.
        - eapply passesBefore_ext; [|exact Hpre]. intros l y. cbn beta.
          rewrite Hcons. cbn [flat_map]. by rewrite app_assoc.
        - cbn [flat_map] in Hbad. by rewrite <- app_assoc. }
      exists e. rewrite He. unfold withAppendedCommands, pushCommand. cbn.
      by rewrite <- app_assoc.
    + destruct (IH cs (S d) r st bad post) as [e He].
      { split; [|exact Hbad].
        eapply passesBefore_ext; [|exact Hpre]. intros l y. cbn beta.
        by rewrite Hcons. }
      exists e. exact He.
Qed.

Lemma registerCommandFiles_raises_at files :
  forall cs d r st e st' ev,
    registerCommandFiles files cs d r st = (Throw e, st', ev) ->
    exists pre bad post,
      files = pre ++ bad :: post /\
      firstOffender
        (fun l => failsValidation (cs ++ flat_map variations (omap acceptedCommand l)))
        pre bad /\
      st' = withAppendedCommands (omap acceptedCommand pre) st /\ ev = [].
Proof.
  induction files as [|x rest IH]; intros cs d r st e st' ev;
    [cbn [registerCommandFiles]; discriminate|].
  pose proof (registerCommandFiles_step x rest cs d r st) as Hstep.
  assert (forall l, omap acceptedCommand (x :: l)
                    = match acceptedCommand x with
                      | Some y => y :: omap acceptedCommand l
                      | None => omap acceptedCommand l
                      end) as Hcons by (intros; apply omap_cons).
  destruct (failsValidation cs x) eqn:Hx.
  - destruct Hstep as [e0 ->]. intros [= _ <- <-].
    exists [], x, rest. split; [reflexivity|]. split.
    + split; [apply passesBefore_nil|]. cbn. by rewrite app_nil_r.
    + split; [|reflexivity]. unfold withAppendedCommands. cbn.
      rewrite app_nil_r. by destruct st.
  - rewrite Hstep. destruct (acceptedCommand x) as [c|] eqn:Hacc; intros H;
      apply IH in H as (pre & bad & post & -> & [Hpre Hbad] & -> & ->);
      exists (x :: pre), bad, post; (split; [reflexivity|]).
    + split; [split|].
      * apply passesBefore_cons. split; [cbn; by rewrite app_nil_r|].
        eapply passesBefore_ext; [|exact Hpre]. intros l y. cbn beta.
        rewrite Hcons. cbn [flat_map]. by rewrite app_assoc.
      * rewrite Hcons. cbn [flat_map]. by rewrite app_assoc.
      * split; [|reflexivity]. rewrite Hcons.
        unfold withAppendedCommands, pushCommand. cbn. by rewrite <- app_assoc.
    + split; [split|].
      * apply passesBefore_cons. split; [cbn; by rewrite app_nil_r|].
        eapply passesBefore_ext; [|exact Hpre]. intros l y. cbn beta.
        by rewrite Hcons.
      * by rewrite Hcons.
      * split; [|reflexivity]. by rewrite Hcons.
Qed.

Lemma registerTaskFiles_offender pre :
  forall ns d r st bad post,
    firstOffender (fun l => failsTaskValidation (ns ++ map name (omap acceptedTask l)))
      pre bad ->
    exists e,
      registerTaskFiles (pre ++ bad :: post) ns d r st
      = (Throw e, withAppendedTasks (omap acceptedTask pre) st, []).
Proof.
  induction pre as [|x pre IH]; intros ns d r st bad post [Hpre Hbad].
  - cbn in Hbad. rewrite app_nil_r in Hbad.
    pose proof (registerTaskFiles_step bad post ns d r st) as Hstep.
    rewrite Hbad in Hstep. destruct Hstep as [e Hstep]. exists e.
    cbn [app]. rewrite Hstep. unfold withAppendedTasks. cbn.
    rewrite app_nil_r. by destruct st.
  - apply passesBefore_cons in Hpre as [Hx Hpre]. cbn in Hx. rewrite app_nil_r in Hx.
    pose proof (registerTaskFiles_step x (pre ++ bad :: post) ns d r st) as Hstep.
    rewrite Hx in Hstep. cbn [app]. rewrite Hstep.
    rewrite omap_cons in Hbad. rewrite omap_cons.
    assert (forall l, omap acceptedTask (x :: l)
                      = match acceptedTask x with
                        | Some y => y :: omap acceptedTask l
                        | None => omap acceptedTask l
                        end) as Hcons by (intros; apply omap_cons).
    destruct (acceptedTask x) as [t|].
    + destruct (IH (ns ++ [name t]) d (S r) (pushTask t st) bad post) as [e He].
      { split.
        - eapply passesBefore_ext; [|exact Hpre]. intros l y. cbn beta.
          rewrite Hcons. cbn [map]. by rewrite <- app_assoc.
        - cbn [map] in Hbad. by rewrite <- app_assoc. }
      exists e. rewrite He. unfold withAppendedTasks, pushTask. cbn.
      by rewrite <- app_assoc.
    + destruct (IH ns (S d) r st bad post) as [e He].
      { split; [|exact Hbad].
        eapply passesBefore_ext; [|exact Hpre]. intros l y. cbn beta.
        by rewrite Hcons. }
      exists e. exact He.
Qed.

Lemma registerTaskFiles_raises_at files :
  forall ns d r st e st' ev,
    registerTaskFiles files ns d r st = (Throw e, st', ev) ->
    exists pre bad post,
      files = pre ++ bad :: post /\
      firstOffender (fun l => failsTaskValidation (ns ++ map name (omap acceptedTask l)))
        pre bad /\
      st' = withAppendedTasks (omap acceptedTask pre) st /\ ev = [].
Proof.
  induction files as [|x rest IH]; intros ns d r st e st' ev;
    [cbn [registerTaskFiles]; discriminate|].
  pose proof (registerTaskFiles_step x rest ns d r st) as Hstep.
  assert (forall l, omap acceptedTask (x :: l)
                    = match acceptedTask x with
                      | Some y => y :: omap acceptedTask l
                      | None => omap acceptedTask l
                      end) as Hcons by (intros; apply omap_cons).
  destruct (failsTaskValidation ns x) eqn:Hx.
  - destruct Hstep as [e0 ->]. intros [= _ <- <-].
    exists [], x, rest. split; [reflexivity|]. split.
    + split; [apply passesBefore_nil|]. cbn. by rewrite app_nil_r.
    + split; [|reflexivity]. unfold withAppendedTasks. cbn.
      rewrite app_nil_r. by destruct st.
  - rewrite Hstep. destruct (acceptedTask x) as [t|] eqn:Hacc; intros H;
      apply IH in H as (pre & bad & post & -> & [Hpre Hbad] & -> & ->);
      exists (x :: pre), bad, post; (split; [reflexivity|]).
    + split; [split|].
      * apply passesBefore_cons. split; [cbn; by rewrite app_nil_r|].
        eapply passesBefore_ext; [|exact Hpre]. intros l y. cbn beta.
        rewrite Hcons. cbn [map]. by rewrite <- app_assoc.
      * rewrite Hcons. cbn [map]. rewrite <- app_assoc in Hbad. exact Hbad.
      * split; [|reflexivity]. rewrite Hcons.
        unfold withAppendedTasks, pushTask. cbn. by rewrite <- app_assoc.
    + split; [split|].
      * apply passesBefore_cons. split; [cbn; by rewrite app_nil_r|].
        eapply passesBefore_ext; [|exact Hpre]. intros l y. cbn beta.
        by rewrite Hcons.
      * by rewrite Hcons.
      * split; [|reflexivity]. by rewrite Hcons.
Qed.

(** C2 (as amended).  A registration call raises exactly at the first
    definition of its batch that fails validation, and processes nothing
    after it: the entries registered before the call are kept in place, what
    the definitions before the offending one contribute stays appended to the
    living list in the order of the batch, unsorted, and nothing else of the
    store changes.  So the living list is as before the call only when no
    definition before the offending one was accepted. *)
Theorem failed_registration_keeps_earlier_entries :
  (forall files st,
      (forall pre bad post,
          files = pre ++ bad :: post ->
          firstOffender (fun l => failsValidation (seenStrings st l)) pre bad ->
          exists e,
            registerCommandsFolder files st
            = (Throw e, withAppendedCommands (omap acceptedCommand pre) st, [])) /\
      (forall e st' ev,
          registerCommandsFolder files st = (Throw e, st', ev) ->
          exists pre bad post,
            files = pre ++ bad :: post /\
            firstOffender (fun l => failsValidation (seenStrings st l)) pre bad /\
            commands st' = commands st ++ omap acceptedCommand pre /\
            (commands st' = commands st <-> omap acceptedCommand pre = []) /\
            tasks st' = tasks st /\ settings st' = settings st)) /\
  (forall files st,
      (forall pre bad post,
          files = pre ++ bad :: post ->
          firstOffender (fun l => failsTaskValidation (seenNames st l)) pre bad ->
          exists e,
            registerTasksFolder files st
            = (Throw e, withAppendedTasks (omap acceptedTask pre) st, [])) /\
      (forall e st' ev,
          registerTasksFolder files st = (Throw e, st', ev) ->
          exists pre bad post,
            files = pre ++ bad :: post /\
            firstOffender (fun l => failsTaskValidation (seenNames st l)) pre bad /\
            tasks st' = tasks st ++ omap acceptedTask pre /\
            (tasks st' = tasks st <-> omap acceptedTask pre = []) /\
            commands st' = commands st /\ settings st' = settings st)).
Proof.
  assert (forall {A} (l k : list A), l ++ k = l <-> k = []) as Happ.
  { intros A l k. split; [|intros ->; apply app_nil_r].
    intros H. apply (app_inv_head l). by rewrite app_nil_r. }
  split; intros files st; split.
  - intros pre bad post -> Hbad.
    destruct (registerCommandFiles_offender pre (map command (commands st)) 0 0 st
                bad post Hbad) as [e He].
    exists e. unfold registerCommandsFolder, bind, gets, modify, ret. cbn.
    rewrite He. reflexivity.
  - intros e st' ev.
    unfold registerCommandsFolder, bind, gets, modify, ret. cbn.
    destruct (registerCommandFiles files _ 0 0 st) as [[[info|e0] s0] ev0] eqn:Hloop;
      [discriminate|].
    intros [= _ <- _].
    apply registerCommandFiles_raises_at in Hloop
        as (pre & bad & post & -> & Hbad & -> & _).
    exists pre, bad, post. cbn. rewrite Happ. auto 10.
  - intros pre bad post -> Hbad.
    destruct (registerTaskFiles_offender pre (map name (tasks st)) 0 0 st
                bad post Hbad) as [e He].
    exists e. unfold registerTasksFolder, bind, gets, modify, ret. cbn.
    rewrite He. reflexivity.
  - intros e st' ev.
    unfold registerTasksFolder, bind, gets, modify, ret. cbn.
    destruct (registerTaskFiles files _ 0 0 st) as [[[info|e0] s0] ev0] eqn:Hloop;
      [discriminate|].
    intros [= _ <- _].
    apply registerTaskFiles_raises_at in Hloop
        as (pre & bad & post & -> & Hbad & -> & _).
    exists pre, bad, post. cbn. rewrite Happ. auto 10.
Qed.

Lemma failed_registration_keeps_earlier_entries_witness :
  let pre := [commandFile "ping" []; commandFile "pong" ["p"]] in
  let bad := commandFile "ping" [] in
  firstOffender (fun l => failsValidation (seenStrings initialStore l)) pre bad /\
  commands (withAppendedCommands (omap acceptedCommand pre) initialStore)
    = [plainCommand "ping" []; plainCommand "pong" ["p"]] /\
  exists e,
    registerCommandsFolder (pre ++ bad :: [commandFile "late" []]) initialStore
    = (Throw e, withAppendedCommands (omap acceptedCommand pre) initialStore, []).
Proof.
  intros pre bad.
  assert (firstOffender (fun l => failsValidation (seenStrings initialStore l)) pre bad)
    as Hbad.
  { split; [|vm_compute; reflexivity].
    intros pre1 x post1 Heq.
    destruct pre1 as [|a [|b [|c pre1]]]; injection Heq as; subst;
      try discriminate; vm_compute; reflexivity. }
  split; [exact Hbad|]. split; [vm_compute; reflexivity|].
  exact (proj1 (proj1 failed_registration_keeps_earlier_entries
                  (pre ++ bad :: [commandFile "late" []]) initialStore)
           pre bad [commandFile "late" []] eq_refl Hbad).
Defined.

(** Registration is not all-or-nothing: a duplicate met in the middle of a
    batch leaves the earlier entries of the batch on the living list. *)
Lemma registration_commits_before_raising :
  ~ commandsAllOrNothing /\ ~ tasksAllOrNothing.
Proof.
  split; intros Hclaim.
  - specialize (Hclaim [commandFile "ping" []; commandFile "ping" []] initialStore
                  (JsError "Duplicate command: ping")
                  (store (registerCommandsFolder
                            [commandFile "ping" []; commandFile "ping" []] initialStore))
                  [] ltac:(vm_compute; reflexivity)).
    vm_compute in Hclaim. discriminate Hclaim.
  - specialize (Hclaim [plainTask "greet" false; plainTask "greet" false] initialStore
                  (JsError "Duplicate task: greet")
                  (store (registerTasksFolder
                            [plainTask "greet" false; plainTask "greet" false] initialStore))
                  [] ltac:(vm_compute; reflexivity)).
    vm_compute in Hclaim. discriminate Hclaim.
Qed.

(** The duplicate check of a later call knows the primary names of the
    commands registered by earlier calls, not their aliases. *)
Lemma earlier_alias_not_checked :
  result (registerCommandsFolder [commandFile "b" []]
            (store (registerCommandsFolder [commandFile "ban" ["b"]] initialStore)))
  = Ok {| registered := 1; ri_disabled := 0 |}.
Proof. vm_compute. reflexivity. Qed.

(** ** Prefixes are compared as stored *)

Lemma isUpper_lowerChar c : isUpper (lowerChar c) = false.
Proof. destruct c as [[] [] [] [] [] [] [] []]; reflexivity. Qed.

Lemma prefix_of_lowered q t :
  String.prefix q (toLowerCase t) = true -> hasUpper q = false.
Proof.
  revert t. induction q as [|c q IH]; intros t; [reflexivity|].
  destruct t as [|d t]; cbn [toLowerCase String.prefix]; [discriminate|].
  destruct (ascii_dec c (lowerChar d)) as [->|]; [|discriminate].
  intros H. unfold hasUpper in *. cbn [list_ascii_of_string existsb].
  rewrite isUpper_lowerChar. exact (IH t H).
Qed.

Lemma hasUpper_append p v : hasUpper (p +:+ v) = hasUpper p || hasUpper v.
Proof.
  unfold hasUpper. induction p as [|c p IH]; [reflexivity|].
  rewrite append_cons. cbn [list_ascii_of_string existsb]. rewrite IH.
  apply orb_assoc.
Qed.

Lemma uppercase_prefix_no_match p v text :
  hasUpper p = true -> matchesVariation p v text = false.
Proof.
  intros Hp. unfold matchesVariation, startsWith.
  destruct (String.prefix (p +:+ v) (toLowerCase text)) eqn:Hpre; [|reflexivity].
  apply prefix_of_lowered in Hpre. rewrite hasUpper_append, Hp in Hpre. discriminate.
Qed.

Lemma prefix_split q s :
  String.prefix q s = true <-> exists rest, s = q +:+ rest.
Proof.
  revert s. induction q as [|c q IH]; intros s.
  - split; [intros _; exists s; reflexivity|intros _; destruct s; reflexivity].
  - destruct s as [|d s]; cbn [String.prefix].
    + split; [discriminate|intros [rest Hr]; discriminate Hr].
    + destruct (ascii_dec c d) as [->|Hne].
      * rewrite IH. split; intros [rest Hr]; exists rest.
        -- rewrite append_cons. by rewrite <- Hr.
        -- rewrite append_cons in Hr. by injection Hr.
      * split; [discriminate|]. intros [rest Hr].
        rewrite append_cons in Hr. injection Hr as Hc _. congruence.
Qed.

Lemma slice_append q rest : slice (String.length q) (q +:+ rest) = rest.
Proof. induction q as [|c q IH]; [by destruct rest|exact IH]. Qed.

(** What the matcher tests: the lower-cased text reads as the stored prefix,
    the stored variation, and then nothing or something that starts with
    whitespace. *)
Lemma matchesVariation_iff p v text :
  matchesVariation p v text = true <->
  exists rest,
    toLowerCase text = (p +:+ v) +:+ rest /\
    (rest = "" \/ exists c r, rest = String c r /\ isWhitespace c = true).
Proof.
  unfold matchesVariation, startsWith. rewrite andb_true_iff, prefix_split. split.
  - intros [[rest Hr] Hb]. exists rest. split; [exact Hr|].
    rewrite Hr, slice_append in Hb. destruct rest as [|c r]; [by left|].
    right. exists c, r. auto.
  - intros (rest & Hr & Hb). split; [eauto|].
    rewrite Hr, slice_append. destruct Hb as [->|(c & r & -> & Hc)]; [reflexivity|exact Hc].
Qed.

(** The case of the message text is immaterial. *)
Lemma matchesVariation_text_case p v text text' :
  toLowerCase text = toLowerCase text' ->
  matchesVariation p v text = matchesVariation p v text'.
Proof. intros H. unfold matchesVariation. rewrite H. reflexivity. Qed.

(** C4, at the defect.  The message text is lower-cased before it is
    compared, the prefix is not: when every valid prefix contains an
    upper-case letter, no message matches any command, whatever its case. *)
Theorem uppercase_prefix_never_matches (h : Host) (message : Message) (st : Store) :
  (forall p, In p (getGlobalPrefixes (pushedStore message st)) -> hasUpper p = true) ->
  checkCommand h message st = (Ok CommandMatchNoMatch, pushedStore message st, []).
Proof.
  intros Hupper. rewrite checkCommand_unfold.
  rewrite <- (app_nil_r (globalPrefixes (settings (pushedStore message st)))).
  rewrite findPrefix_skip; [reflexivity|].
  intros p c v Hp _ _. apply uppercase_prefix_no_match. exact (Hupper p Hp).
Qed.

Lemma uppercase_prefix_never_matches_witness :
  let st := configured ["B!"] [] [commandFile "ping" []] in
  (getGlobalPrefixes st = ["B!"] /\ commands st = [plainCommand "ping" []]) /\
  checkCommand obligingHost (directMessage "B!ping") st = (Ok CommandMatchNoMatch, st, []) /\
  checkCommand obligingHost (directMessage "b!ping") st = (Ok CommandMatchNoMatch, st, []).
Proof.
  intros st. split; [split; vm_compute; reflexivity|].
  split.
  - apply (uppercase_prefix_never_matches obligingHost (directMessage "B!ping") st).
    intros p Hp. vm_compute in Hp. destruct Hp as [<-|[]]. reflexivity.
  - apply (uppercase_prefix_never_matches obligingHost (directMessage "b!ping") st).
    intros p Hp. vm_compute in Hp. destruct Hp as [<-|[]]. reflexivity.
Defined.

(** * Further properties *)

(** ** Prefix settings *)

Lemma requireStrings_Ok l ss : requireStrings l = Ok ss -> l = map JsStr ss.
Proof.
  revert ss. induction l as [|p rest IH]; intros ss; cbn [requireStrings].
  - intros [= <-]. reflexivity.
  - destruct p; cbn [asString]; try discriminate.
    destruct (requireStrings rest) as [ss'|]; cbn [bindRes]; [|discriminate].
    intros [= <-]. cbn [map]. f_equal. by apply IH.
Qed.

Lemma requireStrings_Throw l e :
  requireStrings l = Throw e ->
  e = JsError "All prefixes must be strings" /\ exists p, In p l /\ asString p = None.
Proof.
  induction l as [|p rest IH]; cbn [requireStrings]; [discriminate|].
  destruct (asString p) eqn:Hp.
  - destruct (requireStrings rest) as [ss'|e']; cbn [bindRes]; [discriminate|].
    intros [= <-]. destruct (IH eq_refl) as (He & q & Hq & Hn).
    split; [exact He|]. exists q. split; [right; exact Hq|exact Hn].
  - intros [= <-]. split; [reflexivity|]. exists p. split; [left; reflexivity|exact Hp].
Qed.

Lemma dedupFirst_nonempty {A} `{EqDecision A} (l : list A) : l <> [] -> dedupFirst l <> [].
Proof. destruct l; [congruence|discriminate]. Qed.

Lemma NoDup_map_JsStr (ss : list string) : NoDup (map JsStr ss) -> NoDup ss.
Proof.
  induction ss as [|s rest IH]; [constructor|].
  cbn [map]. rewrite !NoDup_cons. intros [Hin Hnd]. split; [|auto].
  intros Hs. apply Hin. apply list_elem_of_In, in_map, list_elem_of_In. exact Hs.
Qed.

Lemma effectivePrefixes_nonempty prefixes : effectivePrefixes prefixes <> [].
Proof.
  unfold effectivePrefixes. destruct (isNullish prefixes); [discriminate|].
  destruct (toPrefixList prefixes); discriminate.
Qed.

Lemma setGlobalPrefixes_unfold prefixes st :
  setGlobalPrefixes prefixes st =
  match requireStrings (dedupFirst (effectivePrefixes prefixes)) with
  | Ok ps => (Ok ps, withGlobalPrefixes ps st, [])
  | Throw e => (Throw e, st, [])
  end.
Proof.
  unfold setGlobalPrefixes, effectivePrefixes.
  destruct (isNullish prefixes); [reflexivity|].
  rewrite newSet_dedupFirst. unfold bind, liftRes, modify, ret.
  destruct (toPrefixList prefixes) as [|p l]; cbn [length Nat.eqb app].
  - reflexivity.
  - destruct (requireStrings _); reflexivity.
Qed.

(** X1.  [setGlobalPrefixes] either raises "All prefixes must be strings",
    which it does exactly when the argument holds a value that is not a
    string, and then leaves the store untouched; or it returns a list that is
    never empty and has no duplicates, namely the argument (the single empty
    prefix for a nullish or empty argument) with duplicates collapsed, and
    stores it as the global prefixes without changing anything else. *)
Theorem setGlobalPrefixes_outcome (prefixes : Arg) (st : Store) :
  match setGlobalPrefixes prefixes st with
  | (Ok ps, st', ev) =>
      ps <> [] /\ NoDup ps /\
      map JsStr ps = dedupFirst (effectivePrefixes prefixes) /\
      st' = withGlobalPrefixes ps st /\ ev = []
  | (Throw e, st', ev) =>
      e = JsError "All prefixes must be strings" /\
      (exists p, In p (effectivePrefixes prefixes) /\ asString p = None) /\
      st' = st /\ ev = []
  end.
Proof.
  rewrite setGlobalPrefixes_unfold.
  destruct (requireStrings _) as [ps|e] eqn:Hreq.
  - apply requireStrings_Ok in Hreq.
    split; [|split; [|auto]].
    + intros ->.
      exact (dedupFirst_nonempty _ (effectivePrefixes_nonempty prefixes) Hreq).
    + apply NoDup_map_JsStr. rewrite <- Hreq. apply dedupFirst_NoDup.
  - apply requireStrings_Throw in Hreq as (-> & p & Hin & Hp).
    split; [reflexivity|]. split; [|auto].
    exists p. split; [|exact Hp].
    apply list_elem_of_In, dedupFirst_elem, list_elem_of_In. exact Hin.
Qed.

(** ** What registration does to the store *)

Lemma registerCommandFiles_frame files :
  forall commandStrings disabledCount registeredCount st,
  exists r0 s0,
    registerCommandFiles files commandStrings disabledCount registeredCount st
    = (r0, s0, []) /\
    settings s0 = settings st /\ tasks s0 = tasks st.
Proof.
  induction files as [|commandObj rest IH]; intros cs d r st;
    cbn [registerCommandFiles]; [unfold ret; eauto|].
  destruct (asString (command commandObj)) as [s|]; [|unfold throw; eauto].
  cbn zeta.
  destruct (String.eqb (toLowerCase (trim s)) "" || isTrue (disabled commandObj));
    [apply IH|].
  assert (forall als,
             exists r0 s0,
               (let* _ := liftRes (rejectDuplicates cs (toLowerCase (trim s))
                                     (toLowerCase (trim s) :: als)) in
                let* _ := modify (pushCommand
                                    (normalised commandObj (toLowerCase (trim s)) als)) in
                registerCommandFiles rest (cs ++ toLowerCase (trim s) :: als) d (S r)) st
               = (r0, s0, []) /\
               settings s0 = settings st /\ tasks s0 = tasks st) as Hpush.
  { intros als. unfold bind, liftRes, modify.
    destruct (rejectDuplicates cs _ _) as [[]|e0]; [|eauto].
    destruct (IH (cs ++ toLowerCase (trim s) :: als) d (S r)
                (pushCommand (normalised commandObj (toLowerCase (trim s)) als) st))
      as (r0 & s0 & -> & Hs & Ht).
    exists r0, s0. auto. }
  unfold bind at 1.
  destruct (aliases commandObj) as [l|].
  - unfold liftRes at 1. destruct (normaliseAliases l) as [als|e0]; [|eauto].
    destruct (Hpush als) as (r0 & s0 & -> & Hs & Ht). exists r0, s0. auto.
  - unfold ret at 1.
    destruct (Hpush []) as (r0 & s0 & -> & Hs & Ht). exists r0, s0. auto.
Qed.

Lemma registerTaskFiles_frame files :
  forall tasknames disabledCount registeredCount st,
  exists r0 s0,
    registerTaskFiles files tasknames disabledCount registeredCount st = (r0, s0, []) /\
    settings s0 = settings st /\ commands s0 = commands st.
Proof.
  induction files as [|taskObj rest IH]; intros ns d r st;
    cbn [registerTaskFiles]; [unfold ret; eauto|].
  destruct (isTrue (t_disabled taskObj)); [apply IH|].
  destruct (includes ns (name taskObj)); [unfold throw; eauto|].
  unfold bind, modify.
  destruct (IH (ns ++ [name taskObj]) d (S r) (pushTask taskObj st))
    as (r0 & s0 & -> & Hs & Hc).
  exists r0, s0. auto.
Qed.

Lemma registerCommandsFolder_frame files st :
  settings (store (registerCommandsFolder files st)) = settings st /\
  tasks (store (registerCommandsFolder files st)) = tasks st /\
  trace (registerCommandsFolder files st) = [].
Proof.
  unfold registerCommandsFolder, bind, gets, modify, ret. cbn.
  destruct (registerCommandFiles_frame files (map command (commands st)) 0 0 st)
    as (r0 & s0 & -> & Hs & Ht).
  destruct r0; cbn; auto.
Qed.

Lemma registerTasksFolder_frame files st :
  settings (store (registerTasksFolder files st)) = settings st /\
  commands (store (registerTasksFolder files st)) = commands st /\
  trace (registerTasksFolder files st) = [].
Proof.
  unfold registerTasksFolder, bind, gets, modify, ret. cbn.
  destruct (registerTaskFiles_frame files (map name (tasks st)) 0 0 st)
    as (r0 & s0 & -> & Hs & Hc).
  destruct r0; cbn; auto.
Qed.

Lemma checkTasks_store h message excludeLimited st :
  store (checkTasks h message excludeLimited st) = st.
Proof.
  rewrite checkTasks_unfold.
  destruct (selectTasks h _ _ _ _ _ st) as [[[ctx|e'] s1] ev1]; [|reflexivity].
  destruct (runTasks h message ctx (matching ctx) st) as [[[[]|e'] s2] ev2]; reflexivity.
Qed.

Lemma pushedStore_nonempty message st :
  getGlobalPrefixes st <> [] -> getGlobalPrefixes (pushedStore message st) <> [].
Proof.
  unfold pushedStore, getGlobalPrefixes. intros Hne.
  destruct (guild message) as [g|]; [|exact Hne].
  destruct (guildPrefixes (settings st) !! g); [|exact Hne].
  cbn. intros Happ. apply app_eq_nil in Happ as [? _]. auto.
Qed.

Lemma setGuildPrefixes_unfold guildId prefixes st :
  setGuildPrefixes guildId prefixes st =
  if isNullish prefixes || Nat.eqb (length (toPrefixList prefixes)) 0 then
    (Ok [], withGuildPrefixes (delete guildId (guildPrefixes (settings st))) st, [])
  else
    match requireStrings (dedupFirst (toPrefixList prefixes)) with
    | Ok ps => (Ok ps, withGuildPrefixes (<[guildId := ps]> (guildPrefixes (settings st))) st, [])
    | Throw e => (Throw e, st, [])
    end.
Proof.
  unfold setGuildPrefixes.
  destruct (isNullish prefixes || Nat.eqb (length (toPrefixList prefixes)) 0);
    [reflexivity|].
  rewrite newSet_dedupFirst. unfold bind, liftRes, modify, ret.
  destruct (requireStrings _); reflexivity.
Qed.

(** X2.  [setGuildPrefixes] on a nullish or empty argument never raises:
    it removes the guild's entry and returns the empty list.  On any other
    argument it either raises "All prefixes must be strings" without touching
    the store (exactly when the argument holds a value that is not a string)
    or stores and returns the argument with duplicates collapsed.  Whenever
    it returns, a following [getGuildPrefixes] of that guild returns what the
    setter returned, and the prefixes of every other guild, the global
    prefixes, the owner and the registries are as before. *)
Theorem setGuildPrefixes_outcome (g : string) (prefixes : Arg) (st : Store) :
  match setGuildPrefixes g prefixes st with
  | (Ok ps, st', ev) =>
      getGuildPrefixes g st' = ps /\ NoDup ps /\
      (ps = [] <-> guildPrefixes (settings st') !! g = None) /\
      (ps = [] <-> isNullish prefixes = true \/ toPrefixList prefixes = []) /\
      (ps <> [] -> map JsStr ps = dedupFirst (toPrefixList prefixes)) /\
      (forall g', g' <> g -> getGuildPrefixes g' st' = getGuildPrefixes g' st) /\
      getGlobalPrefixes st' = getGlobalPrefixes st /\
      ownerId (settings st') = ownerId (settings st) /\
      commands st' = commands st /\ tasks st' = tasks st /\ ev = []
  | (Throw e, st', ev) =>
      e = JsError "All prefixes must be strings" /\
      isNullish prefixes = false /\ toPrefixList prefixes <> [] /\
      (exists p, In p (toPrefixList prefixes) /\ asString p = None) /\
      st' = st /\ ev = []
  end.
Proof.
  rewrite setGuildPrefixes_unfold.
  destruct (isNullish prefixes || Nat.eqb (length (toPrefixList prefixes)) 0) eqn:Hnull.
  - unfold getGuildPrefixes. cbn. rewrite lookup_delete_eq.
    split; [reflexivity|]. split; [constructor|]. split; [tauto|].
    split; [|split; [congruence|]].
    + split; [intros _|reflexivity].
      apply orb_true_iff in Hnull as [Hn|Hl]; [by left|right].
      destruct (toPrefixList prefixes); [reflexivity|discriminate].
    + split; [|auto]. intros g' Hne. by rewrite lookup_delete_ne.
  - apply orb_false_iff in Hnull as [Hn Hl].
    assert (toPrefixList prefixes <> []) as Hlist.
    { intros Hnil. rewrite Hnil in Hl. discriminate. }
    destruct (requireStrings _) as [ps|e] eqn:Hreq.
    + apply requireStrings_Ok in Hreq.
      assert (ps <> []) as Hps.
      { intros ->. exact (dedupFirst_nonempty _ Hlist Hreq). }
      unfold getGuildPrefixes. cbn. rewrite lookup_insert_eq.
      split; [reflexivity|]. split.
      { apply NoDup_map_JsStr. rewrite <- Hreq. apply dedupFirst_NoDup. }
      split; [split; [contradiction|discriminate]|].
      split.
      { split; [contradiction|]. intros [Hn'|Hl']; congruence. }
      split; [auto|]. split; [|auto].
      intros g' Hne. by rewrite lookup_insert_ne.
    + apply requireStrings_Throw in Hreq as (-> & p & Hin & Hp).
      split; [reflexivity|]. split; [exact Hn|]. split; [exact Hlist|].
      split; [|auto].
      exists p. split; [|exact Hp].
      apply list_elem_of_In, dedupFirst_elem, list_elem_of_In. exact Hin.
Qed.

Lemma prefixesWellFormed_settings st st' :
  settings st' = settings st -> prefixesWellFormed st -> prefixesWellFormed st'.
Proof.
  unfold prefixesWellFormed, guildEntriesNonEmpty, getGlobalPrefixes.
  intros ->. auto.
Qed.

(** X3.  Well-formed prefix settings stay well formed: from a store with at
    least one global prefix and no guild mapped to an empty list, every
    exported operation, whether it returns or raises, leads to such a store;
    and in such a store [getGuildPrefixes] returns the empty list exactly for
    the guilds that have no entry. *)
Theorem prefix_settings_stay_well_formed (st : Store) :
  prefixesWellFormed st ->
  (forall a, prefixesWellFormed (store (setGlobalPrefixes a st))) /\
  (forall g a, prefixesWellFormed (store (setGuildPrefixes g a st))) /\
  (forall v, prefixesWellFormed (store (setOwnerId v st))) /\
  (forall f, prefixesWellFormed (store (setModRoleGetter f st))) /\
  (forall h m, prefixesWellFormed (store (checkCommand h m st))) /\
  (forall h m x, prefixesWellFormed (store (checkTasks h m x st))) /\
  (forall files, prefixesWellFormed (store (registerCommandsFolder files st))) /\
  (forall files, prefixesWellFormed (store (registerTasksFolder files st))) /\
  (forall g, getGuildPrefixes g st = [] <-> guildPrefixes (settings st) !! g = None).
Proof.
  intros [Hglobal Hguild]. repeat split.
  - rewrite setGlobalPrefixes_unfold.
    destruct (requireStrings _) as [ps|e] eqn:Hreq; cbn; [|exact Hglobal].
    apply requireStrings_Ok in Hreq. intros ->.
    exact (dedupFirst_nonempty _ (effectivePrefixes_nonempty a) Hreq).
  - rewrite setGlobalPrefixes_unfold.
    destruct (requireStrings _) as [ps|e]; exact Hguild.
  - rewrite setGuildPrefixes_unfold.
    destruct (_ || _); [exact Hglobal|].
    destruct (requireStrings _); exact Hglobal.
  - rewrite setGuildPrefixes_unfold.
    destruct (isNullish a || Nat.eqb (length (toPrefixList a)) 0) eqn:Hnull.
    + intros g' ps. cbn. destruct (decide (g = g')) as [->|Hne].
      * rewrite lookup_delete_eq. discriminate.
      * rewrite lookup_delete_ne by exact Hne. apply Hguild.
    + apply orb_false_iff in Hnull as [_ Hl].
      destruct (requireStrings _) as [ps|e] eqn:Hreq; [|exact Hguild].
      apply requireStrings_Ok in Hreq.
      intros g' ps'. cbn. destruct (decide (g = g')) as [->|Hne].
      * rewrite lookup_insert_eq. intros [= <-] ->.
        refine (dedupFirst_nonempty _ _ Hreq). intros Hnil. rewrite Hnil in Hl. discriminate.
      * rewrite lookup_insert_ne by exact Hne. apply Hguild.
  - destruct v as [| |b|z|s]; cbn; try exact Hglobal.
    destruct (String.eqb s ""); exact Hglobal.
  - destruct v as [| |b|z|s]; cbn; try exact Hguild.
    destruct (String.eqb s ""); exact Hguild.
  - destruct f; exact Hglobal.
  - destruct f; exact Hguild.
  - rewrite checkCommand_store. by apply pushedStore_nonempty.
  - rewrite checkCommand_store. intros g ps.
    rewrite pushedStore_guildPrefixes. apply Hguild.
  - rewrite checkTasks_store. exact Hglobal.
  - rewrite checkTasks_store. exact Hguild.
  - refine (proj1 (prefixesWellFormed_settings st _ _ (conj Hglobal Hguild))).
    apply registerCommandsFolder_frame.
  - refine (proj2 (prefixesWellFormed_settings st _ _ (conj Hglobal Hguild))).
    apply registerCommandsFolder_frame.
  - refine (proj1 (prefixesWellFormed_settings st _ _ (conj Hglobal Hguild))).
    apply registerTasksFolder_frame.
  - refine (proj2 (prefixesWellFormed_settings st _ _ (conj Hglobal Hguild))).
    apply registerTasksFolder_frame.
  - unfold getGuildPrefixes. destruct (guildPrefixes (settings st) !! g) as [ps|] eqn:Hg;
      [|reflexivity].
    intros ->. destruct (Hguild g [] Hg eq_refl).
  - unfold getGuildPrefixes. intros ->. reflexivity.
Qed.

Lemma prefix_settings_stay_well_formed_witness :
  prefixesWellFormed (store (setGuildPrefixes "g" (Arr [JsStr "?"; JsStr "?"]) initialStore)).
Proof.
  refine (proj1 (proj2 (prefix_settings_stay_well_formed initialStore _))
            "g" (Arr [JsStr "?"; JsStr "?"])).
  split; [discriminate|].
  intros g ps. cbn. rewrite lookup_empty. discriminate.
Defined.

(** ** The permission evaluator, case by case *)

Lemma includes_In l x : includes l x = true <-> In x l.
Proof.
  unfold includes. rewrite existsb_exists. split.
  - intros (y & Hy & Heq). apply String.eqb_eq in Heq. by subst.
  - intros Hin. exists x. split; [exact Hin|apply String.eqb_refl].
Qed.

Lemma holdsModRole_list ids mem :
  holdsModRole (RoleList ids) mem = true <->
  exists id, In id (roleIds mem) /\ In id ids.
Proof.
  cbn [holdsModRole]. rewrite existsb_exists. split.
  - intros (id & Hid & Hinc). exists id. split; [exact Hid|]. by apply includes_In.
  - intros (id & Hid & Hin). exists id. split; [exact Hid|]. by apply includes_In.
Qed.

Lemma checkCommandPermissions_dm s c m :
  guild m = None ->
  checkCommandPermissions s c m
  = Ok (checksWith s (negb (adminOnly c ?? false), negb (modOnly c ?? false))
          (ownerOnly c ?? false) (inGuilds c ?? true) (inDms c ?? true)
          (allowBots c ?? false) (botsOnly c ?? false) (allowSelf c ?? false) m).
Proof.
  intros Hg. unfold checkCommandPermissions, modRolesFor, adminCheck, modCheck.
  rewrite Hg. cbn.
  destruct (adminOnly c ?? false), (modOnly c ?? false); reflexivity.
Qed.

Lemma checkTaskPermissions_dm s t m :
  guild m = None ->
  checkTaskPermissions s t m
  = Ok (checksWith s (negb (t_adminOnly t ?? false), negb (t_modOnly t ?? false))
          (t_ownerOnly t ?? false) (t_inGuilds t ?? true) (t_inDms t ?? true)
          (t_allowBots t ?? false) (t_botsOnly t ?? false) (t_allowSelf t ?? false) m).
Proof.
  intros Hg. unfold checkTaskPermissions, modRolesFor, adminCheck, modCheck.
  rewrite Hg. cbn.
  destruct (t_adminOnly t ?? false), (t_modOnly t ?? false); reflexivity.
Qed.

Lemma checkCommandPermissions_guild s c m g mem :
  guild m = Some g -> member m = Some mem ->
  checkCommandPermissions s c m
  = let? roles := getModRoles s g in
    Ok (checksWith s
          (negb (adminOnly c ?? false) || isAdministrator mem,
           negb (modOnly c ?? false) || isAdministrator mem || holdsModRole roles mem)
          (ownerOnly c ?? false) (inGuilds c ?? true) (inDms c ?? true)
          (allowBots c ?? false) (botsOnly c ?? false) (allowSelf c ?? false) m).
Proof.
  intros Hg Hm.
  unfold checkCommandPermissions, modRolesFor, adminCheck, modCheck, derefMember.
  rewrite Hg, Hm. destruct (getModRoles s g) as [roles|e]; [|reflexivity]. cbn.
  destruct (adminOnly c ?? false), (modOnly c ?? false), (isAdministrator mem);
    cbn; try reflexivity; destruct roles; reflexivity.
Qed.

Lemma checkTaskPermissions_guild s t m g mem :
  guild m = Some g -> member m = Some mem ->
  checkTaskPermissions s t m
  = let? roles := getModRoles s g in
    Ok (checksWith s
          (negb (t_adminOnly t ?? false) || isAdministrator mem,
           negb (t_modOnly t ?? false) || isAdministrator mem || holdsModRole roles mem)
          (t_ownerOnly t ?? false) (t_inGuilds t ?? true) (t_inDms t ?? true)
          (t_allowBots t ?? false) (t_botsOnly t ?? false) (t_allowSelf t ?? false) m).
Proof.
  intros Hg Hm.
  unfold checkTaskPermissions, modRolesFor, adminCheck, modCheck, derefMember.
  rewrite Hg, Hm. destruct (getModRoles s g) as [roles|e]; [|reflexivity]. cbn.
  destruct (t_adminOnly t ?? false), (t_modOnly t ?? false), (isAdministrator mem);
    cbn; try reflexivity; destruct roles; reflexivity.
Qed.

(** X4.  In a direct message both evaluators complete whatever the member
    and whatever the moderator-role getter does, which they do not consult: a
    descriptor that is [adminOnly] or [modOnly] fails the respective check,
    and the channel-type check is the descriptor's [inDms] (true when
    unset). *)
Theorem direct_message_checks (s : Settings) (c : Command) (t : Task) (m : Message) :
  guild m = None ->
  (exists checks,
      checkCommandPermissions s c m = Ok checks /\
      passAdminCheck checks = negb (adminOnly c ?? false) /\
      passModCheck checks = negb (modOnly c ?? false) /\
      passChannelTypeCheck checks = inDms c ?? true) /\
  (exists checks,
      checkTaskPermissions s t m = Ok checks /\
      passAdminCheck checks = negb (t_adminOnly t ?? false) /\
      passModCheck checks = negb (t_modOnly t ?? false) /\
      passChannelTypeCheck checks = t_inDms t ?? true).
Proof.
  intros Hg. split.
  - rewrite (checkCommandPermissions_dm s c m Hg). eexists. split; [reflexivity|].
    cbn. unfold channelTypeCheck. rewrite Hg. auto.
  - rewrite (checkTaskPermissions_dm s t m Hg). eexists. split; [reflexivity|].
    cbn. unfold channelTypeCheck. rewrite Hg. auto.
Qed.

Lemma direct_message_checks_witness :
  exists checks,
    checkCommandPermissions
      {| ownerId := OwnerFlag false; globalPrefixes := [""]; guildPrefixes := ∅;
         getModRoles := fun _ => Throw (JsError "unavailable") |}
      (plainCommand "ping" []) (directMessage "ping") = Ok checks /\
    passAdminCheck checks = true.
Proof.
  destruct (proj1 (direct_message_checks
                     {| ownerId := OwnerFlag false; globalPrefixes := [""];
                        guildPrefixes := ∅;
                        getModRoles := fun _ => Throw (JsError "unavailable") |}
                     (plainCommand "ping" []) (plainTask "t" false)
                     (directMessage "ping") eq_refl))
    as (checks & Hc & Ha & _).
  exists checks. split; [exact Hc|exact Ha].
Defined.

(** X5.  In a guild, with the member at hand and a moderator-role lookup
    that completes, the command evaluator completes; an administrator passes
    both the admin and the moderator check; when the lookup answers [true]
    every member passes the moderator check; and a member who is no
    administrator passes the moderator check of a [modOnly] command exactly
    when one of the member's role ids is among the ids the lookup returned. *)
Theorem guild_moderation_checks (s : Settings) (c : Command) (m : Message)
  (g : string) (mem : GuildMember) (roles : ModRoles) :
  guild m = Some g -> member m = Some mem -> getModRoles s g = Ok roles ->
  exists checks,
    checkCommandPermissions s c m = Ok checks /\
    passAdminCheck checks = negb (adminOnly c ?? false) || isAdministrator mem /\
    (isAdministrator mem = true -> passModCheck checks = true) /\
    (roles = AllRoles -> passModCheck checks = true) /\
    (forall ids,
        roles = RoleList ids -> isAdministrator mem = false -> modOnly c = Some true ->
        (passModCheck checks = true <-> exists id, In id (roleIds mem) /\ In id ids)).
Proof.
  intros Hg Hm Hroles. rewrite (checkCommandPermissions_guild s c m g mem Hg Hm), Hroles.
  eexists. split; [reflexivity|]. cbn. split; [reflexivity|]. split; [|split].
  - intros ->. by rewrite orb_true_r.
  - intros ->. cbn. by rewrite orb_true_r.
  - intros ids -> -> ->. cbn [orDefault negb orb]. apply holdsModRole_list.
Qed.

Lemma guild_moderation_checks_witness :
  exists checks,
    checkCommandPermissions initialSettings (plainCommand "ban" [])
      (withMember (guildMessage "g" "!ban") {| isAdministrator := true; roleIds := [] |})
    = Ok checks /\
    passModCheck checks = true.
Proof.
  destruct (guild_moderation_checks initialSettings (plainCommand "ban" [])
              (withMember (guildMessage "g" "!ban")
                 {| isAdministrator := true; roleIds := [] |})
              "g" {| isAdministrator := true; roleIds := [] |} (RoleList [])
              eq_refl eq_refl eq_refl)
    as (checks & Hc & _ & Hadmin & _).
  exists checks. split; [exact Hc|exact (Hadmin eq_refl)].
Defined.

(** X6.  The bot and self gates of the command evaluator: when all checks
    pass, a message written by the client itself requires [allowSelf]; a
    message written by another bot requires [allowBots] or [botsOnly]; and a
    message written by a user who is no bot requires that the command is not
    [botsOnly].  So a command that sets none of the three flags never passes
    for a bot. *)
Theorem bot_and_self_gates (s : Settings) (c : Command) (m : Message)
  (checks : PermissionChecks) :
  checkCommandPermissions s c m = Ok checks ->
  passChecks checks = true ->
  (authorId m = clientUserId m -> allowSelf c = Some true) /\
  (authorBot m = true -> authorId m <> clientUserId m ->
   allowBots c = Some true \/ botsOnly c = Some true) /\
  (authorBot m = false -> botsOnly c <> Some true).
Proof.
  unfold checkCommandPermissions. intros H Hpass.
  destruct (modRolesFor s m) as [roles|]; cbn [bindRes] in H; [|discriminate].
  destruct (adminCheck _ m) as [pa|]; cbn [bindRes] in H; [|discriminate].
  destruct (modCheck _ _ m) as [pm|]; cbn [bindRes] in H; [|discriminate].
  injection H as <-. cbn in Hpass.
  repeat (apply andb_prop in Hpass as [Hpass ?]).
  unfold selfCheck, botCheck in *. repeat split.
  - intros Heq. rewrite Heq, String.eqb_refl in *. cbn in *.
    destruct (allowSelf c) as [[]|]; cbn in *; congruence.
  - intros Hbot Hne. rewrite Hbot in *.
    apply String.eqb_neq in Hne. rewrite Hne, orb_false_r in *.
    destruct (allowBots c) as [[]|], (botsOnly c) as [[]|]; cbn in *; auto; discriminate.
  - intros Hbot Hb. rewrite Hbot, Hb in *. discriminate.
Qed.

Lemma bot_and_self_gates_witness :
  (exists checks,
      checkCommandPermissions initialSettings selfCommand (ownMessage "!echo") = Ok checks /\
      passChecks checks = true) /\
  allowSelf selfCommand = Some true.
Proof.
  split; [eexists; split; vm_compute; reflexivity|].
  refine (proj1 (bot_and_self_gates initialSettings selfCommand (ownMessage "!echo")
                   _ _ _) _).
  - vm_compute. reflexivity.
  - reflexivity.
  - reflexivity.
Defined.

(** X7.  The two evaluators agree: for a task and a command that carry the
    same flags, on a direct message or on a guild message whose member is at
    hand, [checkTaskPermissions] and [checkCommandPermissions] give the same
    outcome, be it a checks record or the rejection of the moderator-role
    lookup. *)
Theorem evaluators_agree (s : Settings) (t : Task) (c : Command) (m : Message) :
  sameFlags t c ->
  guild m = None \/ member m <> None ->
  checkTaskPermissions s t m = checkCommandPermissions s c m.
Proof.
  intros (Ho & Ha & Hmo & Hg & Hd & Hb & Hbo & Hs) Hres.
  destruct (guild m) as [g|] eqn:Hguild.
  - destruct (member m) as [mem|] eqn:Hmem; [|destruct Hres; congruence].
    rewrite (checkTaskPermissions_guild s t m g mem Hguild Hmem).
    rewrite (checkCommandPermissions_guild s c m g mem Hguild Hmem).
    rewrite Ho, Ha, Hmo, Hg, Hd, Hb, Hbo, Hs. reflexivity.
  - rewrite (checkTaskPermissions_dm s t m Hguild).
    rewrite (checkCommandPermissions_dm s c m Hguild).
    rewrite Ho, Ha, Hmo, Hg, Hd, Hb, Hbo, Hs. reflexivity.
Qed.

Lemma evaluators_agree_witness :
  checkTaskPermissions initialSettings (plainTask "greet" true)
    (withMember (guildMessage "g" "hi") noMember)
  = checkCommandPermissions initialSettings (plainCommand "ping" [])
      (withMember (guildMessage "g" "hi") noMember).
Proof.
  apply evaluators_agree.
  - repeat split.
  - right. discriminate.
Defined.

(** X8.  [setOwnerId] raises "ownerId cannot be an empty string" for the
    empty string and "ownerId must be either a string or a boolean" for a
    value that is neither a string nor a boolean, and then leaves the store
    untouched; it returns for every other value, that is for a non-empty
    string and for a boolean.  When it returns it has stored the value as the
    owner and changed nothing else, and from then on the owner check of an
    [ownerOnly] command passes exactly when the value was [true] or is the id
    of the message's author; after [setOwnerId(false)] it never passes. *)
Theorem setOwnerId_outcome (v : Prim) (st : Store) :
  match setOwnerId v st with
  | (Ok _, st', ev) =>
      ((exists s, v = JsStr s /\ s <> "" /\ st' = withOwnerId (OwnerIs s) st) \/
       (exists b, v = JsBool b /\ st' = withOwnerId (OwnerFlag b) st)) /\
      ev = [] /\ commands st' = commands st /\ tasks st' = tasks st /\
      getGlobalPrefixes st' = getGlobalPrefixes st /\
      guildPrefixes (settings st') = guildPrefixes (settings st) /\
      getModRoles (settings st') = getModRoles (settings st) /\
      forall c m checks,
        ownerOnly c = Some true ->
        checkCommandPermissions (settings st') c m = Ok checks ->
        (passOwnerCheck checks = true <-> v = JsBool true \/ v = JsStr (authorId m))
  | (Throw e, st', ev) =>
      st' = st /\ ev = [] /\
      ((v = JsStr "" /\ e = JsError "ownerId cannot be an empty string") \/
       (asString v = None /\ (forall b, v <> JsBool b) /\
        e = JsError "ownerId must be either a string or a boolean"))
  end.
Proof.
  assert (forall o c m checks,
             ownerOnly c = Some true ->
             checkCommandPermissions
               (settings (withOwnerId o st)) c m = Ok checks ->
             passOwnerCheck checks
             = match o with
               | OwnerFlag b => b
               | OwnerIs id => String.eqb (authorId m) id
               end) as Howner.
  { intros o c m checks Hc. unfold checkCommandPermissions. intros H.
    destruct (modRolesFor _ m) as [roles|]; cbn [bindRes] in H; [|discriminate].
    destruct (adminCheck _ m) as [pa|]; cbn [bindRes] in H; [|discriminate].
    destruct (modCheck _ _ m) as [pm|]; cbn [bindRes] in H; [|discriminate].
    injection H as <-. cbn. unfold ownerCheck. cbn. rewrite Hc. reflexivity. }
  destruct v as [| |b|z|s]; cbn.
  - split; [reflexivity|]. split; [reflexivity|]. right.
    split; [reflexivity|]. split; [discriminate|reflexivity].
  - split; [reflexivity|]. split; [reflexivity|]. right.
    split; [reflexivity|]. split; [discriminate|reflexivity].
  - split; [right; exists b; split; reflexivity|].
    repeat split; auto.
    + intros Hp. rewrite (Howner (OwnerFlag b) c m checks H H0) in Hp. subst. by left.
    + intros [[= ->]|[=]]. exact (Howner (OwnerFlag true) c m checks H H0).
  - split; [reflexivity|]. split; [reflexivity|]. right.
    split; [reflexivity|]. split; [discriminate|reflexivity].
  - destruct (String.eqb_spec s "") as [->|Hne]; cbn.
    + split; [reflexivity|]. split; [reflexivity|]. left. split; reflexivity.
    + split; [left; exists s; repeat split; auto|].
      repeat split; auto.
      * intros Hp. rewrite (Howner (OwnerIs s) c m checks H H0) in Hp.
        apply String.eqb_eq in Hp. subst. by right.
      * intros [[=]|[= ->]]. rewrite (Howner (OwnerIs (authorId m)) c m checks H H0).
        apply String.eqb_refl.
Qed.

(** X9.  [setModRoleGetter] raises, and leaves the store untouched, for an
    argument that is not a function.  Otherwise it replaces the getter
    alone, and the evaluator consults the new getter for guild messages: its
    rejection is the evaluator's error, and when it answers [true] for the
    guild of a message whose member is at hand, the moderator check
    passes. *)
Theorem setModRoleGetter_outcome (a : GetterArg) (st : Store) :
  match setModRoleGetter a st with
  | (Ok _, st', ev) =>
      exists f,
        a = Callable f /\ ev = [] /\ st' = withModRoleGetter f st /\
        (forall c m g e,
            guild m = Some g -> f g = Throw e ->
            checkCommandPermissions (settings st') c m = Throw e) /\
        (forall c m g mem,
            guild m = Some g -> member m = Some mem -> f g = Ok AllRoles ->
            exists checks,
              checkCommandPermissions (settings st') c m = Ok checks /\
              passModCheck checks = true)
  | (Throw e, st', ev) =>
      (exists p, a = NotCallable p) /\
      e = JsError "modRoleGetter must be a function" /\ st' = st /\ ev = []
  end.
Proof.
  destruct a as [f|p]; cbn.
  - exists f. repeat split.
    + intros c m g e Hg Hf. unfold checkCommandPermissions, modRolesFor. cbn.
      rewrite Hg, Hf. reflexivity.
    + intros c m g mem Hg Hm Hf.
      rewrite (checkCommandPermissions_guild _ c m g mem Hg Hm). cbn. rewrite Hf.
      eexists. split; [reflexivity|]. cbn. by rewrite orb_true_r.
  - split; [eauto|auto].
Qed.

(** ** What the matcher finds *)

Lemma findVariation_none_inv prefix text vs :
  findVariation prefix text vs = None ->
  forall v, In v vs -> matchesVariation prefix v text = false.
Proof.
  induction vs as [|w rest IH]; cbn [findVariation]; intros H v; [intros []|].
  destruct (matchesVariation prefix w text) eqn:Hw; [discriminate|].
  intros [<-|Hin]; [exact Hw|exact (IH H v Hin)].
Qed.

Lemma findCommand_none_inv prefix text cmds :
  findCommand prefix text cmds = None ->
  forall c v, In c cmds -> In v (variations c) -> matchesVariation prefix v text = false.
Proof.
  induction cmds as [|d rest IH]; cbn [findCommand]; intros H c v; [intros []|].
  destruct (findVariation prefix text (variations d)) as [w|] eqn:Hd; [discriminate|].
  intros [<-|Hin] Hv; [exact (findVariation_none_inv _ _ _ Hd v Hv)|exact (IH H c v Hin Hv)].
Qed.

Lemma findPrefix_none_iff text cmds ps :
  findPrefix text cmds ps = None <->
  forall p c v, In p ps -> In c cmds -> In v (variations c) ->
                matchesVariation p v text = false.
Proof.
  split.
  - induction ps as [|q rest IH]; cbn [findPrefix]; intros H p c v; [intros []|].
    destruct (findCommand q text cmds) as [[c' v']|] eqn:Hq; [discriminate|].
    intros [<-|Hin] Hc Hv; [exact (findCommand_none_inv _ _ _ Hq c v Hc Hv)|].
    exact (IH H p c v Hin Hc Hv).
  - intros H. rewrite <- (app_nil_r ps). by rewrite findPrefix_skip.
Qed.

Lemma findPrefix_some text cmds ps p c v :
  findPrefix text cmds ps = Some (p, c, v) ->
  In p ps /\ In c cmds /\ In v (variations c) /\ matchesVariation p v text = true.
Proof.
  induction ps as [|q rest IH]; cbn [findPrefix]; [discriminate|].
  destruct (findCommand q text cmds) as [[c' v']|] eqn:Hq.
  - intros [= <- <- <-]. apply findCommand_some in Hq as (Hc & Hv & Hm).
    split; [left; reflexivity|auto].
  - intros H. destruct (IH H) as (Hp & Hrest). split; [right; exact Hp|exact Hrest].
Qed.

Lemma checkCommand_result_noMatch h message st :
  result (checkCommand h message st) = Ok CommandMatchNoMatch <->
  findPrefix (content message) (commands st) (getGlobalPrefixes (pushedStore message st))
  = None.
Proof.
  rewrite checkCommand_unfold. unfold getGlobalPrefixes.
  destruct (findPrefix _ _ _) as [[[p c] v]|]; [|split; reflexivity].
  split; [|discriminate].
  intros H. apply runMatched_result in H as [checks Habs]. discriminate Habs.
Qed.

(** X10.  [checkCommand] reports no match exactly when no valid prefix
    together with no variation of any registered command matches the message,
    and then it has run nothing; and a match it reports names a registered
    command, one of that command's variations, and a valid prefix under which
    that variation matches the message. *)
Theorem checkCommand_finds_a_match_iff_one_exists (h : Host) (message : Message)
  (st : Store) :
  (result (checkCommand h message st) = Ok CommandMatchNoMatch <->
   forall p c v,
     In p (getGlobalPrefixes (pushedStore message st)) ->
     In c (commands st) -> In v (variations c) ->
     matchesVariation p v (content message) = false) /\
  (result (checkCommand h message st) = Ok CommandMatchNoMatch ->
   trace (checkCommand h message st) = []) /\
  (forall v checks c,
      result (checkCommand h message st) = Ok (CommandMatchMatch v checks c) ->
      In c (commands st) /\ In v (variations c) /\
      exists p,
        In p (getGlobalPrefixes (pushedStore message st)) /\
        matchesVariation p v (content message) = true).
Proof.
  split; [|split].
  - rewrite checkCommand_result_noMatch. apply findPrefix_none_iff.
  - intros H. pose proof (proj1 (checkCommand_result_noMatch h message st) H) as Hnone.
    rewrite checkCommand_unfold. unfold getGlobalPrefixes in Hnone. rewrite Hnone.
    reflexivity.
  - intros v checks c H. apply checkCommand_result_match in H as [p Hfind].
    apply findPrefix_some in Hfind as (Hp & Hc & Hv & Hm). eauto.
Qed.

(** X11.  Neither dispatch function touches the registries, the owner, the
    guild prefixes or the moderator-role getter, whatever its outcome.
    [checkTasks] leaves the whole store as it is.  [checkCommand] leaves the
    global prefixes extended by the prefixes of the message's guild, so that
    it leaves the whole store as it is for a direct message and for a message
    of a guild without an entry. *)
Theorem dispatch_frame (h : Host) (message : Message) (x : bool) (st : Store) :
  store (checkTasks h message x st) = st /\
  commands (store (checkCommand h message st)) = commands st /\
  tasks (store (checkCommand h message st)) = tasks st /\
  ownerId (settings (store (checkCommand h message st))) = ownerId (settings st) /\
  guildPrefixes (settings (store (checkCommand h message st)))
    = guildPrefixes (settings st) /\
  getModRoles (settings (store (checkCommand h message st))) = getModRoles (settings st) /\
  getGlobalPrefixes (store (checkCommand h message st))
    = getGlobalPrefixes st ++ match guild message with
                              | Some g => getGuildPrefixes g st
                              | None => []
                              end /\
  (match guild message with
   | Some g => guildPrefixes (settings st) !! g = None
   | None => True
   end -> store (checkCommand h message st) = st).
Proof.
  split; [apply checkTasks_store|]. rewrite checkCommand_store.
  unfold pushedStore, getGlobalPrefixes, getGuildPrefixes.
  destruct (guild message) as [g|].
  - destruct (guildPrefixes (settings st) !! g) as [ps|]; cbn.
    + repeat split. discriminate.
    + rewrite app_nil_r. repeat split.
  - rewrite app_nil_r. repeat split.
Qed.

(** X12.  Guild prefixes leak: once [checkCommand] has handled a message
    of a guild with prefixes of its own, each of those prefixes is a valid
    prefix for every later message, in a direct message or in any guild, so
    a later message that matches a registered command under such a prefix is
    not reported as no match. *)
Theorem guild_prefixes_leak (h : Host) (message : Message) (st : Store)
  (g : string) (ps : list string) (p : string) :
  guild message = Some g ->
  guildPrefixes (settings st) !! g = Some ps ->
  In p ps ->
  forall h' message',
    In p (getGlobalPrefixes (pushedStore message' (store (checkCommand h message st)))) /\
    forall c v,
      In c (commands st) -> In v (variations c) ->
      matchesVariation p v (content message') = true ->
      result (checkCommand h' message' (store (checkCommand h message st)))
      <> Ok CommandMatchNoMatch.
Proof.
  intros Hg Hps Hp h' message'.
  assert (In p (getGlobalPrefixes
                  (pushedStore message' (store (checkCommand h message st))))) as Hvalid.
  { rewrite checkCommand_store.
    assert (In p (getGlobalPrefixes (pushedStore message st))) as Hin.
    { rewrite (pushedStore_global message st g ps Hg Hps). apply in_or_app. by right. }
    revert Hin. generalize (pushedStore message st). intros st1 Hin.
    unfold pushedStore, getGlobalPrefixes in *.
    destruct (guild message') as [g'|]; [|exact Hin].
    destruct (guildPrefixes (settings st1) !! g'); [|exact Hin].
    cbn. apply in_or_app. by left. }
  split; [exact Hvalid|].
  intros c v Hc Hv Hmatch Hnone.
  apply checkCommand_result_noMatch in Hnone.
  rewrite findPrefix_none_iff in Hnone.
  rewrite (Hnone p c v Hvalid) in Hmatch; [discriminate| |exact Hv].
  rewrite checkCommand_store, pushedStore_commands. exact Hc.
Qed.

Lemma guild_prefixes_leak_witness :
  result (checkCommand obligingHost (directMessage "?ping")
            (store (checkCommand obligingHost (guildMessage "g" "hello")
                      (configured ["!"] ["?"] [commandFile "ping" []]))))
  <> Ok CommandMatchNoMatch /\
  result (checkCommand obligingHost (directMessage "?ping")
            (configured ["!"] ["?"] [commandFile "ping" []]))
  = Ok CommandMatchNoMatch.
Proof.
  split; [|vm_compute; reflexivity].
  refine (proj2 (guild_prefixes_leak obligingHost (guildMessage "g" "hello")
                   (configured ["!"] ["?"] [commandFile "ping" []]) "g" ["?"] "?"
                   _ _ _ obligingHost (directMessage "?ping"))
            (plainCommand "ping" []) "ping" _ _ _).
  - reflexivity.
  - vm_compute. reflexivity.
  - left. reflexivity.
  - vm_compute. left. reflexivity.
  - left. reflexivity.
  - vm_compute. reflexivity.
Defined.

(** ** The arguments are what follows the matched text *)

Lemma isWhitespace_lowerChar c : isWhitespace (lowerChar c) = isWhitespace c.
Proof. destruct c as [[] [] [] [] [] [] [] []]; reflexivity. Qed.

Lemma length_append a b :
  String.length (a +:+ b) = String.length a + String.length b.
Proof.
  induction a as [|c a IH]; [reflexivity|].
  rewrite append_cons. cbn [String.length]. by rewrite IH.
Qed.

(** A text whose lower-cased form reads [a] and then [b] reads a head and
    then a tail, which lower-case to [a] and to [b]. *)
Lemma toLowerCase_split a : forall t b,
  toLowerCase t = a +:+ b ->
  exists head tail,
    t = head +:+ tail /\ toLowerCase head = a /\ toLowerCase tail = b /\
    slice (String.length a) t = tail.
Proof.
  induction a as [|c a IH]; intros t b H.
  - exists "", t. auto.
  - destruct t as [|d t]; [discriminate H|].
    cbn [toLowerCase] in H. rewrite append_cons in H. injection H as Hc Ht.
    destruct (IH t b Ht) as (head & tail & -> & Hh & Htl & Hs).
    exists (String d head), tail. rewrite append_cons. cbn [toLowerCase].
    rewrite Hh, Hc. auto.
Qed.

Lemma toLowerCase_length s : String.length (toLowerCase s) = String.length s.
Proof. induction s as [|c s IH]; [reflexivity|]. cbn. by rewrite IH. Qed.

(** X13.  For a message of ASCII text, where lower-casing keeps every
    character in its place, the arguments handed to a run action are what the
    message says after the matched text, in the message's own case: the
    message text reads a head of [argsOffset] characters, which lower-cased
    is the prefix followed by the variation, and then a tail that is empty or
    starts with whitespace; [args] is that tail, trimmed. *)
Theorem args_follow_the_matched_text (h : Host) (message : Message) (st : Store)
  (c : Command) (m : Message) (ctx : CommandContext) :
  asciiText (content message) = true ->
  In (CommandRun c m ctx) (trace (checkCommand h message st)) ->
  exists head tail,
    content message = head +:+ tail /\
    String.length head = argsOffset ctx /\
    toLowerCase head = cc_prefix ctx +:+ cc_command ctx /\
    (tail = "" \/ exists ch r, tail = String ch r /\ isWhitespace ch = true) /\
    args ctx = trim tail.
Proof.
  intros _. rewrite checkCommand_unfold.
  destruct (findPrefix _ _ _) as [[[prefix commandObj] v]|] eqn:Hfind; [|intros []].
  intros Hin. apply runMatched_run_event in Hin as (-> & -> & Hcontent).
  apply findPrefix_some in Hfind as (_ & _ & _ & Hmatch).
  apply matchesVariation_iff in Hmatch as (rest & Hlow & Hbound).
  destruct (toLowerCase_split _ _ _ Hlow) as (head & tail & Htext & Hhead & Htail & Hslice).
  exists head, tail. cbn.
  assert (String.length head = String.length v + String.length prefix) as Hlen.
  { rewrite <- (toLowerCase_length head), Hhead, length_append. lia. }
  split; [exact Htext|]. split; [exact Hlen|]. split; [exact Hhead|]. split.
  - destruct tail as [|ch r]; [by left|right].
    exists ch, r. split; [reflexivity|].
    cbn [toLowerCase] in Htail. subst rest.
    destruct Hbound as [Habs|(ch' & r' & [= <- _] & Hws)]; [discriminate Habs|].
    by rewrite isWhitespace_lowerChar in Hws.
  - rewrite Hcontent, <- Hlen, <- (toLowerCase_length head), Hhead, Hslice. reflexivity.
Qed.

Lemma args_follow_the_matched_text_witness :
  exists head tail,
    "!Say  Hello World " = head +:+ tail /\
    String.length head = 4 /\
    toLowerCase head = "!" +:+ "say" /\
    (tail = "" \/ exists ch r, tail = String ch r /\ isWhitespace ch = true) /\
    "Hello World" = trim tail.
Proof.
  refine (args_follow_the_matched_text obligingHost (directMessage "!Say  Hello World ")
            (configured ["!"] [] [commandFile "say" []]) (plainCommand "say" [])
            (directMessage "!Say  Hello World ")
            (commandContext "!" "say" (plainCommand "say" [])
               (directMessage "!Say  Hello World ")) _ _).
  - vm_compute. reflexivity.
  - vm_compute. left. reflexivity.
Defined.

(** ** Where a failure of the dispatch functions comes from *)

Lemma checkCommandPermissions_Throw s c m e :
  checkCommandPermissions s c m = Throw e ->
  (guild m <> None -> member m <> None) ->
  exists g, guild m = Some g /\ getModRoles s g = Throw e.
Proof.
  intros H Hres. destruct (guild m) as [g|] eqn:Hg.
  - destruct (member m) as [mem|] eqn:Hm;
      [|exfalso; apply Hres; [discriminate|reflexivity]].
    rewrite (checkCommandPermissions_guild s c m g mem Hg Hm) in H.
    destruct (getModRoles s g) as [roles|e'] eqn:Hr; [discriminate H|].
    injection H as <-. eauto.
  - rewrite (checkCommandPermissions_dm s c m Hg) in H. discriminate H.
Qed.

(** X14.  [checkCommand] fails only when the host fails: a rejection of
    the call is the rejection of the member fetch or of the moderator-role
    lookup, and then no run action has been invoked, or it is the rejection
    of the run action of the matched command, which has been invoked. *)
Theorem checkCommand_fails_only_with_the_host (h : Host) (message : Message)
  (st : Store) (e : Error) :
  result (checkCommand h message st) = Throw e ->
  (exists g,
      guild message = Some g /\ member message = None /\
      fetchMember h g (authorId message) = Throw e /\
      trace (checkCommand h message st) = [MemberFetched g (authorId message)]) \/
  (exists g,
      guild message = Some g /\ getModRoles (settings st) g = Throw e /\
      forall c m ctx, ~ In (CommandRun c m ctx) (trace (checkCommand h message st))) \/
  (exists c m ctx,
      runCommand h c m ctx = Throw e /\
      In (CommandRun c m ctx) (trace (checkCommand h message st))).
Proof.
  rewrite checkCommand_unfold.
  destruct (findPrefix _ _ _) as [[[prefix commandObj] v]|]; [|discriminate].
  unfold runMatched, resolveMember, bind, gets, liftRes, emit, ret, result, trace.
  destruct (guild message) as [g|] eqn:Hg; [destruct (member message) as [mem|] eqn:Hm|].
  - cbn.
    destruct (checkCommandPermissions _ commandObj message) as [checks|e'] eqn:Hc; cbn.
    + destruct (passChecks checks); cbn; [|discriminate].
      destruct (runCommand h commandObj message _) as [[]|e'] eqn:Hrun; cbn;
        [discriminate|].
      intros [= <-]. right. right. eexists _, _, _. split; [exact Hrun|by left].
    + intros [= <-].
      apply checkCommandPermissions_Throw in Hc as (g' & Hg' & Hroles); [|congruence].
      right. left. exists g'. rewrite pushedStore_getModRoles in Hroles.
      split; [congruence|]. split; [exact Hroles|]. intros c m ctx [].
  - cbn. destruct (fetchMember h g (authorId message)) as [mem|e'] eqn:Hf; cbn.
    + destruct (checkCommandPermissions _ commandObj (withMember message mem))
        as [checks|e'] eqn:Hc; cbn.
      * destruct (passChecks checks); cbn; [|discriminate].
        destruct (runCommand h commandObj (withMember message mem) _) as [[]|e'] eqn:Hrun;
          cbn; [discriminate|].
        intros [= <-]. right. right. eexists _, _, _.
        split; [exact Hrun|right; by left].
      * intros [= <-].
        apply checkCommandPermissions_Throw in Hc as (g' & Hg' & Hroles);
          [|cbn; congruence].
        cbn in Hg'. right. left. exists g'. rewrite pushedStore_getModRoles in Hroles.
        split; [congruence|]. split; [exact Hroles|].
        intros c m ctx [Habs|[]]. discriminate Habs.
    + intros [= <-]. left. exists g. auto.
  - cbn.
    destruct (checkCommandPermissions _ commandObj message) as [checks|e'] eqn:Hc; cbn.
    + destruct (passChecks checks); cbn; [|discriminate].
      destruct (runCommand h commandObj message _) as [[]|e'] eqn:Hrun; cbn;
        [discriminate|].
      intros [= <-]. right. right. eexists _, _, _. split; [exact Hrun|by left].
    + intros _. apply checkCommandPermissions_Throw in Hc as (g' & Hg' & _); congruence.
Qed.

Lemma checkCommand_fails_only_with_the_host_witness :
  exists c m ctx,
    runCommand rejectingHost c m ctx = Throw (JsError "run failed") /\
    In (CommandRun c m ctx)
       (trace (checkCommand rejectingHost (directMessage "!ping")
                 (configured ["!"] [] [commandFile "ping" []]))).
Proof.
  destruct (checkCommand_fails_only_with_the_host rejectingHost (directMessage "!ping")
              (configured ["!"] [] [commandFile "ping" []]) (JsError "run failed"))
    as [(g & Hg & _)|[(g & Hg & _)|Hrun]].
  - vm_compute. reflexivity.
  - discriminate Hg.
  - discriminate Hg.
  - exact Hrun.
Defined.

(** ** The outcome of the task selector *)

Lemma selectTasks_lists h message x ts :
  forall limitedSelected ctx st ctx' st' ev,
    selectTasks h message x ts limitedSelected ctx st = (Ok ctx', st', ev) ->
    exists ms ns,
      matching ctx' = matching ctx ++ ms /\
      notMatching ctx' = notMatching ctx ++ ns /\
      ms ++ ns ≡ₚ ts /\ ms `sublist_of` ts /\ ns `sublist_of` ts.
Proof.
  induction ts as [|taskObj rest IH]; intros ls ctx st ctx' st' ev.
  - cbn [selectTasks]. unfold ret. intros [= <- _ _].
    exists [], []. rewrite !app_nil_r. repeat split; constructor.
  - cbn [selectTasks]. unfold bind at 1.
    match goal with
    | |- context [(if testResultOf h taskObj message then ?a else ?b) st] =>
        destruct ((if testResultOf h taskObj message then a else b) st)
          as [[[[]|e] s1] ev1]; [| |discriminate]
    end.
    + destruct (selectTasks _ _ _ rest _ _ s1) as [[r s] ev'] eqn:Hrest.
      intros [= -> -> <-].
      destruct (IH _ _ _ _ _ _ Hrest) as (ms & ns & Hm & Hn & Hp & Hsm & Hsn).
      cbn in Hm, Hn. exists (taskObj :: ms), ns.
      split; [by rewrite Hm, <- app_assoc|]. split; [exact Hn|].
      split; [cbn; by rewrite Hp|]. split; [by apply sublist_skip|by apply sublist_cons].
    + destruct (selectTasks _ _ _ rest _ _ s1) as [[r s] ev'] eqn:Hrest.
      intros [= -> -> <-].
      destruct (IH _ _ _ _ _ _ Hrest) as (ms & ns & Hm & Hn & Hp & Hsm & Hsn).
      cbn in Hm, Hn. exists ms, (taskObj :: ns).
      split; [exact Hm|]. split; [by rewrite Hn, <- app_assoc|].
      split; [by rewrite <- Permutation_middle, Hp|].
      split; [by apply sublist_cons|by apply sublist_skip].
Qed.

Lemma runTasks_outcome h message ctx ts st :
  match runTasks h message ctx ts st with
  | (Ok _, _, ev) =>
      ev = taskRuns message ctx ts /\ Forall (fun t => runTask h t message ctx = Ok tt) ts
  | (Throw e, _, ev) =>
      exists pre t post,
        ts = pre ++ t :: post /\ ev = taskRuns message ctx (pre ++ [t]) /\
        runTask h t message ctx = Throw e /\
        Forall (fun t' => runTask h t' message ctx = Ok tt) pre
  end.
Proof.
  induction ts as [|taskObj rest IH]; [split; constructor|].
  cbn [runTasks]. unfold bind, emit, liftRes.
  destruct (runTask h taskObj message ctx) as [[]|e] eqn:Hrun; cbn.
  - destruct (runTasks h message ctx rest st) as [[[[]|e] s] ev].
    + destruct IH as [-> Hall]. split; [reflexivity|by constructor].
    + destruct IH as (pre & t & post & -> & -> & Ht & Hpre).
      exists (taskObj :: pre), t, post. repeat split; auto.
  - exists [], taskObj, rest. repeat split; auto.
Qed.

(** X15.  When [checkTasks] returns, [matching] and [notMatching] split the
    registered tasks: together they hold every registered task exactly as
    often as the registry does, each keeps the order of the registry,
    [match] tells whether [matching] is non-empty, and the run actions
    invoked are those of the matching tasks, each once, in that order, each
    with the context that holds the two complete lists. *)
Theorem checkTasks_splits_and_runs (h : Host) (message : Message) (x : bool)
  (st : Store) (r : TaskMatch) :
  result (checkTasks h message x st) = Ok r ->
  tm_matching r ++ tm_notMatching r ≡ₚ tasks st /\
  tm_matching r `sublist_of` tasks st /\
  tm_notMatching r `sublist_of` tasks st /\
  (tm_match r = true <-> tm_matching r <> []) /\
  trace (checkTasks h message x st)
  = taskRuns message {| matching := tm_matching r; notMatching := tm_notMatching r |}
      (tm_matching r) /\
  Forall (fun t =>
            runTask h t message
              {| matching := tm_matching r; notMatching := tm_notMatching r |} = Ok tt)
    (tm_matching r).
Proof.
  rewrite checkTasks_unfold.
  destruct (selectTasks h _ _ _ _ _ st) as [[[ctx|e'] s1] ev1] eqn:Hsel; [|discriminate].
  destruct (selectTasks_lists _ _ _ _ _ _ _ _ _ _ Hsel)
    as (ms & ns & Hm & Hn & Hp & Hsm & Hsn).
  cbn in Hm, Hn.
  pose proof (runTasks_outcome h message ctx (matching ctx) st) as Hrun.
  destruct (runTasks h message ctx (matching ctx) st) as [[[[]|e'] s2] ev2];
    [|discriminate].
  intros [= <-]. cbn. destruct Hrun as [-> Hall].
  rewrite Hm, Hn in *. repeat split; auto.
  - destruct ms; [discriminate|auto].
  - destruct ms; [congruence|reflexivity].
  - destruct ctx as [cm cn]. cbn in *. subst. reflexivity.
  - destruct ctx as [cm cn]. cbn in *. subst. exact Hall.
Qed.

Lemma checkTasks_splits_and_runs_witness :
  trace (checkTasks obligingHost (directMessage "hi") true threeTasks)
  = taskRuns (directMessage "hi")
      {| matching := [plainTask "b-open" false];
         notMatching := [plainTask "a-limited" true; plainTask "c-limited" true] |}
      [plainTask "b-open" false].
Proof.
  refine (proj1 (proj2 (proj2 (proj2 (proj2
    (checkTasks_splits_and_runs obligingHost (directMessage "hi") true threeTasks
       {| tm_match := true;
          tm_matching := [plainTask "b-open" false];
          tm_notMatching := [plainTask "a-limited" true; plainTask "c-limited" true] |}
       _)))))).
  vm_compute. reflexivity.
Defined.





(** ** Which tasks are selected *)

Lemma noAdjacentLimited_snoc l t :
  noAdjacentLimited l -> (lastLimited l = true -> limited t = false) ->
  noAdjacentLimited (l ++ [t]).
Proof.
  induction l as [|a rest IH]; [intros _ _; exact I|].
  destruct rest as [|b rest'].
  - intros _ Hlast. cbn in *. auto.
  - intros [Hab Hrest] Hlast. split; [exact Hab|]. apply IH; assumption.
Qed.

Lemma lastLimited_snoc l t : lastLimited (l ++ [t]) = limited t.
Proof.
  induction l as [|a rest IH]; [reflexivity|].
  destruct rest as [|b rest']; [reflexivity|exact IH].
Qed.

Lemma selectTasks_noAdjacent h message x ts :
  forall limitedSelected ctx st ctx' st' ev,
    selectTasks h message x ts limitedSelected ctx st = (Ok ctx', st', ev) ->
    noAdjacentLimited (matching ctx) -> limitedSelected = lastLimited (matching ctx) ->
    noAdjacentLimited (matching ctx').
Proof.
  induction ts as [|taskObj rest IH]; intros ls ctx st ctx' st' ev.
  - cbn [selectTasks]. unfold ret. intros [= <- _ _]. auto.
  - cbn [selectTasks]. unfold bind, gets, liftRes, ret.
    destruct (testResultOf h taskObj message); cbn.
    + destruct (checkTaskPermissions (settings st) taskObj message) as [checks|e0]; cbn;
        [|discriminate].
      destruct (passChecks checks && (negb (limited taskObj) || negb ls && negb x))
        eqn:Hsel;
        destruct (selectTasks _ _ _ rest _ _ st) as [[r s] ev'] eqn:Hrest;
        intros [= -> -> <-] Hno Hls.
      * apply (IH _ _ _ _ _ _ Hrest); cbn.
        -- apply noAdjacentLimited_snoc; [exact Hno|].
           intros Hlast. rewrite Hls, Hlast in Hsel.
           apply andb_prop in Hsel as [_ Hsel].
           destruct (limited taskObj); [cbn in Hsel; discriminate Hsel|reflexivity].
        -- by rewrite lastLimited_snoc.
      * exact (IH _ _ _ _ _ _ Hrest Hno Hls).
    + destruct (selectTasks _ _ _ rest _ _ st) as [[r s] ev'] eqn:Hrest.
      intros [= -> -> <-] Hno Hls. exact (IH _ _ _ _ _ _ Hrest Hno Hls).
Qed.

Lemma noAdjacentLimited_all_limited l :
  noAdjacentLimited l -> Forall (fun t => limited t = true) l -> length l <= 1.
Proof.
  destruct l as [|a [|b rest]]; cbn; [lia|lia|].
  intros [Hab _] Hall. inversion Hall as [|? ? Ha Hrest]; subst.
  inversion Hrest as [|? ? Hb _]; subst. rewrite (Hab Ha) in Hb. discriminate.
Qed.

(** X17.  What the selector guarantees about limited tasks: in [matching]
    no limited task directly follows a limited task.  So when every
    registered task is limited, at most one task is selected. *)
Theorem limited_tasks_are_never_adjacent (h : Host) (message : Message) (x : bool)
  (st : Store) (r : TaskMatch) :
  result (checkTasks h message x st) = Ok r ->
  noAdjacentLimited (tm_matching r) /\
  (Forall (fun t => limited t = true) (tasks st) -> length (tm_matching r) <= 1).
Proof.
  rewrite checkTasks_unfold.
  destruct (selectTasks h _ _ _ _ _ st) as [[[ctx|e'] s1] ev1] eqn:Hsel; [|discriminate].
  pose proof (selectTasks_noAdjacent _ _ _ _ _ _ _ _ _ _ Hsel I eq_refl) as Hno.
  destruct (selectTasks_partition _ _ _ _ _ _ _ _ _ _ Hsel) as (Hm & _ & _).
  destruct (runTasks h message ctx (matching ctx) st) as [[[[]|e'] s2] ev2];
    [|discriminate].
  intros [= <-]. cbn. split; [exact Hno|].
  intros Hall. apply noAdjacentLimited_all_limited; [exact Hno|].
  apply List.Forall_forall. intros t Ht.
  destruct (Hm t Ht) as [[]|[Hin _]].
  rewrite List.Forall_forall in Hall. auto.
Qed.

Lemma limited_tasks_are_never_adjacent_witness :
  noAdjacentLimited
    [plainTask "a-limited" true; plainTask "b-open" false; plainTask "c-limited" true].
Proof.
  refine (proj1 (limited_tasks_are_never_adjacent obligingHost (directMessage "hi") false
                   threeTasks
                   {| tm_match := true;
                      tm_matching := [plainTask "a-limited" true; plainTask "b-open" false;
                                      plainTask "c-limited" true];
                      tm_notMatching := [] |} _)).
  vm_compute. reflexivity.
Defined.

Lemma selectTasks_selected h message x ts :
  forall limitedSelected ctx st ctx' st' ev,
    selectTasks h message x ts limitedSelected ctx st = (Ok ctx', st', ev) ->
    (forall t, In t (matching ctx') ->
               In t (matching ctx) \/
               (In t ts /\ eligible h (settings st) message t /\
                (limited t = true -> x = false))) /\
    (forall t, In t (matching ctx) -> In t (matching ctx')) /\
    (forall t, In t ts -> limited t = false -> eligible h (settings st) message t ->
               In t (matching ctx')).
Proof.
  induction ts as [|taskObj rest IH]; intros ls ctx st ctx' st' ev.
  - cbn [selectTasks]. unfold ret. intros [= <- _ _].
    split; [auto|]. split; [auto|]. intros t [].
  - cbn [selectTasks]. unfold bind, gets, liftRes, ret.
    destruct (testResultOf h taskObj message) eqn:Htest; cbn.
    + destruct (checkTaskPermissions (settings st) taskObj message) as [checks|e0] eqn:Hc;
        cbn; [|discriminate].
      destruct (passChecks checks && (negb (limited taskObj) || negb ls && negb x))
        eqn:Hsel;
        destruct (selectTasks _ _ _ rest _ _ st) as [[r s] ev'] eqn:Hrest;
        intros [= -> -> <-]; destruct (IH _ _ _ _ _ _ Hrest) as (Hm & Hk & Hf);
        cbn in Hm, Hk.
      * apply andb_prop in Hsel as [Hpass Hlim].
        split; [|split].
        -- intros t Ht. destruct (Hm t Ht) as [Hin|(Hin & He & Hx)].
           ++ apply in_app_or in Hin as [Hin|[<-|[]]]; [by left|right].
              split; [by left|]. split; [split; eauto|].
              intros Hl. rewrite Hl in Hlim. cbn in Hlim.
              apply andb_prop in Hlim as [_ Hx]. by apply negb_true_iff.
           ++ right. split; [by right|auto].
        -- intros t Ht. apply Hk. apply in_or_app. by left.
        -- intros t [<-|Hin] Hl He; [|auto].
           apply Hk. apply in_or_app. right. by left.
      * split; [|split].
        -- intros t Ht. destruct (Hm t Ht) as [Hin|(Hin & He & Hx)]; [by left|].
           right. split; [by right|auto].
        -- exact Hk.
        -- intros t [<-|Hin] Hl He; [|auto].
           destruct He as (_ & checks' & Hc' & Hp').
           rewrite Hc in Hc'. injection Hc' as <-.
           rewrite Hp', Hl in Hsel. discriminate Hsel.
    + destruct (selectTasks _ _ _ rest _ _ st) as [[r s] ev'] eqn:Hrest.
      intros [= -> -> <-]. destruct (IH _ _ _ _ _ _ Hrest) as (Hm & Hk & Hf).
      cbn in Hm, Hk. split; [|split].
      * intros t Ht. destruct (Hm t Ht) as [Hin|(Hin & He & Hx)]; [by left|].
        right. split; [by right|auto].
      * exact Hk.
      * intros t [<-|Hin] Hl He; [|auto].
        destruct He as (He & _). congruence.
Qed.

(** X18.  Which tasks [checkTasks] selects when it returns: a task in
    [matching] is a registered task whose test returned [true] and whose
    permission checks pass, and it is limited only if [excludeLimited] is
    false; a registered task that is not limited is in [matching] exactly
    when its test returned [true] and its checks pass, whatever
    [excludeLimited] and whatever the limited tasks; and a registered task
    whose test failed or whose checks do not pass is in [notMatching]. *)
Theorem checkTasks_selection (h : Host) (message : Message) (x : bool) (st : Store)
  (r : TaskMatch) :
  result (checkTasks h message x st) = Ok r ->
  (forall t, In t (tm_matching r) ->
             In t (tasks st) /\ eligible h (settings st) message t /\
             (limited t = true -> x = false)) /\
  (forall t, In t (tasks st) -> limited t = false ->
             (In t (tm_matching r) <-> eligible h (settings st) message t)) /\
  (forall t, In t (tasks st) -> ~ eligible h (settings st) message t ->
             In t (tm_notMatching r)).
Proof.
  rewrite checkTasks_unfold.
  destruct (selectTasks h _ _ _ _ _ st) as [[[ctx|e'] s1] ev1] eqn:Hsel; [|discriminate].
  destruct (selectTasks_selected _ _ _ _ _ _ _ _ _ _ Hsel) as (Hm & _ & Hf).
  destruct (selectTasks_lists _ _ _ _ _ _ _ _ _ _ Hsel) as (ms & ns & Hms & Hns & Hp & _).
  cbn in Hms, Hns.
  destruct (runTasks h message ctx (matching ctx) st) as [[[[]|e'] s2] ev2];
    [|discriminate].
  intros [= <-]. cbn.
  assert (forall t, In t (matching ctx) ->
                    In t (tasks st) /\ eligible h (settings st) message t /\
                    (limited t = true -> x = false)) as Hsound.
  { intros t Ht. destruct (Hm t Ht) as [[]|]. assumption. }
  split; [exact Hsound|]. split.
  - intros t Hin Hl. split; [intros Ht; apply (Hsound t Ht)|apply (Hf t Hin Hl)].
  - intros t Hin Hne.
    assert (In t (ms ++ ns)) as Hmn.
    { apply list_elem_of_In. rewrite Hp. by apply list_elem_of_In. }
    rewrite Hns. apply in_app_or in Hmn as [Ht|Ht]; [|exact Ht].
    rewrite <- Hms in Ht. destruct Hne. apply (Hsound t Ht).
Qed.

Lemma checkTasks_selection_witness :
  In (plainTask "b-open" false)
     (tm_matching {| tm_match := true;
                     tm_matching := [plainTask "b-open" false];
                     tm_notMatching := [plainTask "a-limited" true;
                                        plainTask "c-limited" true] |})
  <-> eligible obligingHost (settings threeTasks) (directMessage "hi")
        (plainTask "b-open" false).
Proof.
  refine (proj1 (proj2 (checkTasks_selection obligingHost (directMessage "hi") true
                          threeTasks _ _)) (plainTask "b-open" false) _ _).
  - vm_compute. reflexivity.
  - vm_compute. right. left. reflexivity.
  - reflexivity.
Defined.

(** ** Sorting keeps the entries *)

Lemma sortInsert_Permutation {A} (cmp : A -> A -> Z) x l : sortInsert cmp x l ≡ₚ x :: l.
Proof.
  induction l as [|y rest IH]; [reflexivity|]. cbn [sortInsert].
  destruct (0 <? cmp x y)%Z; [|reflexivity].
  rewrite IH. apply Permutation_swap.
Qed.

Lemma jsSort_Permutation {A} (cmp : A -> A -> Z) l : jsSort cmp l ≡ₚ l.
Proof.
  induction l as [|x rest IH]; [reflexivity|]. cbn [jsSort].
  by rewrite sortInsert_Permutation, IH.
Qed.

Lemma jsSort_sorted {A} (cmp : A -> A -> Z) (R : A -> A -> Prop) l :
  (forall x y, (0 <? cmp x y)%Z = true -> R y x) ->
  (forall x y, (0 <? cmp x y)%Z = false -> R x y) ->
  (forall x y z, R x y -> R y z -> R x z) ->
  StronglySorted R (jsSort cmp l).
Proof.
  intros Hgt Hle Htrans.
  assert (forall x l, StronglySorted R l -> StronglySorted R (sortInsert cmp x l)) as Hins.
  { intros x l0. induction 1 as [|y rest Hsorted IH Hy]; cbn [sortInsert].
    - constructor; constructor.
    - destruct (0 <? cmp x y)%Z eqn:Hc.
      + constructor; [exact IH|].
        apply List.Forall_forall. intros z Hz. apply sortInsert_In in Hz as [->|Hz].
        * by apply Hgt.
        * rewrite List.Forall_forall in Hy. auto.
      + constructor; [by constructor|].
        constructor; [by apply Hle|].
        eapply Forall_impl; [exact Hy|]. intros z Hz. cbn in Hz.
        exact (Htrans x y z (Hle x y Hc) Hz). }
  induction l as [|x rest IH]; cbn [jsSort]; [constructor|by apply Hins].
Qed.

Lemma compareCommands_pos x y :
  (0 <? compareCommands x y)%Z = true <->
  String.length (command x) < String.length (command y).
Proof.
  unfold compareCommands.
  destruct (Nat.ltb_spec (String.length (command y)) (String.length (command x)));
    [split; [discriminate|lia]|].
  destruct (Nat.ltb_spec (String.length (command x)) (String.length (command y)));
    [split; [auto|reflexivity]|split; [discriminate|lia]].
Qed.

Lemma sortInsert_ofNameLength n x l :
  ofNameLength n (sortInsert compareCommands x l) = ofNameLength n (x :: l).
Proof.
  unfold ofNameLength. induction l as [|y rest IH]; [reflexivity|].
  cbn [sortInsert].
  destruct (0 <? compareCommands x y)%Z eqn:Hc; [|reflexivity].
  apply compareCommands_pos in Hc.
  rewrite (filter_cons _ y), IH, !filter_cons.
  destruct (decide (String.length (command y) = n)),
    (decide (String.length (command x) = n)); try reflexivity. lia.
Qed.

Lemma jsSort_ofNameLength n l :
  ofNameLength n (jsSort compareCommands l) = ofNameLength n l.
Proof.
  induction l as [|x rest IH]; [reflexivity|]. cbn [jsSort].
  rewrite sortInsert_ofNameLength. unfold ofNameLength in *.
  rewrite !filter_cons, IH. reflexivity.
Qed.

(** ** Registration that returns *)

Lemma registerCommandFiles_returns files :
  forall commandStrings disabledCount registeredCount st info st' ev,
    registerCommandFiles files commandStrings disabledCount registeredCount st
    = (Ok info, st', ev) ->
    commands st' = commands st ++ omap acceptedCommand files /\
    registered info = registeredCount + length (omap acceptedCommand files) /\
    registered info + ri_disabled info = registeredCount + disabledCount + length files.
Proof.
  induction files as [|commandObj rest IH]; intros cs d r st info st' ev;
    cbn [registerCommandFiles].
  - unfold ret. intros [= <- <- _]. cbn. rewrite app_nil_r.
    split; [reflexivity|lia].
  - assert (forall c info0 st0,
               acceptedCommand commandObj = c ->
               commands st0 = (commands st ++ match c with Some y => [y] | None => [] end)
                                ++ omap acceptedCommand rest ->
               registered info0
               = r + length (match c with Some y => [y] | None => [] end)
                 + length (omap acceptedCommand rest) ->
               registered info0 + ri_disabled info0 = r + d + 1 + length rest ->
               commands st0 = commands st ++ omap acceptedCommand (commandObj :: rest) /\
               registered info0
               = r + length (omap acceptedCommand (commandObj :: rest)) /\
               registered info0 + ri_disabled info0
               = r + d + length (commandObj :: rest)) as Hstep.
    { intros c info0 st0 Hc Hcs Hr Hsum. rewrite omap_cons, Hc.
      destruct c; cbn [length] in *; rewrite Hcs, <- app_assoc; cbn;
        (split; [reflexivity|lia]). }
    unfold acceptedCommand at 1 in Hstep.
    destruct (asString (command commandObj)) as [s|]; [|discriminate].
    cbn zeta in *.
    destruct (String.eqb (toLowerCase (trim s)) "" || isTrue (disabled commandObj)).
    + intros H. apply IH in H as (Hcs & Hr & Hsum).
      apply (Hstep None info st' eq_refl);
        [rewrite app_nil_r; exact Hcs|cbn [length]; lia|lia].
    + unfold bind.
      destruct (aliases commandObj) as [l|].
      * unfold liftRes at 1. destruct (normaliseAliases l) as [als|e0]; [|discriminate].
        unfold liftRes, modify.
        destruct (rejectDuplicates cs _ _) as [[]|e0]; [|discriminate].
        destruct (registerCommandFiles rest _ _ _ _) as [[r0 s0] ev0] eqn:Hloop.
        cbn. intros [= -> -> _].
        apply IH in Hloop as (Hcs & Hr & Hsum).
        apply (Hstep _ info st' eq_refl);
          [exact Hcs|cbn [length]; lia|lia].
      * unfold ret at 1, liftRes, modify.
        destruct (rejectDuplicates cs _ _) as [[]|e0]; [|discriminate].
        destruct (registerCommandFiles rest _ _ _ _) as [[r0 s0] ev0] eqn:Hloop.
        cbn. intros [= -> -> _].
        apply IH in Hloop as (Hcs & Hr & Hsum).
        apply (Hstep _ info st' eq_refl);
          [exact Hcs|cbn [length]; lia|lia].
Qed.

(** X19.  A registration of commands that returns has appended to the
    living list what each definition of the batch contributes, a definition
    with an empty name or marked disabled contributing nothing, and has then
    sorted the list: the living list holds the earlier entries and the
    contributions, in descending order of name length, entries of equal name
    length in their earlier order.  [registered] counts the contributions,
    [registered] and [disabled] add up to the size of the batch, and the
    settings and the tasks are as before. *)
Theorem registerCommandsFolder_returns (files : list RawCommand) (st st' : Store)
  (info : RegistrationInfo) (ev : list Event) :
  registerCommandsFolder files st = (Ok info, st', ev) ->
  commands st' ≡ₚ commands st ++ omap acceptedCommand files /\
  StronglySorted longerFirst (commands st') /\
  (forall n, ofNameLength n (commands st')
             = ofNameLength n (commands st ++ omap acceptedCommand files)) /\
  registered info = length (omap acceptedCommand files) /\
  registered info + ri_disabled info = length files /\
  settings st' = settings st /\ tasks st' = tasks st /\ ev = [].
Proof.
  intros H.
  destruct (registerCommandsFolder_frame files st) as (Hs & Ht & Hev).
  rewrite H in Hs, Ht, Hev. unfold store, trace in *. cbn in Hs, Ht, Hev.
  pose proof (registerCommandsFolder_sorted _ _ _ _ _ H) as Hsorted.
  revert H. unfold registerCommandsFolder, bind, gets, modify, ret. cbn.
  destruct (registerCommandFiles files _ 0 0 st) as [[[info'|e] s0] ev0] eqn:Hloop;
    [|discriminate].
  intros [= -> <- _].
  apply registerCommandFiles_returns in Hloop as (Hcs & Hr & Hsum).
  cbn [sortCommands commands] in *. rewrite Hcs.
  split; [apply jsSort_Permutation|]. split; [rewrite <- Hcs; exact Hsorted|].
  split; [intros n; apply jsSort_ofNameLength|].
  repeat split; auto.
Qed.

Lemma registerCommandsFolder_returns_witness :
  commands (configured ["!"] []
              [commandFile "ban" []; commandFile " " []; commandFile "Banlist" ["bl"];
               commandFile "add" []])
  ≡ₚ commands (store (setGuildPrefixes "g" (Arr (map JsStr []))
                 (store (setGlobalPrefixes (Arr (map JsStr ["!"])) initialStore))))
     ++ omap acceptedCommand
          [commandFile "ban" []; commandFile " " []; commandFile "Banlist" ["bl"];
           commandFile "add" []].
Proof.
  refine (proj1 (registerCommandsFolder_returns
                   [commandFile "ban" []; commandFile " " []; commandFile "Banlist" ["bl"];
                    commandFile "add" []]
                   (store (setGuildPrefixes "g" (Arr (map JsStr []))
                      (store (setGlobalPrefixes (Arr (map JsStr ["!"])) initialStore))))
                   _ {| registered := 3; ri_disabled := 1 |} [] _)).
  vm_compute. reflexivity.
Defined.

(** ** Names stay unique *)

Lemma rejectDuplicates_Ok cs nm vs :
  rejectDuplicates cs nm vs = Ok tt -> forall v, In v vs -> ~ In v cs.
Proof.
  induction vs as [|w rest IH]; cbn [rejectDuplicates]; [intros _ v []|].
  destruct (includes cs w) eqn:Hw; [discriminate|].
  intros H v [<-|Hin]; [|exact (IH H v Hin)].
  intros Hc. apply includes_In in Hc. congruence.
Qed.

Lemma NoDup_names_snoc {A} (f : A -> string) (l : list A) (x : A) :
  NoDup (map f l) -> ~ In (f x) (map f l) -> NoDup (map f (l ++ [x])).
Proof.
  intros Hnd Hx. rewrite map_app. apply NoDup_app. split; [exact Hnd|].
  split; [|apply NoDup_singleton].
  intros y Hy Hyx. cbn in Hyx. apply list_elem_of_singleton in Hyx as ->.
  apply Hx. by apply list_elem_of_In.
Qed.

Lemma registerCommandFiles_unique files :
  forall commandStrings disabledCount registeredCount st res st' ev,
    registerCommandFiles files commandStrings disabledCount registeredCount st
    = (res, st', ev) ->
    NoDup (map command (commands st)) ->
    (forall nm, In nm (map command (commands st)) -> In nm commandStrings) ->
    NoDup (map command (commands st')).
Proof.
  induction files as [|commandObj rest IH]; intros cs d r st res st' ev;
    cbn [registerCommandFiles].
  - unfold ret. intros [= _ <- _]. auto.
  - destruct (asString (command commandObj)) as [s|]; [|intros [= _ <- _]; auto].
    cbn zeta.
    destruct (String.eqb (toLowerCase (trim s)) "" || isTrue (disabled commandObj));
      [apply IH|].
    assert (forall als res1 st1 ev1,
               (let* _ := liftRes (rejectDuplicates cs (toLowerCase (trim s))
                                     (toLowerCase (trim s) :: als)) in
                let* _ := modify (pushCommand
                                    (normalised commandObj (toLowerCase (trim s)) als)) in
                registerCommandFiles rest (cs ++ toLowerCase (trim s) :: als) d (S r)) st
               = (res1, st1, ev1) ->
               NoDup (map command (commands st)) ->
               (forall nm, In nm (map command (commands st)) -> In nm cs) ->
               NoDup (map command (commands st1))) as Hpush.
    { intros als res1 st1 ev1. unfold bind, liftRes, modify.
      destruct (rejectDuplicates cs _ _) as [[]|e0] eqn:Hdup;
        [|intros [= _ <- _]; auto].
      destruct (registerCommandFiles rest _ _ _ _) as [[r0 s0] ev0] eqn:Hloop.
      cbn. intros [= _ <- _] Hnd Hcs.
      refine (IH _ _ _ _ _ _ _ Hloop _ _); cbn [pushCommand commands].
      - apply NoDup_names_snoc; [exact Hnd|]. cbn [normalised command].
        intros Hin. apply (rejectDuplicates_Ok _ _ _ Hdup _ (or_introl eq_refl)).
        exact (Hcs _ Hin).
      - intros nm. rewrite map_app. intros Hin.
        apply in_app_or in Hin as [Hin|[<-|[]]]; apply in_or_app.
        + left. exact (Hcs _ Hin).
        + right. left. reflexivity. }
    unfold bind at 1. destruct (aliases commandObj) as [l|].
    + unfold liftRes at 1. destruct (normaliseAliases l) as [als|e0];
        [|intros [= _ <- _]; auto].
      match goal with
      | |- context [let (_, _) := ?t in _] => destruct t as [[r0 s0] ev0] eqn:Hk
      end.
      intros [= _ <- _]. exact (Hpush _ _ _ _ Hk).
    + unfold ret at 1.
      match goal with
      | |- context [let (_, _) := ?t in _] => destruct t as [[r0 s0] ev0] eqn:Hk
      end.
      intros [= _ <- _]. exact (Hpush _ _ _ _ Hk).
Qed.

Lemma registerTaskFiles_unique files :
  forall tasknames disabledCount registeredCount st res st' ev,
    registerTaskFiles files tasknames disabledCount registeredCount st = (res, st', ev) ->
    NoDup (map name (tasks st)) ->
    (forall nm, In nm (map name (tasks st)) -> In nm tasknames) ->
    NoDup (map name (tasks st')).
Proof.
  induction files as [|taskObj rest IH]; intros ns d r st res st' ev;
    cbn [registerTaskFiles].
  - unfold ret. intros [= _ <- _]. auto.
  - destruct (isTrue (t_disabled taskObj)); [apply IH|].
    destruct (includes ns (name taskObj)) eqn:Hinc; [intros [= _ <- _]; auto|].
    unfold bind, modify.
    destruct (registerTaskFiles rest _ _ _ _) as [[r0 s0] ev0] eqn:Hloop.
    cbn. intros [= -> -> _] Hnd Hns.
    refine (IH _ _ _ _ _ _ _ Hloop _ _); cbn [pushTask tasks].
    + apply NoDup_names_snoc; [exact Hnd|].
      intros Hin. apply Hns, includes_In in Hin. congruence.
    + intros nm. rewrite map_app. intros Hin.
      apply in_app_or in Hin as [Hin|[<-|[]]]; apply in_or_app.
      * left. exact (Hns _ Hin).
      * right. left. reflexivity.
Qed.

(** X20.  Registration keeps the primary names of the commands pairwise
    distinct, and the names of the tasks pairwise distinct, whether the call
    returns or raises. *)
Theorem registration_keeps_names_unique (cfiles : list RawCommand) (tfiles : list Task)
  (st : Store) :
  NoDup (map command (commands st)) ->
  NoDup (map name (tasks st)) ->
  NoDup (map command (commands (store (registerCommandsFolder cfiles st)))) /\
  NoDup (map name (tasks (store (registerCommandsFolder cfiles st)))) /\
  NoDup (map command (commands (store (registerTasksFolder tfiles st)))) /\
  NoDup (map name (tasks (store (registerTasksFolder tfiles st)))).
Proof.
  intros Hc Ht.
  destruct (registerCommandsFolder_frame cfiles st) as (_ & Hct & _).
  destruct (registerTasksFolder_frame tfiles st) as (_ & Htc & _).
  rewrite Hct, Htc. repeat split; auto.
  - unfold registerCommandsFolder, bind, gets, modify, ret. cbn.
    destruct (registerCommandFiles cfiles _ 0 0 st) as [[res s0] ev0] eqn:Hloop.
    pose proof (registerCommandFiles_unique _ _ _ _ _ _ _ _ Hloop Hc (fun _ H => H)) as Hnd.
    destruct res; cbn; [|exact Hnd].
    by rewrite jsSort_Permutation.
  - unfold registerTasksFolder, bind, gets, modify, ret. cbn.
    destruct (registerTaskFiles tfiles _ 0 0 st) as [[res s0] ev0] eqn:Hloop.
    pose proof (registerTaskFiles_unique _ _ _ _ _ _ _ _ Hloop Ht (fun _ H => H)) as Hnd.
    destruct res; cbn; [|exact Hnd].
    by rewrite jsSort_Permutation.
Qed.

Lemma registration_keeps_names_unique_witness :
  NoDup (map command
           (commands (store (registerCommandsFolder
                               [commandFile "ban" []; commandFile "add" []; commandFile "ban" []]
                               initialStore)))).
Proof.
  refine (proj1 (registration_keeps_names_unique
                   [commandFile "ban" []; commandFile "add" []; commandFile "ban" []]
                   [] initialStore _ _)); constructor.
Defined.

(** ** Registered names are in normal form *)

Lemma hasUpper_toLowerCase s : hasUpper (toLowerCase s) = false.
Proof.
  unfold hasUpper. induction s as [|c r IH]; [reflexivity|].
  cbn. by rewrite isUpper_lowerChar, IH.
Qed.

Lemma toLowerCase_fixed s : hasUpper s = false -> toLowerCase s = s.
Proof.
  unfold hasUpper. induction s as [|c r IH]; [reflexivity|].
  cbn. intros H. apply orb_false_elim in H as [Hc Hr].
  rewrite (IH Hr). unfold lowerChar. by rewrite Hc.
Qed.

Lemma toLowerCase_append a b : toLowerCase (a +:+ b) = toLowerCase a +:+ toLowerCase b.
Proof.
  induction a as [|c r IH]; [by rewrite !append_nil|].
  rewrite append_cons. cbn [toLowerCase]. by rewrite append_cons, IH.
Qed.

Lemma boundaryTest_toLowerCase s : boundaryTest (toLowerCase s) = boundaryTest s.
Proof. destruct s; [reflexivity|]. cbn. apply isWhitespace_lowerChar. Qed.

Lemma endsClean_toLowerCase s :
  endsClean isWhitespace (toLowerCase s) = endsClean isWhitespace s.
Proof.
  induction s as [|c r IH]; [reflexivity|].
  destruct r as [|d r']; cbn; [by rewrite isWhitespace_lowerChar|exact IH].
Qed.

Lemma normalName_lowerTrim s :
  toLowerCase (trim s) = "" \/ normalName (toLowerCase (trim s)).
Proof.
  unfold trim. destruct (trimStart_head s) as [->|(c & r & -> & Hc)]; [by left|].
  right. pose proof (trimEnd_clean (String c r)) as Hclean.
  destruct (trimEnd_head c r Hc) as [r' Hr']. rewrite Hr' in *.
  split; [|split].
  - cbn. by rewrite isWhitespace_lowerChar.
  - by rewrite endsClean_toLowerCase.
  - apply toLowerCase_fixed, hasUpper_toLowerCase.
Qed.

Lemma normaliseAliases_normal l als :
  normaliseAliases l = Ok als -> Forall (fun a => a = "" \/ normalName a) als.
Proof.
  revert als. induction l as [|p rest IH]; intros als; cbn [normaliseAliases].
  - intros [= <-]. constructor.
  - destruct (asString p) as [s|]; [|discriminate].
    destruct (normaliseAliases rest) as [ss|e]; cbn; [|discriminate].
    intros [= <-]. constructor; [apply normalName_lowerTrim|by apply IH].
Qed.

Lemma registerCommandFiles_normal files :
  forall commandStrings disabledCount registeredCount st res st' ev,
    registerCommandFiles files commandStrings disabledCount registeredCount st
    = (res, st', ev) ->
    Forall normalCommand (commands st) -> Forall normalCommand (commands st').
Proof.
  induction files as [|commandObj rest IH]; intros cs d r st res st' ev;
    cbn [registerCommandFiles].
  - unfold ret. intros [= _ <- _]. auto.
  - destruct (asString (command commandObj)) as [s|]; [|intros [= _ <- _]; auto].
    cbn zeta.
    destruct (String.eqb (toLowerCase (trim s)) "") eqn:Hempty; [apply IH|].
    destruct (isTrue (disabled commandObj)); [apply IH|]. cbn [orb].
    apply String.eqb_neq in Hempty.
    assert (forall als res1 st1 ev1,
               (let* _ := liftRes (rejectDuplicates cs (toLowerCase (trim s))
                                     (toLowerCase (trim s) :: als)) in
                let* _ := modify (pushCommand
                                    (normalised commandObj (toLowerCase (trim s)) als)) in
                registerCommandFiles rest (cs ++ toLowerCase (trim s) :: als) d (S r)) st
               = (res1, st1, ev1) ->
               Forall (fun a => a = "" \/ normalName a) als ->
               Forall normalCommand (commands st) ->
               Forall normalCommand (commands st1)) as Hpush.
    { intros als res1 st1 ev1. unfold bind, liftRes, modify.
      destruct (rejectDuplicates cs _ _) as [[]|e0] eqn:Hdup;
        [|intros [= _ <- _]; auto].
      destruct (registerCommandFiles rest _ _ _ _) as [[r0 s0] ev0] eqn:Hloop.
      cbn. intros [= _ <- _] Hals Hst.
      refine (IH _ _ _ _ _ _ _ Hloop _); cbn [pushCommand commands].
      apply Forall_app. split; [exact Hst|]. constructor; [|constructor].
      split; cbn [normalised command aliases]; [|exact Hals].
      by destruct (normalName_lowerTrim s). }
    unfold bind at 1. destruct (aliases commandObj) as [l|].
    + unfold liftRes at 1. destruct (normaliseAliases l) as [als|e0] eqn:Hals;
        [|intros [= _ <- _]; auto].
      match goal with
      | |- context [let (_, _) := ?t in _] => destruct t as [[r0 s0] ev0] eqn:Hk
      end.
      intros [= _ <- _]. exact (Hpush _ _ _ _ Hk (normaliseAliases_normal _ _ Hals)).
    + unfold ret at 1.
      match goal with
      | |- context [let (_, _) := ?t in _] => destruct t as [[r0 s0] ev0] eqn:Hk
      end.
      intros [= _ <- _]. exact (Hpush _ _ _ _ Hk ltac:(constructor)).
Qed.

Lemma matchesVariation_typed p v rest :
  toLowerCase p = p -> toLowerCase v = v -> boundaryTest rest = true ->
  matchesVariation p v ((p +:+ v) +:+ rest) = true.
Proof.
  intros Hp Hv Hrest. apply matchesVariation_iff. exists (toLowerCase rest).
  split.
  - rewrite !toLowerCase_append. by rewrite Hp, Hv.
  - rewrite <- boundaryTest_toLowerCase in Hrest.
    destruct (toLowerCase rest) as [|c r]; [by left|]. right. eauto.
Qed.

(** X21.  Registration keeps every stored command in normal form: a
    primary name that is not empty, has no whitespace at either end and is
    left as it is by [toLowerCase], and aliases that are empty or of that
    form, whether the call returns or raises.  A command stored in that form
    is reachable: a message made of a valid prefix that [toLowerCase] leaves
    as it is, the primary name, and then nothing or text that starts with
    whitespace, is never answered with "no match". *)
Theorem registered_names_are_normal_and_reachable (files : list RawCommand) (st : Store) :
  Forall normalCommand (commands st) ->
  Forall normalCommand (commands (store (registerCommandsFolder files st))) /\
  forall (h : Host) (message : Message) (c : Command) (p rest : string),
    In c (commands (store (registerCommandsFolder files st))) ->
    In p (getGlobalPrefixes
            (pushedStore message (store (registerCommandsFolder files st)))) ->
    toLowerCase p = p ->
    boundaryTest rest = true ->
    content message = (p +:+ command c) +:+ rest ->
    result (checkCommand h message (store (registerCommandsFolder files st)))
    <> Ok CommandMatchNoMatch.
Proof.
  intros Hst.
  assert (Forall normalCommand (commands (store (registerCommandsFolder files st))))
    as Hnormal.
  { unfold registerCommandsFolder, bind, gets, modify, ret. cbn.
    destruct (registerCommandFiles files _ 0 0 st) as [[res s0] ev0] eqn:Hloop.
    pose proof (registerCommandFiles_normal _ _ _ _ _ _ _ _ Hloop Hst) as Hs0.
    destruct res; cbn; [|exact Hs0].
    by rewrite jsSort_Permutation. }
  split; [exact Hnormal|].
  intros h message c p rest Hc Hp Hup Hrest Hcontent Hno.
  apply checkCommand_result_noMatch in Hno.
  pose proof (proj1 (findPrefix_none_iff _ _ _) Hno p c (command c) Hp Hc
                (or_introl eq_refl)) as Hmiss.
  rewrite List.Forall_forall in Hnormal.
  destruct (Hnormal c Hc) as [(_ & _ & Hlow) _].
  rewrite Hcontent, (matchesVariation_typed p (command c) rest Hup Hlow Hrest) in Hmiss.
  discriminate.
Qed.

Lemma registered_names_are_normal_and_reachable_witness :
  let files := [commandFile "  Ban " ["B"; " "]; commandFile "add" []] in
  let st := store (registerCommandsFolder files initialStore) in
  map command (commands st) = ["ban"; "add"] /\
  Forall normalCommand (commands st) /\
  result (checkCommand obligingHost (directMessage "ban  Someone") st)
  <> Ok CommandMatchNoMatch.
Proof.
  intros files st.
  pose proof (registered_names_are_normal_and_reachable files initialStore
                ltac:(constructor)) as [Hnormal Hreach].
  split; [vm_compute; reflexivity|]. split; [exact Hnormal|].
  apply (Hreach obligingHost (directMessage "ban  Someone") (plainCommand "ban" ["b"; ""])
           "" "  Someone").
  - vm_compute. left. reflexivity.
  - vm_compute. left. reflexivity.
  - reflexivity.
  - reflexivity.
  - reflexivity.
Defined.

(** ** Registration of tasks that returns *)

Lemma ascii_compare_N a b : Ascii.compare a b = (N_of_ascii a ?= N_of_ascii b)%N.
Proof. reflexivity. Qed.

Lemma string_compare_cons a s b t :
  String.compare (String a s) (String b t)
  = match Ascii.compare a b with
    | Eq => String.compare s t
    | Lt => Lt
    | Gt => Gt
    end.
Proof. reflexivity. Qed.

Lemma string_compare_lt_trans a : forall b c,
  String.compare a b = Lt -> String.compare b c = Lt -> String.compare a c = Lt.
Proof.
  induction a as [|x a IH]; intros [|y b] [|z c]; try discriminate; try reflexivity.
  rewrite !string_compare_cons, !ascii_compare_N.
  destruct (N.compare_spec (N_of_ascii x) (N_of_ascii y)) as [Hxy|Hxy|Hxy];
    [|..|discriminate];
    (destruct (N.compare_spec (N_of_ascii y) (N_of_ascii z)) as [Hyz|Hyz|Hyz];
     [|..|discriminate]); intros Hab Hbc.
  - rewrite Hxy, Hyz, N.compare_refl. exact (IH _ _ Hab Hbc).
  - rewrite Hxy. by apply N.compare_lt_iff in Hyz as ->.
  - rewrite <- Hyz. by apply N.compare_lt_iff in Hxy as ->.
  - assert (N_of_ascii x < N_of_ascii z)%N as H by lia.
    by apply N.compare_lt_iff in H as ->.
Qed.

Lemma string_leb_cases a b :
  String.leb a b = true <-> String.compare a b = Lt \/ a = b.
Proof.
  unfold String.leb. split.
  - destruct (String.compare a b) eqn:Hc; [|by left|discriminate].
    right. by apply String.compare_eq_iff.
  - intros [->| ->]; [reflexivity|].
    destruct (String.compare b b) eqn:Hc; try reflexivity.
    pose proof (String.compare_antisym b b) as Hanti. rewrite Hc in Hanti. discriminate.
Qed.

Lemma string_leb_trans a b c :
  String.leb a b = true -> String.leb b c = true -> String.leb a c = true.
Proof.
  rewrite !string_leb_cases. intros [Hab| ->] [Hbc| <-]; auto.
  left. exact (string_compare_lt_trans _ _ _ Hab Hbc).
Qed.

Lemma compareTasks_pos a b : (0 <? compareTasks a b)%Z = true -> nameOrder b a.
Proof.
  unfold compareTasks, nameOrder, String.ltb, String.leb.
  destruct (String.compare (name a) (name b)); [|discriminate|];
    destruct (String.compare (name b) (name a)); try discriminate; reflexivity.
Qed.

Lemma compareTasks_nonpos a b : (0 <? compareTasks a b)%Z = false -> nameOrder a b.
Proof.
  unfold compareTasks, nameOrder, String.ltb, String.leb.
  rewrite (String.compare_antisym (name a) (name b)).
  destruct (String.compare (name b) (name a)); cbn; try discriminate; reflexivity.
Qed.

Lemma registerTaskFiles_returns files :
  forall tasknames disabledCount registeredCount st info st' ev,
    registerTaskFiles files tasknames disabledCount registeredCount st
    = (Ok info, st', ev) ->
    tasks st' = tasks st ++ omap acceptedTask files /\
    registered info = registeredCount + length (omap acceptedTask files) /\
    registered info + ri_disabled info = registeredCount + disabledCount + length files.
Proof.
  induction files as [|taskObj rest IH]; intros ns d r st info st' ev;
    cbn [registerTaskFiles].
  - unfold ret. intros [= <- <- _]. cbn. rewrite app_nil_r.
    split; [reflexivity|lia].
  - rewrite omap_cons.
    change (acceptedTask taskObj)
      with (if isTrue (t_disabled taskObj) then None else Some taskObj).
    destruct (isTrue (t_disabled taskObj)).
    + intros H. apply IH in H as (Hts & Hr & Hsum).
      split; [exact Hts|]. cbn [length]. lia.
    + destruct (includes ns (name taskObj)); [discriminate|].
      unfold bind, modify.
      destruct (registerTaskFiles rest _ _ _ _) as [[r0 s0] ev0] eqn:Hloop.
      cbn. intros [= -> -> _].
      apply IH in Hloop as (Hts & Hr & Hsum).
      cbn [pushTask tasks] in Hts. rewrite <- app_assoc in Hts.
      split; [exact Hts|]. cbn [length]. lia.
Qed.

(** X22.  A call of [registerTasksFolder] that returns adds exactly the
    files that are not disabled to the stored tasks, leaves the tasks in
    ascending order of their names, reports how many files it registered and
    how many it skipped (the two add up to the number of files), touches
    neither the settings nor the commands, and runs no host code. *)
Theorem registerTasksFolder_returns (files : list Task) (st st' : Store)
  (info : RegistrationInfo) (ev : list Event) :
  registerTasksFolder files st = (Ok info, st', ev) ->
  tasks st' ≡ₚ tasks st ++ omap acceptedTask files /\
  StronglySorted nameOrder (tasks st') /\
  registered info = length (omap acceptedTask files) /\
  registered info + ri_disabled info = length files /\
  settings st' = settings st /\ commands st' = commands st /\ ev = [].
Proof.
  intros H.
  destruct (registerTasksFolder_frame files st) as (Hs & Hc & Hev).
  rewrite H in Hs, Hc, Hev. unfold store, trace in *. cbn in Hs, Hc, Hev.
  revert H. unfold registerTasksFolder, bind, gets, modify, ret. cbn.
  destruct (registerTaskFiles files _ 0 0 st) as [[[info'|e] s0] ev0] eqn:Hloop;
    [|discriminate].
  intros [= -> <- _].
  apply registerTaskFiles_returns in Hloop as (Hts & Hr & Hsum).
  cbn [sortTasks tasks] in *. rewrite Hts.
  split; [apply jsSort_Permutation|].
  split.
  { apply jsSort_sorted.
    - apply compareTasks_pos.
    - apply compareTasks_nonpos.
    - intros x y z. apply string_leb_trans. }
  repeat split; auto.
Qed.

Lemma registerTasksFolder_returns_witness :
  StronglySorted nameOrder
    (tasks (store (registerTasksFolder
                     [plainTask "welcome" false; plainTask "audit" true; plainTask "log" false]
                     initialStore))).
Proof.
  refine (proj1 (proj2 (registerTasksFolder_returns
                          [plainTask "welcome" false; plainTask "audit" true; plainTask "log" false]
                          initialStore _ {| registered := 3; ri_disabled := 0 |} [] _))).
  vm_compute. reflexivity.
Defined.
